(** * DeepLabCut (PyTorch pose estimation): configuration utilities,
    the top-down predictor and the training entry point.

  Shallow embedding of
  - [deeplabcut/pose_estimation_pytorch/models/predictors/top_down_prediction.py]
  - [deeplabcut/pose_estimation_pytorch/config/utils.py]
  - [deeplabcut/pose_estimation_pytorch/apis/train.py] (signature and entry point)

  The file is organised as the definitions of the embedding first (one
  module per source file) and the theorems about them afterwards. *)

From Stdlib Require Import ZArith Lia Bool QArith Ascii String.
From stdpp Require Import base tactics option list strings.

Local Open Scope string_scope.
Local Open Scope list_scope.
Local Open Scope nat_scope.

(** ** Python exceptions and outcomes *)

(** The exceptions the modelled code can raise.  [ValueError] carries the
  message the code formats; [RecursionError] is what the interpreter raises
  when the recursion limit is reached, [MemoryError] when a sequence is too
  large to be allocated. *)
Inductive exn : Type :=
| ValueError (msg : string)
| TypeError
| IndexError
| RuntimeError
| KeyError
| AttributeError
| SystemExit
| OverflowError
| MemoryError
| RecursionError.

Inductive outcome (A : Type) : Type :=
| Ok (a : A)
| Raise (e : exn).
Arguments Ok {A} a.
Arguments Raise {A} e.


(** ** Computations on a store

    Tensors, lists and dictionaries are mutable objects.  Code that creates
    or writes them is a function of the store [S] of the objects, which
    returns the store it leaves together with its outcome. *)
Definition M (S A : Type) : Type := S → outcome A * S.
Definition ret {S A} (a : A) : M S A := fun s => (Ok a, s).
Definition raise {S A} (e : exn) : M S A := fun s => (Raise e, s).
Definition bind {S A B} (m : M S A) (k : A → M S B) : M S B :=
  fun s => match m s with
           | (Ok a, s') => k a s'
           | (Raise e, s') => (Raise e, s')
           end.

Notation "'let*' x := m 'in' k" := (bind m (fun x => k))
  (at level 10, x name, m at level 200, k at level 200, only parsing).
Notation "m >> k" := (bind m (fun _ => k))
  (at level 100, k at level 200, right associativity, only parsing).

(** A [for] loop over [items]: the body is run for one item after the other,
    until one of the runs raises. *)
Definition for_loop {S A} (body : A → M S unit) : list A → M S unit :=
  fix loop (items : list A) : M S unit :=
    match items with
    | [] => ret tt
    | x :: rest => body x >> loop rest
    end.

(** ** top_down_prediction.py *)

Module TopDown.

(** A reference to a tensor of the store. *)
Abbreviation ref := nat.

Section Tensors.
(** The scalar type of the tensors (one floating dtype for every tensor of a
    call) and torch's element-wise arithmetic on it.  Nothing is assumed of
    the operations: the results below are about which operation is applied
    to which entries. *)
Context {F : Type}.
Variables (fadd fsub fmul fdiv : F → F → F) (of_int : Z → F).

(** A tensor is its shape and its entries.  The ranks are the ones the
    docstrings give: bounding boxes are rank 3
    [(batch_size, max_num_animals, 4)], keypoints are rank 4
    [(batch_size, max_num_animals, num_joints, 3)]; rank 2 tensors only
    occur as intermediate values. *)
Record Tensor2 := { r2_dim0 : nat; r2_dim1 : nat; at2 : nat → nat → F }.
Record Tensor3 :=
  { dim0 : nat; dim1 : nat; dim2 : nat; at3 : nat → nat → nat → F }.
Record Tensor4 :=
  { kdim0 : nat; kdim1 : nat; kdim2 : nat; kdim3 : nat;
    at4 : nat → nat → nat → nat → F }.

(** Tensors are mutable objects: a call receives references into a store.
    [clone] allocates, the indexed assignments write in place. *)
Inductive tensor := T3 (t : Tensor3) | T4 (t : Tensor4).

(** The tensor at a reference, at the rank the docstrings give it. *)
Definition read3 (r : ref) : M (list tensor) Tensor3 :=
  fun s => match s !! r with
           | Some (T3 t) => (Ok t, s)
           | _ => (Raise TypeError, s)
           end.
Definition read4 (r : ref) : M (list tensor) Tensor4 :=
  fun s => match s !! r with
           | Some (T4 t) => (Ok t, s)
           | _ => (Raise TypeError, s)
           end.
Definition write (r : ref) (t : tensor) : M (list tensor) unit :=
  fun s => (Ok tt, <[r := t]> s).
Definition alloc (t : tensor) : M (list tensor) ref :=
  fun s => (Ok (length s), s ++ [t]).

(** [t.clone()] *)
Definition clone (r : ref) : M (list tensor) ref :=
  fun s => match s !! r with
           | Some t => alloc t s
           | None => (Raise TypeError, s)
           end.

(** [t[:, :, c]] on a rank 3 tensor *)
Definition select3 (t : Tensor3) (c : nat) : M (list tensor) Tensor2 :=
  if c <? dim2 t
  then ret {| r2_dim0 := dim0 t; r2_dim1 := dim1 t;
              at2 := fun i j => at3 t i j c |}
  else raise IndexError.

(** [t[:, :, :, c]] on a rank 4 tensor *)
Definition select4 (t : Tensor4) (c : nat) : M (list tensor) Tensor3 :=
  if c <? kdim3 t
  then ret {| dim0 := kdim0 t; dim1 := kdim1 t; dim2 := kdim2 t;
              at3 := fun i j l => at4 t i j l c |}
  else raise IndexError.

(** [t / x] for a Python number [x] *)
Definition div_scalar (t : Tensor2) (x : Z) : Tensor2 :=
  {| r2_dim0 := r2_dim0 t; r2_dim1 := r2_dim1 t;
     at2 := fun i j => fdiv (at2 t i j) (of_int x) |}.

(** [t.unsqueeze(2).expand(-1, -1, n)] *)
Definition unsqueeze_expand (t : Tensor2) (n : nat) : Tensor3 :=
  {| dim0 := r2_dim0 t; dim1 := r2_dim1 t; dim2 := n;
     at3 := fun i j _ => at2 t i j |}.

(** Broadcasting of one dimension: equal sizes, or one of them is 1. *)
Definition broadcast_dim (a b : nat) : option nat :=
  if a =? b then Some a
  else if a =? 1 then Some b
  else if b =? 1 then Some a
  else None.
(** The index read in a dimension of size [d] that is broadcast. *)
Definition bidx (d i : nat) : nat := if d =? 1 then 0 else i.

Definition broadcast3 (op : F → F → F) (a b : Tensor3) : M (list tensor) Tensor3 :=
  match broadcast_dim (dim0 a) (dim0 b),
        broadcast_dim (dim1 a) (dim1 b),
        broadcast_dim (dim2 a) (dim2 b) with
  | Some d0, Some d1, Some d2 =>
      ret {| dim0 := d0; dim1 := d1; dim2 := d2;
             at3 := fun i j l =>
               op (at3 a (bidx (dim0 a) i) (bidx (dim1 a) j) (bidx (dim2 a) l))
                  (at3 b (bidx (dim0 b) i) (bidx (dim1 b) j) (bidx (dim2 b) l)) |}
  | _, _, _ => raise RuntimeError
  end.
Definition mul := broadcast3 fmul.
Definition add := broadcast3 fadd.
Definition sub2 (a b : Tensor2) : Tensor2 :=
  {| r2_dim0 := r2_dim0 a; r2_dim1 := r2_dim1 a;
     at2 := fun i j => fsub (at2 a i j) (at2 b i j) |}.

(** A value of size [a] can be assigned to a dimension of size [d]. *)
Definition expands_to (a d : nat) : bool := (a =? d) || (a =? 1).

(** [r[:, :, c] -= r[:, :, c']]: both columns are views of the tensor at
    [r]; the difference is written back into column [c]. *)
Definition isub_col (r : ref) (c c' : nat) : M (list tensor) unit :=
  let* t := read3 r in
  let* lhs := select3 t c in
  let* rhs := select3 t c' in
  let v := sub2 lhs rhs in
  write r (T3 {| dim0 := dim0 t; dim1 := dim1 t; dim2 := dim2 t;
                 at3 := fun i j k => if k =? c then at2 v i j
                                     else at3 t i j k |}).

(** [r[:, :, :, c] = v] *)
Definition setitem4 (r : ref) (c : nat) (v : Tensor3) : M (list tensor) unit :=
  let* t := read4 r in
  if negb (c <? kdim3 t) then raise IndexError
  else if expands_to (dim0 v) (kdim0 t) && expands_to (dim1 v) (kdim1 t)
          && expands_to (dim2 v) (kdim2 t)
  then write r (T4 {| kdim0 := kdim0 t; kdim1 := kdim1 t; kdim2 := kdim2 t;
                      kdim3 := kdim3 t;
                      at4 := fun i j l k =>
                        if k =? c
                        then at3 v (bidx (dim0 v) i) (bidx (dim1 v) j)
                                   (bidx (dim2 v) l)
                        else at4 t i j l k |})
  else raise RuntimeError.

Record TopDownPredictor := { format_bbox : string }.

(** [TopDownPredictor.__init__]: [format_bbox] defaults to ["xyxy"]. *)
Definition __init__ (format_bbox : option string) : TopDownPredictor :=
  {| format_bbox := default "xyxy" format_bbox |}.

Definition _convert_bbox_to_coco (bboxes : ref) : M (list tensor) ref :=
  let* coco_bboxes := clone bboxes in
  isub_col coco_bboxes 2 0 >>
  isub_col coco_bboxes 3 1 >>
  ret coco_bboxes.

(** The returned dictionary has the single key ["poses"]; it is modelled
    as the list of its items. *)
Definition forward (self : TopDownPredictor) (bboxes keypoints_cropped : ref)
  : M (list tensor) (list (string * ref)) :=
  let* bboxes := (if negb (String.eqb (format_bbox self) "coco")
                  then _convert_bbox_to_coco bboxes
                  else ret bboxes) in
  let* kpts := read4 keypoints_cropped in
  let num_joints := kdim2 kpts in
  let* new_kpts := clone keypoints_cropped in
  let* b := read3 bboxes in
  let* x0 := select3 b 0 in
  let x_corners := unsqueeze_expand x0 num_joints in
  let* y0 := select3 b 1 in
  let y_corners := unsqueeze_expand y0 num_joints in
  let* w := select3 b 2 in
  let scales_x := unsqueeze_expand (div_scalar w 256%Z) num_joints in
  let* h := select3 b 3 in
  let scales_y := unsqueeze_expand (div_scalar h 256%Z) num_joints in
  let* k := read4 new_kpts in
  let* kx := select4 k 0 in
  let* sx := mul scales_x kx in
  let* vx := add sx x_corners in
  setitem4 new_kpts 0 vx >>
  let* k := read4 new_kpts in
  let* ky := select4 k 1 in
  let* sy := mul scales_y ky in
  let* vy := add sy y_corners in
  setitem4 new_kpts 1 vy >>
  ret [("poses", new_kpts)].

End Tensors.
End TopDown.

(** ** config/utils.py: configurations as values *)

Module Config.

(** *** Python strings

    A [str] is modelled by a [string] whose characters are the code points
    U+0000 to U+00FF. *)

Definition code (c : ascii) : nat := nat_of_ascii c.

(** The characters [str.strip()] removes: the white space of the range. *)
Definition is_space (c : ascii) : bool :=
  bool_decide (code c ∈ [9; 10; 11; 12; 13; 28; 29; 30; 31; 32; 133; 160]).

(** [c.isdecimal()]: the digits [0] to [9]. *)
Definition is_decimal (c : ascii) : bool :=
  (48 <=? code c) && (code c <=? 57).

(** [c.isdigit()]: the decimal digits and the superscripts one, two and
    three (U+00B9, U+00B2, U+00B3). *)
Definition is_digit (c : ascii) : bool :=
  is_decimal c || bool_decide (code c ∈ [178; 179; 185]).

Fixpoint lstrip (s : string) : string :=
  match s with
  | String c s' => if is_space c then lstrip s' else s
  | EmptyString => EmptyString
  end.

Definition rstrip (s : string) : string := String.rev (lstrip (String.rev s)).

(** [s.strip()] *)
Definition strip (s : string) : string := rstrip (lstrip s).

(** [s.split(" ")]: the pieces between single spaces, empty ones included;
    the result is never empty. *)
Fixpoint split (s : string) : list string :=
  match s with
  | EmptyString => [EmptyString]
  | String c s' =>
      if Ascii.eqb c " " then EmptyString :: split s'
      else match split s' with
           | w :: ws => String c w :: ws
           | [] => [String c EmptyString]
           end
  end.

Fixpoint forallb_string (p : ascii → bool) (s : string) : bool :=
  match s with
  | EmptyString => true
  | String c s' => p c && forallb_string p s'
  end.

(** [s.isdigit()]: at least one character and all of them digits. *)
Definition isdigit (s : string) : bool :=
  negb (String.eqb s "") && forallb_string is_digit s.

Fixpoint decimal_value (acc : Z) (s : string) : Z :=
  match s with
  | EmptyString => acc
  | String c s' => decimal_value (10 * acc + Z.of_nat (code c - 48))%Z s'
  end.

(** [sys.maxsize], the largest length of a sequence, on a 64-bit
    interpreter. *)
Definition maxsize : Z := 9223372036854775807.

(** [sys.get_int_max_str_digits()]: the largest number of digits of a
    decimal literal that [int] converts.  The code leaves it at the default
    of the interpreter. *)
Definition int_max_str_digits : Z := 4300.

(** The decimal text of a number, as a message shows it. *)
Fixpoint decimal_text_from (fuel : nat) (n : N) (acc : string) : string :=
  match fuel with
  | O => acc
  | S fuel =>
      let acc := String (ascii_of_N (48 + n mod 10)) acc in
      if (n / 10 =? 0)%N then acc else decimal_text_from fuel (n / 10)%N acc
  end.
Definition decimal_text (n : N) : string :=
  decimal_text_from (S (N.to_nat (N.log2 n))) n "".

(** The number of decimal digits a string begins with. *)
Fixpoint leading_decimals (s : string) : nat :=
  match s with
  | String c s' => if is_decimal c then S (leading_decimals s') else 0
  | EmptyString => 0
  end.

(** [int(s)] on a string for which [isdigit] holds.  The conversion reads
    the decimal digits the string begins with and refuses more of them than
    [int_max_str_digits]; a string that goes on after them, as with a
    superscript, which is a digit but no decimal one, is no literal.  The
    message shows the first 200 characters of [repr(s)]. *)
Definition int (s : string) : outcome Z :=
  let digits := Z.of_nat (leading_decimals s) in
  if (int_max_str_digits <? digits)%Z
  then Raise (ValueError
         ("Exceeds the limit (" +:+ decimal_text (Z.to_N int_max_str_digits) +:+
          " digits) for integer string conversion: value has " +:+
          decimal_text (Z.to_N digits) +:+
          " digits; use sys.set_int_max_str_digits() to increase the limit"))
  else if negb (String.eqb s "") && forallb_string is_decimal s
  then Ok (decimal_value 0 s)
  else Raise (ValueError ("invalid literal for int() with base 10: " +:+
                          substring 0 200 ("'" +:+ s +:+ "'"))).

(** *** Python values *)

Section Values.
(** Python floats and their arithmetic with an integer operand;
    [float_of_int] fails where Python raises [OverflowError]. *)
Context {float : Type}.
Variables (float_add float_mul : float → float → float)
          (float_of_int : Z → option float).
(** The number of items beyond which the interpreter has no memory for a
    sequence. *)
Variable memory : N.

(** The values a configuration read from YAML is made of.  A dictionary is
    the list of its items in insertion order, with string keys. *)
#[local] Unset Elimination Schemes.
Inductive value : Type :=
| VNone
| VBool (b : bool)
| VInt (n : Z)
| VFloat (x : float)
| VStr (s : string)
| VList (l : list value)
| VDict (d : list (string * value)).
#[local] Set Elimination Schemes.

(** [d.get(k)] *)
Fixpoint dict_get (d : list (string * value)) (k : string) : option value :=
  match d with
  | [] => None
  | (k', v) :: d' => if String.eqb k' k then Some v else dict_get d' k
  end.

(** [k in d] *)
Definition dict_mem (d : list (string * value)) (k : string) : bool :=
  match dict_get d k with Some _ => true | None => false end.

(** [d[k] = v]: the value of an existing key is replaced in place, a new key
    is added at the end. *)
Fixpoint dict_set (d : list (string * value)) (k : string) (v : value)
  : list (string * value) :=
  match d with
  | [] => [(k, v)]
  | (k', v') :: d' =>
      if String.eqb k' k then (k', v) :: d' else (k', v') :: dict_set d' k v
  end.

(** [type(v)] as it is printed in a message. *)
Definition type_name (v : value) : string :=
  match v with
  | VNone => "<class 'NoneType'>"
  | VBool _ => "<class 'bool'>"
  | VInt _ => "<class 'int'>"
  | VFloat _ => "<class 'float'>"
  | VStr _ => "<class 'str'>"
  | VList _ => "<class 'list'>"
  | VDict _ => "<class 'dict'>"
  end.

Fixpoint string_repeat (s : string) (n : nat) : string :=
  match n with
  | O => ""
  | S n' => s +:+ string_repeat s n'
  end.

Fixpoint list_repeat {A} (l : list A) (n : nat) : list A :=
  match n with
  | O => []
  | S n' => l ++ list_repeat l n'
  end.

(** [v + n] for an integer [n] *)
Definition py_add (v : value) (n : Z) : outcome value :=
  match v with
  | VInt a => Ok (VInt (a + n))
  | VBool b => Ok (VInt (Z.b2z b + n))
  | VFloat x =>
      match float_of_int n with
      | Some y => Ok (VFloat (float_add x y))
      | None => Raise OverflowError
      end
  | _ => Raise TypeError
  end.

(** [v * n] for an integer [n] that is not negative.  A sequence is
    repeated [n] times: [n] has to fit an index ([OverflowError] beyond
    [sys.maxsize]), and so has the length of the result, which is an
    [OverflowError] for a string and a [MemoryError] for a list; a result
    within these limits needs the memory for its items. *)
Definition py_mul (v : value) (n : Z) : outcome value :=
  match v with
  | VInt a => Ok (VInt (a * n))
  | VBool b => Ok (VInt (Z.b2z b * n))
  | VFloat x =>
      match float_of_int n with
      | Some y => Ok (VFloat (float_mul x y))
      | None => Raise OverflowError
      end
  | VStr s =>
      let size := (Z.of_nat (String.length s) * n)%Z in
      if (maxsize <? n)%Z then Raise OverflowError
      else if (maxsize <? size)%Z then Raise OverflowError
      else if (Z.of_N memory <? size)%Z then Raise MemoryError
      else Ok (VStr (string_repeat s (Z.to_nat n)))
  | VList l =>
      let size := (Z.of_nat (length l) * n)%Z in
      if (maxsize <? n)%Z then Raise OverflowError
      else if (maxsize <? size)%Z then Raise MemoryError
      else if (Z.of_N memory <? size)%Z then Raise MemoryError
      else Ok (VList (list_repeat l (Z.to_nat n)))
  | _ => Raise TypeError
  end.

(** [copy.deepcopy(v)]: a value equal to [v]. *)
Definition deepcopy (v : value) : value := v.

(** *** replace_default_values *)

(** [variable.strip().split(" ")] *)
Definition var_parts (variable : string) : list string :=
  split (strip variable).

(** [variable.strip().split(" ")[0]] *)
Definition var_name (variable : string) : string :=
  hd "" (var_parts variable).

(** The nested function [get_updated_value], with the dictionary
    [updated_values] of its closure as a parameter. *)
Definition get_updated_value (updated_values : list (string * value))
    (variable : string) : outcome value :=
  let var_parts := var_parts variable in
  let var_name := hd "" var_parts in
  match dict_get updated_values var_name with
  | None => Raise KeyError
  | Some VNone =>
      Raise (ValueError ("Found " +:+ variable +:+
        " in the configuration file, but there is no default value for this variable."))
  | Some v =>
      match var_parts with
      | [_] => Ok v
      | [_; operator; factor] =>
          if negb (isdigit factor)
          then Raise (ValueError ("F must be an integer in variable: " +:+ variable))
          else
            match int factor with
            | Raise e => Raise e
            | Ok factor =>
                if String.eqb operator "+" then py_add v factor
                else if String.eqb operator "x" then py_mul v factor
                else Raise (ValueError ("Unknown operator for variable: " +:+ variable))
            end
      | _ =>
          Raise (ValueError ("Found " +:+ variable +:+
            " in the configuration file, but cannot parse it."))
      end
  end.

(** The dictionary [updated_values]: the three base placeholders, then the
    keyword arguments. *)
Definition make_updated_values
    (num_bodyparts num_individuals backbone_output_channels : value)
    (kwargs : list (string * value)) : list (string * value) :=
  foldl (fun d kv => dict_set d kv.1 kv.2)
    [("num_bodyparts", num_bodyparts);
     ("num_individuals", num_individuals);
     ("backbone_output_channels", backbone_output_channels)]
    kwargs.

Definition on_ok {A B} (o : outcome A) (k : A → outcome B) : outcome B :=
  match o with Ok a => k a | Raise e => Raise e end.

(** A [for] loop that computes the new entries one after the other and stops
    at the first that raises. *)
Definition for_each {A B} (body : A → outcome B) : list A → outcome (list B) :=
  fix loop (items : list A) : outcome (list B) :=
    match items with
    | [] => Ok []
    | x :: rest =>
        on_ok (body x) (fun y => on_ok (loop rest) (fun rest' => Ok (y :: rest')))
    end.

(** [None] stands for a placeholder argument that is not given. *)
Fixpoint replace_default_values (config : value)
    (num_bodyparts num_individuals backbone_output_channels : value)
    (kwargs : list (string * value)) {struct config} : outcome value :=
  let updated_values :=
    make_updated_values num_bodyparts num_individuals
      backbone_output_channels kwargs in
  (* the new value of [config[k]], from its value [v] *)
  let entry (v : value) : outcome value :=
    match v with
    | VList _ | VDict _ =>
        replace_default_values v num_bodyparts num_individuals
          backbone_output_channels kwargs
    | VStr s =>
        if dict_mem updated_values (var_name s)
        then get_updated_value updated_values s
        else Ok v
    | _ => Ok v
    end in
  let config := deepcopy config in
  match config with
  | VDict d =>
      on_ok (for_each (fun kv => on_ok (entry kv.2) (fun v' => Ok (kv.1, v'))) d)
            (fun d' => Ok (VDict d'))
  | VList l =>
      on_ok (for_each entry l) (fun l' => Ok (VList l'))
  | _ =>
      Raise (ValueError ("Config to update must be dict or list, found " +:+
                         type_name config))
  end.

(** The body of the loop of [replace_default_values]: the new value of
    [config[k]] from its value [v]. *)
Definition replace_entry (v : value)
    (num_bodyparts num_individuals backbone_output_channels : value)
    (kwargs : list (string * value)) : outcome value :=
  let updated_values :=
    make_updated_values num_bodyparts num_individuals
      backbone_output_channels kwargs in
  match v with
  | VList _ | VDict _ =>
      replace_default_values v num_bodyparts num_individuals
        backbone_output_channels kwargs
  | VStr s =>
      if dict_mem updated_values (var_name s)
      then get_updated_value updated_values s
      else Ok v
  | _ => Ok v
  end.

End Values.
End Config.

(** ** config/utils.py: configurations as objects

    Dictionaries and lists are mutable objects that are passed by reference:
    what [copy.deepcopy] and the two functions do to the objects they are
    given is stated on a heap. *)

Module Heap.
Import Config.

(** The address of an object. *)
Abbreviation addr := nat.

Section Objects.
Context {float : Type}.
Variables (float_add float_mul : float → float → float)
          (float_of_int : Z → option float).
Variable memory : N.

(** A Python value: an immutable scalar or the address of an object. *)
Inductive hval : Type :=
| HNone
| HBool (b : bool)
| HInt (n : Z)
| HFloat (x : float)
| HStr (s : string)
| HRef (a : addr).

(** The objects: lists and dictionaries (the items in insertion order). *)
Inductive obj : Type :=
| OList (items : list hval)
| ODict (items : list (string * hval)).

(** The values an object holds. *)
Definition obj_values (o : obj) : list hval :=
  match o with
  | OList items => items
  | ODict items => items.*2
  end.

(** The heap: the object at an address is found at the position of the
    address; a new object is put at the end. *)
Definition read (a : addr) : M (list obj) obj :=
  fun h => match h !! a with
           | Some o => (Ok o, h)
           | None => (Raise RuntimeError, h)
           end.
Definition write (a : addr) (o : obj) : M (list obj) unit :=
  fun h => (Ok tt, <[a := o]> h).
Definition alloc (o : obj) : M (list obj) addr :=
  fun h => (Ok (length h), h ++ [o]).

Fixpoint hdict_get (d : list (string * hval)) (k : string) : option hval :=
  match d with
  | [] => None
  | (k', v) :: d' => if String.eqb k' k then Some v else hdict_get d' k
  end.

Fixpoint hdict_set (d : list (string * hval)) (k : string) (v : hval)
  : list (string * hval) :=
  match d with
  | [] => [(k, v)]
  | (k', v') :: d' =>
      if String.eqb k' k then (k', v) :: d' else (k', v') :: hdict_set d' k v
  end.

(** [isinstance(v, dict)] and [isinstance(v, list)] *)
Definition is_dict (v : hval) : M (list obj) bool :=
  match v with
  | HRef a => let* o := read a in
              ret (match o with ODict _ => true | OList _ => false end)
  | _ => ret false
  end.
Definition is_list (v : hval) : M (list obj) bool :=
  match v with
  | HRef a => let* o := read a in
              ret (match o with OList _ => true | ODict _ => false end)
  | _ => ret false
  end.

(** The items of the dictionary at [a]; a list has no items. *)
Definition dict_items (a : addr) : M (list obj) (list (string * hval)) :=
  let* o := read a in
  match o with
  | ODict items => ret items
  | OList _ => raise TypeError
  end.
Definition list_items (a : addr) : M (list obj) (list hval) :=
  let* o := read a in
  match o with
  | OList items => ret items
  | ODict _ => raise TypeError
  end.

(** [d[k] = v] on the dictionary at [a] *)
Definition dict_setitem (a : addr) (k : string) (v : hval) : M (list obj) unit :=
  let* items := dict_items a in
  write a (ODict (hdict_set items k v)).

(** [l[i] = v] on the list at [a] *)
Definition list_setitem (a : addr) (i : nat) (v : hval) : M (list obj) unit :=
  let* items := list_items a in
  if i <? length items then write a (OList (<[i := v]> items))
  else raise IndexError.

(** [l.append(v)] on the list at [a] *)
Definition list_append (a : addr) (v : hval) : M (list obj) unit :=
  let* items := list_items a in
  write a (OList (items ++ [v])).

(** *** copy.deepcopy

    [memo] maps the address of an object to the address of its copy, so that
    an object reached twice is copied once.  [fuel] is the depth of recursion
    that is left; [RecursionError] is raised when there is none. *)
Fixpoint memo_get (memo : list (addr * addr)) (a : addr) : option addr :=
  match memo with
  | [] => None
  | (a', y) :: memo' => if a' =? a then Some y else memo_get memo' a
  end.

(** A loop that hands the memo from one run of the body to the next. *)
Definition for_memo {A} (body : A → list (addr * addr) → M (list obj) (list (addr * addr)))
  : list A → list (addr * addr) → M (list obj) (list (addr * addr)) :=
  fix loop (items : list A) (memo : list (addr * addr)) :=
    match items with
    | [] => ret memo
    | x :: rest => let* memo := body x memo in loop rest memo
    end.

Fixpoint deepcopy_memo (fuel : nat) (x : hval) (memo : list (addr * addr))
  : M (list obj) (hval * list (addr * addr)) :=
  match x with
  | HRef a =>
      match memo_get memo a with
      | Some y => ret (HRef y, memo)
      | None =>
          match fuel with
          | O => raise RecursionError
          | S fuel =>
              let* o := read a in
              match o with
              | OList items =>
                  let* y := alloc (OList []) in
                  let memo := (a, y) :: memo in
                  let* memo :=
                    for_memo (fun item memo =>
                      let* r := deepcopy_memo fuel item memo in
                      list_append y r.1 >>
                      ret r.2) items memo in
                  ret (HRef y, memo)
              | ODict items =>
                  let* y := alloc (ODict []) in
                  let memo := (a, y) :: memo in
                  let* memo :=
                    for_memo (fun kv memo =>
                      let* r := deepcopy_memo fuel kv.2 memo in
                      dict_setitem y kv.1 r.1 >>
                      ret r.2) items memo in
                  ret (HRef y, memo)
              end
          end
      end
  | _ => ret (x, memo)
  end.

(** [copy.deepcopy(x)] *)
Definition deepcopy (fuel : nat) (x : hval) : M (list obj) hval :=
  let* r := deepcopy_memo fuel x [] in
  ret r.1.

(** *** update_config *)

(** The loop [for k, v in updates.items()]: the item at each position is read
    when the loop gets there.  Each time the loop asks for the next item,
    after the last one too, it fails when the dictionary has changed
    size. *)
Definition for_items (u : addr) (body : string → hval → M (list obj) unit)
  : M (list obj) unit :=
  let* items := dict_items u in
  let n := length items in
  for_loop (fun i =>
    let* items := dict_items u in
    if negb (length items =? n) then raise RuntimeError
    else match items !! i with
         | Some (k, v) => body k v
         | None => raise RuntimeError
         end) (seq 0 n) >>
  let* items := dict_items u in
  if negb (length items =? n) then raise RuntimeError else ret tt.

(** [config] and [updates] are dictionaries by their type; on another value
    the model raises [TypeError]. *)
Fixpoint update_config (fuel : nat) (config updates : hval)
    (copy_original : bool) : M (list obj) hval :=
  match fuel with
  | O => raise RecursionError
  | S fuel =>
      let* config := (if copy_original then deepcopy fuel config
                      else ret config) in
      match config, updates with
      | HRef c, HRef u =>
          for_items u (fun k v =>
            let* items := dict_items c in
            let* both :=
              match hdict_get items k with
              | Some ck =>
                  let* config_k_is_dict := is_dict ck in
                  let* v_is_dict := is_dict v in
                  ret (if config_k_is_dict && v_is_dict then Some ck else None)
              | None => ret None
              end in
            match both with
            | Some ck =>
                let* r := update_config fuel ck v false in
                dict_setitem c k r
            | None =>
                let* r := deepcopy fuel v in
                dict_setitem c k r
            end) >>
          ret config
      | _, _ => raise TypeError
      end
  end.

(** *** replace_default_values *)

Fixpoint hlist_repeat {A} (l : list A) (n : nat) : list A :=
  match n with
  | O => []
  | S n' => l ++ hlist_repeat l n'
  end.

(** [v + n] for an integer [n] *)
Definition py_add (v : hval) (n : Z) : M (list obj) hval :=
  match v with
  | HInt a => ret (HInt (a + n))
  | HBool b => ret (HInt (Z.b2z b + n))
  | HFloat x =>
      match float_of_int n with
      | Some y => ret (HFloat (float_add x y))
      | None => raise OverflowError
      end
  | _ => raise TypeError
  end.

(** [v * n] for an integer [n] that is not negative: the product of a list
    is a new list that holds the items of the list [n] times.  The limits
    are those of [Config.py_mul]. *)
Definition py_mul (v : hval) (n : Z) : M (list obj) hval :=
  match v with
  | HInt a => ret (HInt (a * n))
  | HBool b => ret (HInt (Z.b2z b * n))
  | HFloat x =>
      match float_of_int n with
      | Some y => ret (HFloat (float_mul x y))
      | None => raise OverflowError
      end
  | HStr s =>
      let size := (Z.of_nat (String.length s) * n)%Z in
      if (maxsize <? n)%Z then raise OverflowError
      else if (maxsize <? size)%Z then raise OverflowError
      else if (Z.of_N memory <? size)%Z then raise MemoryError
      else ret (HStr (string_repeat s (Z.to_nat n)))
  | HRef a =>
      let* o := read a in
      match o with
      | OList items =>
          let size := (Z.of_nat (length items) * n)%Z in
          if (maxsize <? n)%Z then raise OverflowError
          else if (maxsize <? size)%Z then raise MemoryError
          else if (Z.of_N memory <? size)%Z then raise MemoryError
          else
            let* y := alloc (OList (hlist_repeat items (Z.to_nat n))) in
            ret (HRef y)
      | ODict _ => raise TypeError
      end
  | HNone => raise TypeError
  end.

Definition get_updated_value (updated_values : list (string * hval))
    (variable : string) : M (list obj) hval :=
  let var_parts := var_parts variable in
  let var_name := hd "" var_parts in
  match hdict_get updated_values var_name with
  | None => raise KeyError
  | Some HNone =>
      raise (ValueError ("Found " +:+ variable +:+
        " in the configuration file, but there is no default value for this variable."))
  | Some v =>
      match var_parts with
      | [_] => ret v
      | [_; operator; factor] =>
          if negb (isdigit factor)
          then raise (ValueError ("F must be an integer in variable: " +:+ variable))
          else
            match int factor with
            | Raise e => raise e
            | Ok factor =>
                if String.eqb operator "+" then py_add v factor
                else if String.eqb operator "x" then py_mul v factor
                else raise (ValueError ("Unknown operator for variable: " +:+ variable))
            end
      | _ =>
          raise (ValueError ("Found " +:+ variable +:+
            " in the configuration file, but cannot parse it."))
      end
  end.

Definition make_updated_values
    (num_bodyparts num_individuals backbone_output_channels : hval)
    (kwargs : list (string * hval)) : list (string * hval) :=
  foldl (fun d kv => hdict_set d kv.1 kv.2)
    [("num_bodyparts", num_bodyparts);
     ("num_individuals", num_individuals);
     ("backbone_output_channels", backbone_output_channels)]
    kwargs.

(** [type(v)] of a scalar, as it is printed in a message. *)
Definition type_name (v : hval) : string :=
  match v with
  | HNone => "<class 'NoneType'>"
  | HBool _ => "<class 'bool'>"
  | HInt _ => "<class 'int'>"
  | HFloat _ => "<class 'float'>"
  | HStr _ => "<class 'str'>"
  | HRef _ => "<class 'object'>"
  end.

Fixpoint replace_default_values (fuel : nat) (config : hval)
    (num_bodyparts num_individuals backbone_output_channels : hval)
    (kwargs : list (string * hval)) : M (list obj) hval :=
  match fuel with
  | O => raise RecursionError
  | S fuel =>
      let updated_values :=
        make_updated_values num_bodyparts num_individuals
          backbone_output_channels kwargs in
      (* the body of the loop, for the value [v] of [config[k]] and the
         assignment [config[k] = _] *)
      let body (v : hval) (setitem : hval → M (list obj) unit) : M (list obj) unit :=
        let* v_is_list := is_list v in
        let* v_is_dict := is_dict v in
        if v_is_list || v_is_dict then
          let* r := replace_default_values fuel v num_bodyparts
                      num_individuals backbone_output_channels kwargs in
          setitem r
        else
          match v with
          | HStr s =>
              if match hdict_get updated_values (var_name s) with
                 | Some _ => true | None => false end
              then let* r := get_updated_value updated_values s in setitem r
              else ret tt
          | _ => ret tt
          end in
      let* config := deepcopy fuel config in
      match config with
      | HRef c =>
          let* o := read c in
          match o with
          | ODict items =>
              let keys_to_update := items.*1 in
              for_loop (fun k =>
                let* items := dict_items c in
                match hdict_get items k with
                | Some v => body v (dict_setitem c k)
                | None => raise KeyError
                end) keys_to_update >>
              ret config
          | OList items =>
              let keys_to_update := seq 0 (length items) in
              for_loop (fun k =>
                let* items := list_items c in
                match items !! k with
                | Some v => body v (list_setitem c k)
                | None => raise IndexError
                end) keys_to_update >>
              ret config
          end
      | _ =>
          raise (ValueError ("Config to update must be dict or list, found " +:+
                             type_name config))
      end
  end.

End Objects.
End Heap.

(** ** apis/train.py: the signature of train_network and the entry point *)

Module Train.

(** The values that occur on the command line and in the signature. *)
Inductive py : Type :=
| PNone
| PStr (s : string)
| PInt (n : Z)
| PFloat (x : Q).

(** [parser.add_argument(option, type=.., default=..)] *)
Inductive arg_type : Type := TStr | TInt.
Record argument : Type :=
  { option_string : string; type : arg_type; default : py }.

(** The attribute of the namespace that holds the value of an option: the
    option without its two dashes, with [_] for [-]. *)
Fixpoint dashes_to_underscores (s : string) : string :=
  match s with
  | EmptyString => EmptyString
  | String c s' =>
      String (if Ascii.eqb c "-" then "_"%char else c) (dashes_to_underscores s')
  end.
Definition dest (a : argument) : string :=
  match option_string a with
  | String "-" (String "-" name) => dashes_to_underscores name
  | name => dashes_to_underscores name
  end.

(** The arguments the entry point adds to its parser, in the order of the
    calls of [add_argument]; an argument without [default] has the default
    [None]. *)
Definition parser_arguments : list argument :=
  [{| option_string := "--config-path"; type := TStr; default := PNone |};
   {| option_string := "--shuffle"; type := TInt; default := PInt 1 |};
   {| option_string := "--train-ind"; type := TInt; default := PInt 0 |};
   {| option_string := "--modelprefix"; type := TStr; default := PStr "" |}].

(** The namespace [parse_args] returns: its attributes and their values. *)
Definition namespace := list (string * py).

Fixpoint getattr (ns : list (string * py)) (name : string) : outcome py :=
  match ns with
  | [] => Raise AttributeError
  | (k, v) :: ns' => if String.eqb k name then Ok v else getattr ns' name
  end.

(** The parameters of [train_network] with their defaults, in the order of
    the signature; [config] has none.  The function also takes any other
    keyword argument. *)
Definition train_network_signature : list (string * option py) :=
  [("config", None);
   ("shuffle", Some (PInt 1));
   ("trainingsetindex", Some (PInt 0));
   ("modelprefix", Some (PStr ""));
   ("device", Some PNone);
   ("snapshot_path", Some PNone);
   ("detector_path", Some PNone);
   ("batch_size", Some PNone);
   ("epochs", Some PNone);
   ("save_epochs", Some PNone);
   ("display_iters", Some PNone);
   ("max_snapshots_to_keep", Some PNone);
   ("pose_threshold", Some (PFloat (1 # 10)))].

Fixpoint keyword (kwargs : list (string * py)) (name : string) : option py :=
  match kwargs with
  | [] => None
  | (k, v) :: kwargs' => if String.eqb k name then Some v else keyword kwargs' name
  end.

(** The binding of the parameters of a call with keyword arguments of a
    function with the given signature: the keyword argument where there is one, the
    default otherwise; a parameter without either is a [TypeError]. *)
Fixpoint bind_parameters (signature : list (string * option py))
    (kwargs : list (string * py)) : outcome (list (string * py)) :=
  match signature with
  | [] => Ok []
  | (name, default) :: signature' =>
      match match keyword kwargs name with
            | Some v => Some v
            | None => default
            end with
      | None => Raise TypeError
      | Some v =>
          match bind_parameters signature' kwargs with
          | Ok bound => Ok ((name, v) :: bound)
          | Raise e => Raise e
          end
      end
  end.

(** A call of [train_network]: the values its parameters are bound to. *)
Inductive call : Type :=
| train_network (parameters : list (string * py)).

Section EntryPoint.
(** [parser.parse_args()] of the standard library, on the arguments that
    were added and the words of the command line. *)
Variable parse_args : list argument → list string → outcome (list (string * py)).

(** The block under [if __name__ == "__main__"]. *)
Definition main (argv : list string) : outcome call :=
  match parse_args parser_arguments argv with
  | Raise e => Raise e
  | Ok args =>
      match getattr args "config_path", getattr args "shuffle",
            getattr args "train_ind", getattr args "modelprefix" with
      | Ok config, Ok shuffle, Ok train_ind, Ok modelprefix =>
          match bind_parameters train_network_signature
                  [("config", config); ("shuffle", shuffle);
                   ("trainingsetindex", train_ind);
                   ("modelprefix", modelprefix)] with
          | Ok parameters => Ok (train_network parameters)
          | Raise e => Raise e
          end
      | Raise e, _, _, _ | _, Raise e, _, _
      | _, _, Raise e, _ | _, _, _, Raise e => Raise e
      end
  end.
End EntryPoint.

End Train.

(** ** config/utils.py: pretty_print_config *)

Module Printing.
Import Config.

Section Print.
Context {float : Type}.
(** [str(v)], Python's text of a value. *)
Variable str : @value float → string.

(** [indent * ' '] *)
Definition spaces (indent : Z) : string := string_repeat " " (Z.to_nat indent).

(** [pretty_print_config(config, indent)]: the texts that the call hands to
    [print], one for each call of [print], in their order, and how it ends.
    On a value that is no dictionary [config.items()] raises before anything
    is printed; the call on a value [v] of the dictionary is made under
    [isinstance(v, dict)]. *)
Fixpoint pretty_print_config (config : @value float) (indent : Z)
  : list string * outcome unit :=
  match config with
  | VDict items =>
      (concat (map (fun kv =>
         let '(k, v) := (kv.1, kv.2) in
         match v with
         | VDict _ =>
             (spaces indent +:+ k +:+ ":")
               :: (pretty_print_config v (indent + 2)).1
         | _ => [spaces indent +:+ k +:+ ": " +:+ str v]
         end) items), Ok tt)
  | _ => ([], Raise AttributeError)
  end.

End Print.

End Printing.

(** ** apis/train.py: the overrides of the model configuration *)

Module Overrides.
Import Heap.

Section Settings.
Context {float : Type}.

(** [x[k]] for a string [k]: the value of a dictionary at the key, a
    [KeyError] when the dictionary has no such key; a list takes no string
    as an index and a scalar no subscript. *)
Definition getitem (x : @hval float) (k : string) : M (list (@obj float)) hval :=
  match x with
  | HRef a =>
      let* o := read a in
      match o with
      | ODict items =>
          match hdict_get items k with
          | Some v => ret v
          | None => raise KeyError
          end
      | OList _ => raise TypeError
      end
  | _ => raise TypeError
  end.

(** [x[k] = v] for a string [k]: the dictionary [x] is written. *)
Definition setitem (x : @hval float) (k : string) (v : @hval float)
  : M (list (@obj float)) unit :=
  match x with
  | HRef a => dict_setitem a k v
  | _ => raise TypeError
  end.

(** [if v is not None: ...] *)
Definition unless_none (v : @hval float) (m : M (list (@obj float)) unit)
  : M (list (@obj float)) unit :=
  match v with
  | HNone => ret tt
  | _ => m
  end.

(** The four overrides that [train_network] applies to [loader.model_cfg],
    one after the other. *)
Definition train_network_overrides
    (model_cfg batch_size epochs save_epochs display_iters : @hval float)
  : M (list (@obj float)) unit :=
  unless_none batch_size
    (let* train_settings := getitem model_cfg "train_settings" in
     setitem train_settings "batch_size" batch_size) >>
  unless_none epochs
    (let* train_settings := getitem model_cfg "train_settings" in
     setitem train_settings "epochs" epochs) >>
  unless_none save_epochs
    (let* runner := getitem model_cfg "runner" in
     let* snapshots := getitem runner "snapshots" in
     setitem snapshots "save_epochs" save_epochs) >>
  unless_none display_iters
    (let* train_settings := getitem model_cfg "train_settings" in
     setitem train_settings "display_iters" display_iters).

(** The value of the dictionary [x] at the key [k] in the heap [h], when
    [x] is a dictionary with this key. *)
Definition subscript (h : list (@obj float)) (x : @hval float) (k : string)
  : option (@hval float) :=
  match x with
  | HRef a =>
      match h !! a with
      | Some (ODict items) => hdict_get items k
      | _ => None
      end
  | _ => None
  end.

End Settings.
End Overrides.

(** ** Predicates used to state the results on configurations *)

Module ConfigSpec.
Import Config.

(** [isinstance(v, (list, dict))] *)
Definition is_container {float} (v : @value float) : bool :=
  match v with VList _ | VDict _ => true | _ => false end.

(** The string values of a configuration at any nesting depth, in the order
    in which [replace_default_values] visits them. *)
Fixpoint strings {float} (v : @value float) : list string :=
  match v with
  | VStr s => [s]
  | VList l => concat (map strings l)
  | VDict d => concat (map (fun kv => strings kv.2) d)
  | _ => []
  end.

(** A string refers to a placeholder when its first token is a key of
    [updated_values]. *)
Definition is_placeholder {float} (updated_values : list (string * @value float))
    (s : string) : bool :=
  dict_mem updated_values (var_name s).

(** A value that [replace_default_values] leaves as it is: no dictionary,
    no list, and no string that refers to a placeholder. *)
Definition is_plain {float} (updated_values : list (string * @value float))
    (v : @value float) : bool :=
  match v with
  | VList _ | VDict _ => false
  | VStr s => negb (is_placeholder updated_values s)
  | _ => true
  end.

Definition placeholder_strings {float}
    (updated_values : list (string * @value float)) (v : @value float)
  : list string :=
  filter (fun s => is_placeholder updated_values s = true) (strings v).

(** The first exception of a sequence of outcomes. *)
Fixpoint first_error {A} (l : list (outcome A)) : option exn :=
  match l with
  | [] => None
  | Ok _ :: l' => first_error l'
  | Raise e :: _ => Some e
  end.

(** A string of at least one decimal digit. *)
Definition is_decimal_string (s : string) : bool :=
  negb (String.eqb s "") && forallb_string is_decimal s.

(** A decimal string of a length that [int] converts. *)
Definition is_factor (s : string) : bool :=
  is_decimal_string s && (Z.of_nat (String.length s) <=? int_max_str_digits)%Z.

(** A placeholder expression is well formed: a name, or a name, one of the
    operators [+] and [x], and a factor. *)
Definition well_formed (s : string) : bool :=
  match var_parts s with
  | [_] => true
  | [_; op; factor] =>
      (String.eqb op "+" || String.eqb op "x") && is_factor factor
  | _ => false
  end.

Definition is_int {float} (v : @value float) : bool :=
  match v with VInt _ => true | _ => false end.

Definition is_int_or_none {float} (v : @value float) : bool :=
  match v with VInt _ | VNone => true | _ => false end.

(** Two configurations have the same keys and the same lengths at every
    nesting level. *)
#[local] Unset Elimination Schemes.
Inductive same_structure {float} : @value float → @value float → Prop :=
| same_leaf v v' :
    is_container v = false → is_container v' = false → same_structure v v'
| same_list l l' :
    Forall2 same_structure l l' → same_structure (VList l) (VList l')
| same_dict d d' :
    Forall2 (fun kv kv' => kv.1 = kv'.1 ∧ same_structure kv.2 kv'.2) d d' →
    same_structure (VDict d) (VDict d').
#[local] Set Elimination Schemes.

(** Every dictionary of a value has distinct keys, as the dictionaries of
    Python have. *)
#[local] Unset Elimination Schemes.
Inductive distinct_keys {float} : @value float → Prop :=
| distinct_scalar v : is_container v = false → distinct_keys v
| distinct_list l : Forall distinct_keys l → distinct_keys (VList l)
| distinct_dict d :
    NoDup d.*1 → Forall (fun kv => distinct_keys kv.2) d →
    distinct_keys (VDict d).
#[local] Set Elimination Schemes.

(** The merge of the dictionary [updates] into the dictionary [config], as
    a configuration: for the keys of [updates] in their order, a dictionary
    that meets a dictionary of [config] is merged into it, and every other
    value takes the place of the value of [config], or is added at the
    end. *)
Fixpoint merged {float} (config : list (string * @value float))
    (updates : @value float) {struct updates} : list (string * @value float) :=
  match updates with
  | VDict items =>
      foldl
        (fun config kv =>
           let '(k, v) := (kv.1, kv.2) in
           match dict_get config k, v with
           | Some (VDict ck), VDict _ => dict_set config k (VDict (merged ck v))
           | _, _ => dict_set config k v
           end)
        config items
  | _ => config
  end.

(** The depth of nesting of a value. *)
Fixpoint depth {float} (v : @value float) : nat :=
  match v with
  | VList l => S (foldr (fun v n => depth v `max` n) 0 l)
  | VDict d => S (foldr (fun kv n => depth kv.2 `max` n) 0 d)
  | _ => 0
  end.


End ConfigSpec.

(** ** Predicates used to state the results on objects *)

Module HeapSpec.
Import Heap.

(** Every object of [h] is still there, unchanged, in [h']. *)
Definition unchanged {float} (h h' : list (@obj float)) : Prop :=
  ∀ a, a < length h → h' !! a = h !! a.

(** The object at [a] is part of the structure of [v]: it is the object [v]
    refers to, or part of a value that this object holds. *)
Inductive reach {float} (h : list (@obj float)) : @hval float → addr → Prop :=
| reach_here a : reach h (HRef a) a
| reach_step a o v b :
    h !! a = Some o → v ∈ obj_values o → reach h v b → reach h (HRef a) b.

(** A reference to an object that did not exist in a heap of [n] objects. *)
Definition is_new {float} (n : nat) (v : @hval float) : Prop :=
  match v with HRef b => n ≤ b | _ => True end.

(** A value that a new object may hold: a scalar, a reference to a new
    object, or a reference to one of the objects [R] that may be shared. *)
Definition storable {float} (n : nat) (R : addr → Prop) (v : @hval float) : Prop :=
  match v with HRef b => n ≤ b ∨ R b | _ => True end.

(** The heap [h] comes from [h0] by steps that leave the objects of [h0] as
    they are and put only storable values into the new objects. *)
Definition extends {float} (h0 : list (@obj float)) (R : addr → Prop)
    (h : list (@obj float)) : Prop :=
  length h0 ≤ length h ∧
  unchanged h0 h ∧
  ∀ a o, length h0 ≤ a → h !! a = Some o →
         Forall (storable (length h0) R) (obj_values o).

(** Whatever its outcome, a computation started in a heap that extends [h0]
    leaves a heap that extends [h0]; what it returns satisfies [Q]. *)
Definition safe {float A} (h0 : list (@obj float)) (R : addr → Prop)
    (Q : A → Prop) (m : M (list (@obj float)) A) : Prop :=
  ∀ h out h', extends h0 R h → m h = (out, h') →
    extends h0 R h' ∧ ∀ r, out = Ok r → Q r.

(** The configuration that a value stands for in a heap, as far as [fuel]
    levels of nesting. *)
Fixpoint reify {float} (fuel : nat) (h : list (@obj float)) (v : @hval float)
  : option (@Config.value float) :=
  match v with
  | HNone => Some Config.VNone
  | HBool b => Some (Config.VBool b)
  | HInt n => Some (Config.VInt n)
  | HFloat x => Some (Config.VFloat x)
  | HStr s => Some (Config.VStr s)
  | HRef a =>
      match fuel with
      | O => None
      | S fuel =>
          match h !! a with
          | Some (OList items) =>
              Config.VList <$> mapM (reify fuel h) items
          | Some (ODict items) =>
              Config.VDict <$>
                mapM (fun kv => (fun v' => (kv.1, v')) <$> reify fuel h kv.2) items
          | None => None
          end
      end
  end.

(** Every copy that the memo of [deepcopy] knows is a new object. *)
Definition memo_new (n : nat) (memo : list (addr * addr)) : Prop :=
  Forall (fun p => n ≤ p.2) memo.

(** The shared objects are closed under the parts of their values. *)
Definition closed {float} (h0 : list (@obj float)) (R : addr → Prop) : Prop :=
  ∀ a o v b, R a → h0 !! a = Some o → v ∈ obj_values o → v = HRef b → R b.

(** [v] stands in [h] for the configuration [x]; the objects that make it
    up are those at [D], and none of them is met twice: no object is shared.
    The keys of a dictionary are distinct. *)
#[local] Unset Elimination Schemes.
Inductive tree {float} (h : list (@obj float))
  : @hval float → @Config.value float → list addr → Prop :=
| tree_none : tree h HNone Config.VNone []
| tree_bool b : tree h (HBool b) (Config.VBool b) []
| tree_int n : tree h (HInt n) (Config.VInt n) []
| tree_float x : tree h (HFloat x) (Config.VFloat x) []
| tree_str s : tree h (HStr s) (Config.VStr s) []
| tree_list a items l Ds :
    h !! a = Some (OList items) →
    Forall3 (tree h) items l Ds →
    NoDup (a :: concat Ds) →
    tree h (HRef a) (Config.VList l) (a :: concat Ds)
| tree_dict a items d Ds :
    h !! a = Some (ODict items) →
    NoDup items.*1 →
    Forall3 (fun kv kx D => kv.1 = kx.1 ∧ tree h kv.2 kx.2 D) items d Ds →
    NoDup (a :: concat Ds) →
    tree h (HRef a) (Config.VDict d) (a :: concat Ds).
#[local] Set Elimination Schemes.

(** The objects of [h] are still there in [h'], and those that are not at
    [W] are unchanged. *)
Definition unchanged_except {float} (W : list addr) (h h' : list (@obj float))
  : Prop :=
  length h ≤ length h' ∧ ∀ a, a < length h → a ∉ W → h' !! a = h !! a.

(** What one override [target[k] = v] of [train_network] does to the heap:
    the key [k] of the dictionary [target] is written, and nothing when
    there is no [target]. *)
Definition override_effect {float} (h h' : list (@obj float))
    (target : option (@hval float)) (k : string) (v : @hval float) : Prop :=
  length h' = length h ∧
  (∀ a, target ≠ Some (HRef a) → h' !! a = h !! a) ∧
  (∀ x k', (target = Some x → k' ≠ k) → Overrides.subscript h' x k' = Overrides.subscript h x k') ∧
  (∀ x, target = Some x → Overrides.subscript h' x k = Some v).

End HeapSpec.

(** ** Predicates used to state the results on the predictor *)

Module TopDownSpec.
Import TopDown.

(** Every cell of [s] is still there, unchanged, in [s']. *)
Definition preserved {F} (s s' : list (@tensor F)) : Prop :=
  ∀ a, a < length s → s' !! a = s !! a.

(** [c] is the coco form [(x, y, w, h)] of the box tensor [t] given as
    [(x1, y1, x2, y2)]. *)
Definition coco_of {F} (fsub : F → F → F) (t c : @Tensor3 F) : Prop :=
  dim0 c = dim0 t ∧ dim1 c = dim1 t ∧ dim2 c = dim2 t ∧
  ∀ i j,
    at3 c i j 0 = at3 t i j 0 ∧
    at3 c i j 1 = at3 t i j 1 ∧
    at3 c i j 2 = fsub (at3 t i j 2) (at3 t i j 0) ∧
    at3 c i j 3 = fsub (at3 t i j 3) (at3 t i j 1) ∧
    ∀ k, 4 ≤ k → at3 c i j k = at3 t i j k.

(** [p] holds the keypoints [k] of the crops mapped back into the image by
    the coco boxes [b]. *)
Definition remapped {F} (fadd fmul fdiv : F → F → F) (of_int : Z → F)
    (b : @Tensor3 F) (k p : @Tensor4 F) : Prop :=
  ∀ i j l, i < kdim0 k → j < kdim1 k → l < kdim2 k →
    at4 p i j l 0 =
      fadd (fmul (fdiv (at3 b i j 2) (of_int 256%Z)) (at4 k i j l 0))
           (at3 b i j 0) ∧
    at4 p i j l 1 =
      fadd (fmul (fdiv (at3 b i j 3) (of_int 256%Z)) (at4 k i j l 1))
           (at3 b i j 1).

Definition same_shape {F} (k p : @Tensor4 F) : Prop :=
  kdim0 p = kdim0 k ∧ kdim1 p = kdim1 k ∧ kdim2 p = kdim2 k ∧
  kdim3 p = kdim3 k.

(** Every component other than the two coordinates is the one of [k]. *)
Definition rest_unchanged {F} (k p : @Tensor4 F) : Prop :=
  ∀ i j l c, 2 ≤ c → at4 p i j l c = at4 k i j l c.

(** The documented shapes: boxes [(B, N, 4)], keypoints [(B, N, J, 3)]. *)
Definition documented_shapes {F} (b : @Tensor3 F) (k : @Tensor4 F) : Prop :=
  dim0 b = kdim0 k ∧ dim1 b = kdim1 k ∧ dim2 b = 4 ∧ kdim3 k = 3.

End TopDownSpec.

(** ** Concrete tensors used in the examples *)

Module TopDownExamples.
Import TopDown.

(** One box [(10, 20, 110, 220)] and the two joints [(128, 64, 9/10)],
    [(0, 256, 1/2)] of its crop, over the rationals. *)
Definition boxes : @Tensor3 Q :=
  {| dim0 := 1; dim1 := 1; dim2 := 4;
     at3 := fun _ _ c => nth c [10; 20; 110; 220]%Q 0%Q |}.
Definition crops : @Tensor4 Q :=
  {| kdim0 := 1; kdim1 := 1; kdim2 := 2; kdim3 := 3;
     at4 := fun _ _ l c =>
       nth c (nth l [[128; 64; 9 # 10]; [0; 256; 1 # 2]]%Q []) 0%Q |}.
Definition store0 : list (@tensor Q) := [T3 boxes; T4 crops].
Definition xyxy : TopDownPredictor := __init__ None.
Definition coco : TopDownPredictor := __init__ (Some "coco").

(** The entries [(i, j, l, c)] of the tensor at [r], as nested lists. *)
Definition entries4 (s : list (@tensor Q)) (r : ref) : list (list (list (list Q))) :=
  match s !! r with
  | Some (T4 t) =>
      map (fun i => map (fun j => map (fun l => map (fun c =>
        Qred (at4 t i j l c)) (seq 0 (kdim3 t))) (seq 0 (kdim2 t)))
        (seq 0 (kdim1 t))) (seq 0 (kdim0 t))
  | _ => []
  end.

(** Boxes with three columns, and keypoints with the one component [x]. *)
Definition narrow_boxes : @Tensor3 Q :=
  {| dim0 := 1; dim1 := 1; dim2 := 3;
     at3 := fun _ _ c => nth c [10; 20; 110]%Q 0%Q |}.
Definition flat_crops : @Tensor4 Q :=
  {| kdim0 := 1; kdim1 := 1; kdim2 := 2; kdim3 := 1;
     at4 := fun _ _ l _ => nth l [128; 0]%Q 0%Q |}.

(** A batch of two boxes, and a batch of two crops. *)
Definition two_boxes : @Tensor3 Q :=
  {| dim0 := 2; dim1 := 1; dim2 := 4;
     at3 := fun i _ c =>
       nth c (nth i [[10; 20; 110; 220]; [0; 0; 256; 256]]%Q []) 0%Q |}.
Definition two_crops : @Tensor4 Q :=
  {| kdim0 := 2; kdim1 := 1; kdim2 := 2; kdim3 := 3;
     at4 := fun i _ l c =>
       nth c (nth l (nth i [[[128; 64; 9 # 10]; [0; 256; 1 # 2]];
                            [[256; 0; 1]; [64; 64; 1 # 4]]]%Q []) []) 0%Q |}.

End TopDownExamples.

(** ** Concrete configurations used in the examples *)

Module ConfigExamples.
Import Config.

(** Python floats are stood for by rationals in the examples. *)
Definition float_of_int (n : Z) : option Q := Some (inject_Z n).
(** There is memory for sequences of a million items. *)
Definition memory : N := 1000000.
Definition rdv := @replace_default_values Q Qplus Qmult float_of_int memory.
Definition guv := @get_updated_value Q Qplus Qmult float_of_int memory.

(** A model configuration with placeholders at several depths. *)
Definition model_cfg : @value Q :=
  VDict [("method", VStr "bu");
         ("model",
          VDict [("backbone", VDict [("type", VStr "ResNet");
                                     ("lr", VFloat (1 # 1000))]);
                 ("heads",
                  VList [VDict [("channels", VStr "num_bodyparts x 2")];
                         VDict [("channels", VStr " num_bodyparts + 1 ")]]);
                 ("in_channels", VStr "backbone_output_channels")]);
         ("individuals", VStr "num_individuals")].

Definition model_cfg_replaced : @value Q :=
  VDict [("method", VStr "bu");
         ("model",
          VDict [("backbone", VDict [("type", VStr "ResNet");
                                     ("lr", VFloat (1 # 1000))]);
                 ("heads",
                  VList [VDict [("channels", VInt 34)];
                         VDict [("channels", VInt 18)]]);
                 ("in_channels", VInt 2048)]);
         ("individuals", VInt 3)].

(** A well formed sum on a list-valued placeholder, followed by a reference
    to a placeholder that has no value. *)
Definition paf_graph : @value Q := VList [VList [VInt 0; VInt 1]].


Definition base_cfg : list (string * @value Q) :=
  [("device", VStr "auto");
   ("train_settings", VDict [("epochs", VInt 200); ("batch_size", VInt 8)]);
   ("runner", VStr "PoseRunner")].
Definition base_updates : list (string * @value Q) :=
  [("train_settings", VDict [("epochs", VInt 10); ("seed", VInt 42)]);
   ("runner", VDict [("type", VStr "PoseRunner")]);
   ("method", VStr "td")].

End ConfigExamples.

(** ** Concrete heaps used in the examples *)

Module HeapExamples.
Import Heap.

(** The configuration [base_cfg] of the examples at address 0 and the
    updates [base_updates] at address 2. *)
Definition base_heap : list (@obj Q) :=
  [ODict [("device", HStr "auto"); ("train_settings", HRef 1);
          ("runner", HStr "PoseRunner")];
   ODict [("epochs", HInt 200); ("batch_size", HInt 8)];
   ODict [("train_settings", HRef 3); ("runner", HRef 4);
          ("method", HStr "td")];
   ODict [("epochs", HInt 10); ("seed", HInt 42)];
   ODict [("type", HStr "PoseRunner")]].

(** A graph of limbs at address 0 and, at address 1, a configuration that
    holds the graph and refers to the placeholder [paf_graph]. *)
Definition graph_heap : list (@obj Q) :=
  [OList [HInt 0; HInt 1];
   ODict [("graph", HRef 0); ("edges", HStr "paf_graph");
          ("channels", HStr "num_bodyparts x 2")]].

(** A configuration at address 0 in which the keys ["a"] and ["b"] hold the
    same dictionary (the object at address 1), and updates at address 2. *)
Definition shared_heap : list (@obj Q) :=
  [ODict [("a", HRef 1); ("b", HRef 1)];
   ODict [("k", HInt 0)];
   ODict [("a", HRef 3)];
   ODict [("k", HInt 1)]].
(** A configuration at address 0 with the sections that [train_network]
    overrides; a configuration at address 4 whose [runner] has no
    [snapshots]; and a configuration at address 7 in which the dictionary
    at address 8 is both [train_settings] and the [snapshots] of the
    runner. *)
Definition run_heap : list (@obj Q) :=
  [ODict [("train_settings", HRef 1); ("runner", HRef 2);
          ("device", HStr "auto")];
   ODict [("batch_size", HInt 8); ("epochs", HInt 200);
          ("display_iters", HInt 500)];
   ODict [("type", HStr "PoseTrainingRunner"); ("snapshots", HRef 3)];
   ODict [("max_snapshots", HInt 5); ("save_epochs", HInt 25)];
   ODict [("train_settings", HRef 5); ("runner", HRef 6)];
   ODict [("batch_size", HInt 8); ("epochs", HInt 200)];
   ODict [("type", HStr "PoseTrainingRunner")];
   ODict [("train_settings", HRef 8); ("runner", HRef 9)];
   ODict [("epochs", HInt 200)];
   ODict [("snapshots", HRef 8)]].

Definition update_config := @Heap.update_config Q.
Definition replace_default_values :=
  @Heap.replace_default_values Q Qplus Qmult ConfigExamples.float_of_int
    ConfigExamples.memory.

End HeapExamples.

(** ** A command-line parser used in the examples *)

Module TrainExamples.
Import Train.

(** The conversion of a word by the [type] of its option. *)
Definition convert (t : arg_type) (word : string) : outcome py :=
  match t with
  | TStr => Ok (PStr word)
  | TInt =>
      if ConfigSpec.is_decimal_string word
      then Ok (PInt (Config.decimal_value 0 word))
      else Raise SystemExit
  end.

Fixpoint setattr (ns : list (string * py)) (name : string) (v : py)
  : list (string * py) :=
  match ns with
  | [] => [(name, v)]
  | (k, v') :: ns' =>
      if String.eqb k name then (k, v) :: ns' else (k, v') :: setattr ns' name v
  end.

Fixpoint parse_words (arguments : list argument) (ns : list (string * py))
    (argv : list string) : outcome (list (string * py)) :=
  match argv with
  | [] => Ok ns
  | [_] => Raise SystemExit
  | option :: word :: rest =>
      match find (fun a => String.eqb (option_string a) option) arguments with
      | None => Raise SystemExit
      | Some a =>
          match convert (type a) word with
          | Ok v => parse_words arguments (setattr ns (dest a) v) rest
          | Raise e => Raise e
          end
      end
  end.

(** A parser that accepts the exact option strings, each followed by its
    value: the namespace starts from the defaults. *)
Definition parse_args (arguments : list argument) (argv : list string)
  : outcome (list (string * py)) :=
  parse_words arguments (map (fun a => (dest a, default a)) arguments) argv.

End TrainExamples.

(** * Theorems *)

(** ** Computations on a store *)

Lemma bind_ok {S A B} (m : M S A) (k : A → M S B) (s s1 : S) a :
  m s = (Ok a, s1) → bind m k s = k a s1.
Proof. intros H. unfold bind. by rewrite H. Qed.

Lemma bind_inv {S A B} (m : M S A) (k : A → M S B) (s s' : S) out :
  bind m k s = (out, s') →
  (∃ e, m s = (Raise e, s') ∧ out = Raise e) ∨
  (∃ a s1, m s = (Ok a, s1) ∧ k a s1 = (out, s')).
Proof.
  unfold bind. destruct (m s) as [[a|e] s1]; intros H.
  - right. eauto.
  - left. exists e. by simplify_eq.
Qed.


(** ** The top-down predictor *)

Section TopDownFacts.
Context {F : Type}.
Variables (fadd fsub fmul fdiv : F → F → F) (of_int : Z → F).

Import TopDown TopDownSpec.

Local Abbreviation convert := (_convert_bbox_to_coco fsub).
Local Abbreviation forward := (TopDown.forward fadd fsub fmul fdiv of_int).
Local Abbreviation store := (list (@tensor F)).

Lemma read3_inv r (s s' : store) out :
  read3 r s = (out, s') →
  s' = s ∧ ∀ t, out = Ok t → s !! r = Some (T3 t).
Proof.
  unfold read3. intros H.
  destruct (s !! r) as [[t|t]|]; simplify_eq; split; try done;
    intros; by simplify_eq.
Qed.

Lemma read4_inv r (s s' : store) out :
  read4 r s = (out, s') →
  s' = s ∧ ∀ t, out = Ok t → s !! r = Some (T4 t).
Proof.
  unfold read4. intros H.
  destruct (s !! r) as [[t|t]|]; simplify_eq; split; try done;
    intros; by simplify_eq.
Qed.

Lemma select3_inv t c (s s' : store) out :
  select3 t c s = (out, s') →
  s' = s ∧ ∀ v, out = Ok v →
    c < dim2 t ∧ v = {| r2_dim0 := dim0 t; r2_dim1 := dim1 t;
                        at2 := fun i j => at3 t i j c |}.
Proof.
  unfold select3. intros Hrun.
  destruct (Nat.ltb_spec c (dim2 t)); unfold ret, raise in Hrun; simplify_eq; split; try done;
    intros; by simplify_eq.
Qed.

Lemma select4_inv t c (s s' : store) out :
  select4 t c s = (out, s') →
  s' = s ∧ ∀ v, out = Ok v →
    c < kdim3 t ∧ v = {| dim0 := kdim0 t; dim1 := kdim1 t; dim2 := kdim2 t;
                         at3 := fun i j l => at4 t i j l c |}.
Proof.
  unfold select4. intros Hrun.
  destruct (Nat.ltb_spec c (kdim3 t)); unfold ret, raise in Hrun; simplify_eq; split; try done;
    intros; by simplify_eq.
Qed.

Lemma broadcast3_inv op a b (s s' : store) out :
  broadcast3 op a b s = (out, s') → s' = s.
Proof.
  unfold broadcast3. intros H.
  repeat case_match; unfold ret, raise in H; by simplify_eq.
Qed.

(** What an in-place column subtraction does to the store. *)
Lemma isub_col_inv r c c' (s s' : store) out :
  isub_col fsub r c c' s = (out, s') →
  (∃ e, out = Raise e ∧ s' = s) ∨
  ∃ t, s !! r = Some (T3 t) ∧ c < dim2 t ∧ c' < dim2 t ∧ out = Ok tt ∧
       s' = <[r := T3 {| dim0 := dim0 t; dim1 := dim1 t; dim2 := dim2 t;
                         at3 := fun i j k =>
                           if k =? c then fsub (at3 t i j c) (at3 t i j c')
                           else at3 t i j k |}]> s.
Proof.
  unfold isub_col. intros H.
  apply bind_inv in H as [(e & H & ->)|(t & s1 & H1 & H)];
    [apply read3_inv in H as [-> _]; left; by exists e|].
  apply read3_inv in H1 as [-> Ht]. specialize (Ht _ eq_refl).
  apply bind_inv in H as [(e & H & ->)|(lhs & s1 & H1 & H)];
    [apply select3_inv in H as [-> _]; left; by exists e|].
  apply select3_inv in H1 as [-> Hl]. destruct (Hl _ eq_refl) as [Hc ->].
  apply bind_inv in H as [(e & H & ->)|(rhs & s1 & H1 & H)];
    [apply select3_inv in H as [-> _]; left; by exists e|].
  apply select3_inv in H1 as [-> Hr]. destruct (Hr _ eq_refl) as [Hc' ->].
  unfold write in H. simplify_eq. right. exists t. done.
Qed.

Lemma clone_inv r (s s' : store) out :
  clone r s = (out, s') →
  (∃ e, out = Raise e ∧ s' = s) ∨ ∃ t, s !! r = Some t ∧ out = Ok (length s) ∧ s' = s ++ [t].
Proof.
  unfold clone, alloc. intros H. destruct (s !! r) as [t|]; simplify_eq.
  - right. by exists t.
  - left. by eexists.
Qed.

Lemma setitem4_inv r c v (s s' : store) out :
  setitem4 r c v s = (out, s') →
  (∃ e, out = Raise e ∧ s' = s) ∨
  ∃ t, s !! r = Some (T4 t) ∧ c < kdim3 t ∧ out = Ok tt ∧
       s' = <[r := T4 {| kdim0 := kdim0 t; kdim1 := kdim1 t;
                         kdim2 := kdim2 t; kdim3 := kdim3 t;
                         at4 := fun i j l k =>
                           if k =? c
                           then at3 v (bidx (dim0 v) i) (bidx (dim1 v) j)
                                      (bidx (dim2 v) l)
                           else at4 t i j l k |}]> s.
Proof.
  unfold setitem4. intros H.
  apply bind_inv in H as [(e & H & ->)|(t & s1 & H1 & H)];
    [apply read4_inv in H as [-> _]; left; by exists e|].
  apply read4_inv in H1 as [-> Ht]. specialize (Ht _ eq_refl).
  destruct (Nat.ltb_spec c (kdim3 t)); simpl in H;
    [|unfold raise in H; simplify_eq; left; by eexists].
  destruct (_ && _); unfold write, raise in H; simplify_eq;
    [|left; by eexists].
  right. by exists t.
Qed.

Lemma preserved_refl (s : store) : preserved s s.
Proof. by intros a _. Qed.

Lemma preserved_trans (s1 s2 s3 : store) :
  length s1 ≤ length s2 → preserved s1 s2 → preserved s2 s3 → preserved s1 s3.
Proof.
  intros Hlen H12 H23 a Ha. rewrite H23 by lia. by apply H12.
Qed.

Lemma preserved_app (s l : store) : preserved s (s ++ l).
Proof. intros a Ha. by apply lookup_app_l. Qed.

Lemma preserved_insert_new (s0 s : store) r t :
  length s0 ≤ r → preserved s0 s → preserved s0 (<[r := t]> s).
Proof.
  intros Hr H a Ha. rewrite list_lookup_insert_ne by lia. by apply H.
Qed.

Lemma lookup_snoc (s : store) t : (s ++ [t]) !! length s = Some t.
Proof. by rewrite lookup_app_r, Nat.sub_diag by lia. Qed.

Lemma insert_snoc (s : store) t t' : <[length s := t']> (s ++ [t]) = s ++ [t'].
Proof. by rewrite insert_app_r_alt, Nat.sub_diag by lia. Qed.

Lemma bidx_lt d i : i < d → bidx d i = i.
Proof. unfold bidx. intros H. destruct (Nat.eqb_spec d 1); [lia|done]. Qed.

Lemma broadcast_dim_same d : broadcast_dim d d = Some d.
Proof. unfold broadcast_dim. by rewrite Nat.eqb_refl. Qed.

Lemma expands_to_same d : expands_to d d = true.
Proof. unfold expands_to. by rewrite Nat.eqb_refl. Qed.

Lemma read3_run (s : store) r t : s !! r = Some (T3 t) → read3 r s = (Ok t, s).
Proof. intros H. unfold read3. by rewrite H. Qed.

Lemma read4_run (s : store) r t : s !! r = Some (T4 t) → read4 r s = (Ok t, s).
Proof. intros H. unfold read4. by rewrite H. Qed.

Lemma clone_run (s : store) r t :
  s !! r = Some t → clone r s = (Ok (length s), s ++ [t]).
Proof. intros H. unfold clone, alloc. by rewrite H. Qed.

Lemma select3_run (s : store) t c :
  c < dim2 t →
  select3 t c s = (Ok {| r2_dim0 := dim0 t; r2_dim1 := dim1 t;
                         at2 := fun i j => at3 t i j c |}, s).
Proof. intros H. unfold select3. by destruct (Nat.ltb_spec c (dim2 t)); [|lia]. Qed.

Lemma select4_run (s : store) t c :
  c < kdim3 t →
  select4 t c s = (Ok {| dim0 := kdim0 t; dim1 := kdim1 t; dim2 := kdim2 t;
                         at3 := fun i j l => at4 t i j l c |}, s).
Proof. intros H. unfold select4. by destruct (Nat.ltb_spec c (kdim3 t)); [|lia]. Qed.

Lemma isub_col_run (s : store) r t c c' :
  s !! r = Some (T3 t) → c < dim2 t → c' < dim2 t →
  isub_col fsub r c c' s =
    (Ok tt, <[r := T3 {| dim0 := dim0 t; dim1 := dim1 t; dim2 := dim2 t;
                         at3 := fun i j k =>
                           if k =? c then fsub (at3 t i j c) (at3 t i j c')
                           else at3 t i j k |}]> s).
Proof.
  intros Hr Hc Hc'. unfold isub_col.
  rewrite (bind_ok _ _ _ _ _ (read3_run _ _ _ Hr)).
  rewrite (bind_ok _ _ _ _ _ (select3_run _ _ _ Hc)).
  by rewrite (bind_ok _ _ _ _ _ (select3_run _ _ _ Hc')).
Qed.

Lemma setitem4_run (s : store) r t c (v : Tensor3) :
  s !! r = Some (T4 t) → c < kdim3 t →
  dim0 v = kdim0 t → dim1 v = kdim1 t → dim2 v = kdim2 t →
  setitem4 r c v s =
    (Ok tt, <[r := T4 {| kdim0 := kdim0 t; kdim1 := kdim1 t;
                         kdim2 := kdim2 t; kdim3 := kdim3 t;
                         at4 := fun i j l k =>
                           if k =? c
                           then at3 v (bidx (dim0 v) i) (bidx (dim1 v) j)
                                      (bidx (dim2 v) l)
                           else at4 t i j l k |}]> s).
Proof.
  intros Hr Hc H0 H1 H2. unfold setitem4.
  rewrite (bind_ok _ _ _ _ _ (read4_run _ _ _ Hr)).
  destruct (Nat.ltb_spec c (kdim3 t)); [|lia]. simpl.
  by rewrite H0, H1, H2, !expands_to_same.
Qed.

(** The conversion on a box tensor with at least four columns. *)
Lemma convert_run (s : store) r t :
  s !! r = Some (T3 t) → 4 ≤ dim2 t →
  ∃ c, convert r s = (Ok (length s), s ++ [T3 c]) ∧ coco_of fsub t c.
Proof.
  intros Hr Hd. unfold _convert_bbox_to_coco.
  rewrite (bind_ok _ _ _ _ _ (clone_run _ _ _ Hr)).
  erewrite bind_ok;
    [|apply isub_col_run; [apply lookup_snoc|lia..]].
  rewrite insert_snoc.
  erewrite bind_ok;
    [|apply isub_col_run; [apply lookup_snoc|simpl; lia..]].
  rewrite insert_snoc.
  eexists. split; [reflexivity|].
  repeat split; simpl.
  intros k Hk. destruct k as [|[|[|[|k]]]]; try lia. done.
Qed.

Lemma broadcast3_run (s : store) op (a b : Tensor3) :
  dim0 a = dim0 b → dim1 a = dim1 b → dim2 a = dim2 b →
  broadcast3 op a b s =
    (Ok {| dim0 := dim0 b; dim1 := dim1 b; dim2 := dim2 b;
           at3 := fun i j l =>
             op (at3 a (bidx (dim0 a) i) (bidx (dim1 a) j) (bidx (dim2 a) l))
                (at3 b (bidx (dim0 b) i) (bidx (dim1 b) j) (bidx (dim2 b) l))
        |}, s).
Proof.
  intros H0 H1 H2. unfold broadcast3.
  by rewrite H0, H1, H2, !broadcast_dim_same.
Qed.

(** The body of [forward] on coco boxes of matching shape. *)
(** Reduction of the projections of the tensors built along a run. *)
Ltac proj_red :=
  cbn [dim0 dim1 dim2 at3 kdim0 kdim1 kdim2 kdim3 at4 r2_dim0 r2_dim1 at2].

Lemma forward_coco_run (s : store) self b k tb tk :
  format_bbox self = "coco" →
  s !! b = Some (T3 tb) → s !! k = Some (T4 tk) →
  dim0 tb = kdim0 tk → dim1 tb = kdim1 tk → 4 ≤ dim2 tb → 2 ≤ kdim3 tk →
  ∃ tp, forward self b k s = (Ok [("poses", length s)], s ++ [T4 tp]) ∧
        same_shape tk tp ∧ remapped fadd fmul fdiv of_int tb tk tp ∧
        rest_unchanged tk tp.
Proof.
  intros Hfmt Hb Hk H0 H1 H2 H3. unfold TopDown.forward.
  rewrite Hfmt. simpl negb. cbv iota.
  erewrite bind_ok; [|reflexivity].
  rewrite (bind_ok _ _ _ _ _ (read4_run _ _ _ Hk)).
  rewrite (bind_ok _ _ _ _ _ (clone_run _ _ _ Hk)).
  assert (Hb' : (s ++ [T4 tk]) !! b = Some (T3 tb)).
  { rewrite lookup_app_l; [done|]. by eapply lookup_lt_Some. }
  rewrite (bind_ok _ _ _ _ _ (read3_run _ _ _ Hb')).
  do 4 (erewrite bind_ok; [|apply select3_run; lia]).
  erewrite bind_ok; [|apply read4_run, lookup_snoc].
  erewrite bind_ok; [|apply select4_run; lia].
  unfold mul, add, unsqueeze_expand, div_scalar. proj_red.
  erewrite bind_ok; [|by apply broadcast3_run]. proj_red.
  erewrite bind_ok; [|by apply broadcast3_run]. proj_red.
  erewrite bind_ok;
    [|apply (setitem4_run _ _ tk); [apply lookup_snoc|lia|done..]].
  rewrite insert_snoc. proj_red.
  erewrite bind_ok; [|apply read4_run, lookup_snoc].
  erewrite bind_ok; [|apply select4_run; proj_red; lia]. proj_red.
  erewrite bind_ok; [|by apply broadcast3_run]. proj_red.
  erewrite bind_ok; [|by apply broadcast3_run]. proj_red.
  erewrite bind_ok;
    [|eapply setitem4_run; [apply lookup_snoc|proj_red; lia|done..]].
  rewrite insert_snoc. proj_red.
  eexists. split; [reflexivity|]. split; [by repeat split|]. split.
  - intros i j l Hi Hj Hl. proj_red. rewrite H0, H1.
    by rewrite !(bidx_lt _ i), !(bidx_lt _ j), !(bidx_lt _ l) by lia.
  - intros i j l c Hc. proj_red.
    destruct c as [|[|c]]; try lia. done.
Qed.

(** One step of a run that returns: the first computation returns and the
    run continues. *)
Ltac ok_step H inv :=
  let e := fresh "e" in let a := fresh "a" in let s1 := fresh "s1" in
  let H1 := fresh "Hstep" in let E := fresh "E" in
  apply bind_inv in H as [(e & H & E)|(a & s1 & H1 & H)];
  [discriminate E|apply inv in H1].

(** A run of [forward] on a coco predictor that returns has extended the
    store by one keypoint tensor, the result, which has the shape and the
    trailing components of the input keypoints. *)
Lemma forward_coco_inv (s s' : store) self b k res :
  format_bbox self = "coco" →
  forward self b k s = (Ok res, s') →
  ∃ tk tp, s !! k = Some (T4 tk) ∧ s' = s ++ [T4 tp] ∧
    res = [("poses", length s)] ∧ same_shape tk tp ∧ rest_unchanged tk tp.
Proof.
  intros Hfmt H. unfold TopDown.forward in H.
  rewrite Hfmt in H. simpl negb in H. cbv iota in H.
  erewrite bind_ok in H; [|reflexivity].
  ok_step H read4_inv. destruct Hstep as [-> Hk]. specialize (Hk _ eq_refl).
  rewrite (bind_ok _ _ _ _ _ (clone_run _ _ _ Hk)) in H.
  ok_step H read3_inv. destruct Hstep as [-> _].
  do 4 (ok_step H select3_inv; destruct Hstep as [-> _]).
  erewrite bind_ok in H; [|apply read4_run, lookup_snoc].
  ok_step H select4_inv. destruct Hstep as [-> _].
  unfold mul, add in H.
  do 2 (ok_step H broadcast3_inv; subst).
  ok_step H setitem4_inv.
  destruct Hstep as [(? & ? & _)|(t1 & Ht1 & Hc1 & _ & ->)]; [done|].
  rewrite lookup_snoc in Ht1. simplify_eq. rewrite insert_snoc in H.
  erewrite bind_ok in H; [|apply read4_run, lookup_snoc].
  ok_step H select4_inv. destruct Hstep as [-> _].
  do 2 (ok_step H broadcast3_inv; subst).
  ok_step H setitem4_inv.
  destruct Hstep as [(? & ? & _)|(t2 & Ht2 & Hc2 & _ & ->)]; [done|].
  rewrite lookup_snoc in Ht2. simplify_eq. rewrite insert_snoc in H.
  unfold ret in H. simplify_eq.
  eexists _, _. split; [done|]. split; [done|]. split; [done|].
  split; [done|].
  intros i j l c Hc. simpl. destruct c as [|[|c]]; try lia. done.
Qed.

(** One step of any run: the first computation, which does not write the
    store, raises or returns. *)
Ltac pure_step H inv :=
  let e := fresh "e" in let a := fresh "a" in let s1 := fresh "s1" in
  let H1 := fresh "Hstep" in
  apply bind_inv in H as [(e & H & _)|(a & s1 & H1 & H)];
  [apply inv in H; destruct H as [-> _]; by eauto
  |apply inv in H1; destruct H1 as [-> _]].

Ltac pure_step_eq H inv :=
  let e := fresh "e" in let a := fresh "a" in let s1 := fresh "s1" in
  let H1 := fresh "Hstep" in
  apply bind_inv in H as [(e & H & _)|(a & s1 & H1 & H)];
  [apply inv in H; subst; by eauto|apply inv in H1; subst].

(** The conversion either raises, leaving the store as it was or extended by
    one tensor, or returns the reference of the box tensor by which it has
    extended the store. *)
Lemma convert_store (s s' : store) r out :
  convert r s = (out, s') →
  (∃ e, out = Raise e ∧ (s' = s ∨ ∃ t, s' = s ++ [t])) ∨
  (∃ c, out = Ok (length s) ∧ s' = s ++ [T3 c]).
Proof.
  unfold _convert_bbox_to_coco. intros H.
  apply bind_inv in H as [(e & H & ->)|(a & s1 & H1 & H)];
    apply clone_inv in H || apply clone_inv in H1.
  { destruct H as [(? & ? & ->)|(? & ? & ? & _)]; [|done].
    left. eexists. split; [done|]. by left. }
  destruct H1 as [(? & ? & _)|(t & Ht & ? & ->)]; [done|]. simplify_eq.
  apply bind_inv in H as [(e & H & ->)|([] & s1 & H1 & H)];
    apply isub_col_inv in H || apply isub_col_inv in H1.
  { destruct H as [(? & _ & ->)|(? & _ & _ & _ & ? & _)]; [|done].
    left. eexists. split; [done|]. right. by eexists. }
  destruct H1 as [(? & ? & _)|(t1 & _ & _ & _ & _ & ->)]; [done|].
  rewrite insert_snoc in H.
  apply bind_inv in H as [(e & H & ->)|([] & s1 & H1 & H)];
    apply isub_col_inv in H || apply isub_col_inv in H1.
  { destruct H as [(? & _ & ->)|(? & _ & _ & _ & ? & _)]; [|done].
    left. eexists. split; [done|]. right. by eexists. }
  destruct H1 as [(? & ? & _)|(t2 & _ & _ & _ & _ & ->)]; [done|].
  rewrite insert_snoc in H. unfold ret in H. simplify_eq.
  right. by eexists.
Qed.

(** Whatever the outcome, [forward] on a coco predictor leaves the store as
    it was or extends it by one tensor. *)
Lemma forward_coco_store (s s' : store) self b k out :
  format_bbox self = "coco" →
  forward self b k s = (out, s') →
  s' = s ∨ ∃ t, s' = s ++ [t].
Proof.
  intros Hfmt H. unfold TopDown.forward in H.
  rewrite Hfmt in H. simpl negb in H. cbv iota in H.
  erewrite bind_ok in H; [|reflexivity].
  pure_step H read4_inv.
  apply bind_inv in H as [(e & H & _)|(r & s1 & H1 & H)];
    apply clone_inv in H || apply clone_inv in H1.
  { destruct H as [(? & ? & ->)|(? & ? & ? & _)]; [by left|done]. }
  destruct H1 as [(? & ? & _)|(t & Ht & ? & ->)]; [done|]. simplify_eq.
  pure_step H read3_inv.
  do 4 pure_step H select3_inv.
  pure_step H read4_inv.
  pure_step H select4_inv.
  unfold mul, add in H.
  do 2 pure_step_eq H broadcast3_inv.
  apply bind_inv in H as [(e & H & _)|([] & s1 & H1 & H)];
    apply setitem4_inv in H || apply setitem4_inv in H1.
  { destruct H as [(? & _ & ->)|(? & _ & _ & ? & _)]; [|done].
    right. by eexists. }
  destruct H1 as [(? & ? & _)|(t1 & _ & _ & _ & ->)]; [done|].
  rewrite insert_snoc in H.
  pure_step H read4_inv.
  pure_step H select4_inv.
  do 2 pure_step_eq H broadcast3_inv.
  apply bind_inv in H as [(e & H & _)|([] & s1 & H1 & H)];
    apply setitem4_inv in H || apply setitem4_inv in H1.
  { destruct H as [(? & _ & ->)|(? & _ & _ & ? & _)]; [|done].
    right. by eexists. }
  destruct H1 as [(? & ? & _)|(t2 & _ & _ & _ & ->)]; [done|].
  rewrite insert_snoc in H. unfold ret in H. simplify_eq.
  right. by eexists.
Qed.

(** On any other predictor [forward] converts the boxes and goes on as the
    coco predictor does. *)
Lemma forward_not_coco self b k :
  format_bbox self ≠ "coco" →
  forward self b k =
    bind (convert b) (fun b' => forward {| format_bbox := "coco" |} b' k).
Proof.
  intros Hfmt. unfold TopDown.forward.
  apply String.eqb_neq in Hfmt. rewrite Hfmt. reflexivity.
Qed.

(** C1.  On boxes and cropped keypoints of the documented shapes [forward]
    returns a dictionary whose ["poses"] tensor holds, for every instance and
    joint, [x = (w / 256) * x_c + x] and [y = (h / 256) * y_c + y], where
    [(x, y, w, h)] is the coco box of the instance (the given box for a coco
    predictor, its conversion otherwise); every other component is the one
    of the cropped keypoints. *)
Theorem forward_remaps_keypoints (s : store) self b k tb tk :
  s !! b = Some (T3 tb) → s !! k = Some (T4 tk) → documented_shapes tb tk →
  ∃ r s' tc tp,
    forward self b k s = (Ok [("poses", r)], s') ∧
    s' !! r = Some (T4 tp) ∧
    (format_bbox self = "coco" → tc = tb) ∧
    (format_bbox self ≠ "coco" → coco_of fsub tb tc) ∧
    remapped fadd fmul fdiv of_int tc tk tp ∧
    rest_unchanged tk tp.
Proof.
  intros Hb Hk (H0 & H1 & H2 & H3).
  destruct (decide (format_bbox self = "coco")) as [Hfmt|Hfmt].
  - destruct (forward_coco_run s self b k tb tk) as (tp & Hrun & _ & Hmap & Hrest);
      [done..|lia|lia|].
    exists (length s), (s ++ [T4 tp]), tb, tp.
    split; [done|]. split; [apply lookup_snoc|]. done.
  - destruct (convert_run s b tb) as (tc & Hconv & Hcoco); [done|lia|].
    destruct Hcoco as (Hc0 & Hc1 & Hc2 & Hcols).
    destruct (forward_coco_run (s ++ [T3 tc]) {| format_bbox := "coco" |}
                (length s) k tc tk) as (tp & Hrun & _ & Hmap & Hrest);
      [done|apply lookup_snoc| |lia..|].
    { rewrite lookup_app_l; [done|]. by eapply lookup_lt_Some. }
    exists (length (s ++ [T3 tc])), ((s ++ [T3 tc]) ++ [T4 tp]), tc, tp.
    split.
    { rewrite forward_not_coco by done. by rewrite (bind_ok _ _ _ _ _ Hconv). }
    split; [apply lookup_snoc|]. done.
Qed.

(** C8.  On a box tensor given as [(x1, y1, x2, y2)]
    [_convert_bbox_to_coco] returns a new tensor holding
    [(x1, y1, x2 - x1, y2 - y1)], and the tensor it was given is still in the
    store, unchanged.  [forward] applies the conversion exactly when
    [format_bbox] is not ["coco"]: then it is the conversion followed by the
    run of the coco predictor on the converted boxes, and otherwise a run
    that returns has allocated the result tensor and nothing else. *)
Theorem convert_bbox_to_coco_spec (s : store) self b k tb :
  s !! b = Some (T3 tb) → 4 ≤ dim2 tb →
  (∃ tc, convert b s = (Ok (length s), s ++ [T3 tc]) ∧
         coco_of fsub tb tc ∧
         (s ++ [T3 tc]) !! b = Some (T3 tb) ∧
         preserved s (s ++ [T3 tc])) ∧
  (format_bbox self ≠ "coco" →
     forward self b k s =
       bind (convert b)
            (fun b' => forward {| format_bbox := "coco" |} b' k) s) ∧
  (format_bbox self = "coco" →
     ∀ res s', forward self b k s = (Ok res, s') →
       ∃ tp, s' = s ++ [T4 tp] ∧ s' !! b = Some (T3 tb)).
Proof.
  intros Hb Hd. split; [|split].
  - destruct (convert_run s b tb) as (tc & Hconv & Hcoco); [done..|].
    exists tc. split; [done|]. split; [done|]. split.
    + rewrite lookup_app_l; [done|]. by eapply lookup_lt_Some.
    + apply preserved_app.
  - intros Hfmt. by rewrite forward_not_coco.
  - intros Hfmt res s' Hrun.
    destruct (forward_coco_inv _ _ _ _ _ _ Hfmt Hrun)
      as (tk & tp & _ & -> & _).
    exists tp. split; [done|].
    rewrite lookup_app_l; [done|]. by eapply lookup_lt_Some.
Qed.

(** C9.  Whatever its outcome, [forward] leaves every tensor that was in the
    store unchanged, the boxes and the cropped keypoints among them.  When it
    returns, the ["poses"] tensor is a new one of the shape of
    [keypoints_cropped] whose components from the third on (the score) are
    those of [keypoints_cropped] at every index. *)
Theorem forward_frame (s s' : store) self b k out :
  forward self b k s = (out, s') →
  preserved s s' ∧
  ∀ res, out = Ok res →
    ∃ r tk tp,
      res = [("poses", r)] ∧ length s ≤ r ∧
      s !! k = Some (T4 tk) ∧ s' !! k = Some (T4 tk) ∧
      s' !! r = Some (T4 tp) ∧
      same_shape tk tp ∧ rest_unchanged tk tp.
Proof.
  intros Hrun.
  destruct (decide (format_bbox self = "coco")) as [Hfmt|Hfmt].
  - split.
    + destruct (forward_coco_store _ _ _ _ _ _ Hfmt Hrun) as [->|(t & ->)];
        [apply preserved_refl|apply preserved_app].
    + intros res ->.
      destruct (forward_coco_inv _ _ _ _ _ _ Hfmt Hrun)
        as (tk & tp & Hk & -> & -> & Hshape & Hrest).
      exists (length s), tk, tp. split; [done|]. split; [lia|].
      split; [done|]. split.
      { rewrite lookup_app_l; [done|]. by eapply lookup_lt_Some. }
      split; [apply lookup_snoc|]. done.
  - rewrite forward_not_coco in Hrun by done.
    apply bind_inv in Hrun as [(e & Hconv & ->)|(b' & s1 & Hconv & Hrun)].
    { split; [|done].
      destruct (convert_store _ _ _ _ Hconv)
        as [(? & _ & [->|(t & ->)])|(? & ? & _)];
        [apply preserved_refl|apply preserved_app|done]. }
    destruct (convert_store _ _ _ _ Hconv)
      as [(? & ? & _)|(tc & ? & ->)]; [done|]. simplify_eq.
    split.
    + destruct (forward_coco_store _ _ {| format_bbox := "coco" |} _ _ _
                  eq_refl Hrun) as [->|(t & ->)];
        [apply preserved_app|rewrite <-app_assoc; apply preserved_app].
    + intros res ->.
      destruct (forward_coco_inv _ _ {| format_bbox := "coco" |} _ _ _
                  eq_refl Hrun) as (tk & tp & Hk & -> & -> & Hshape & Hrest).
      assert (Hk0 : s !! k = Some (T4 tk)).
      { destruct (decide (k < length s)) as [Hlt|Hge].
        - by rewrite lookup_app_l in Hk.
        - destruct (decide (k = length s)) as [->|Hne].
          + by rewrite lookup_snoc in Hk.
          + rewrite lookup_ge_None_2 in Hk; [done|].
            rewrite length_app. simpl. lia. }
      exists (length (s ++ [T3 tc])), tk, tp. split; [done|].
      split; [rewrite length_app; lia|]. split; [done|]. split.
      { rewrite <-app_assoc, lookup_app_l; [done|]. by eapply lookup_lt_Some. }
      split; [apply lookup_snoc|]. done.
Qed.

(** *** Further results on the predictor *)

Lemma bind_raise {S A B} (m : M S A) (k : A → M S B) (s s1 : S) e :
  m s = (Raise e, s1) → bind m k s = (Raise e, s1).
Proof. intros H. unfold bind. by rewrite H. Qed.

Lemma select3_fail (s : store) t c :
  dim2 t ≤ c → select3 t c s = (Raise IndexError, s).
Proof. intros H. unfold select3. by destruct (Nat.ltb_spec c (dim2 t)); [lia|]. Qed.

Lemma select4_fail (s : store) t c :
  kdim3 t ≤ c → select4 t c s = (Raise IndexError, s).
Proof. intros H. unfold select4. by destruct (Nat.ltb_spec c (kdim3 t)); [lia|]. Qed.

Lemma isub_col_fail (s : store) r t c c' :
  s !! r = Some (T3 t) → dim2 t ≤ c ∨ dim2 t ≤ c' →
  isub_col fsub r c c' s = (Raise IndexError, s).
Proof.
  intros Hr Hc. unfold isub_col.
  rewrite (bind_ok _ _ _ _ _ (read3_run _ _ _ Hr)).
  destruct (decide (c < dim2 t)) as [Hlt|Hge].
  - rewrite (bind_ok _ _ _ _ _ (select3_run _ _ _ Hlt)).
    apply bind_raise, select3_fail. lia.
  - apply bind_raise, select3_fail. lia.
Qed.

(** On a predictor that is not a coco predictor, [forward] on boxes with
    four columns is the run of the coco predictor on the converted boxes. *)
Lemma forward_via_coco (s : store) self b k tb :
  format_bbox self ≠ "coco" → s !! b = Some (T3 tb) → 4 ≤ dim2 tb →
  ∃ tc, coco_of fsub tb tc ∧
    forward self b k s =
    forward {| format_bbox := "coco" |} (length s) k (s ++ [T3 tc]).
Proof.
  intros Hfmt Hb Hd.
  destruct (convert_run s b tb Hb Hd) as (tc & Hconv & Hcoco).
  exists tc. split; [done|].
  by rewrite forward_not_coco, (bind_ok _ _ _ _ _ Hconv).
Qed.

(** The first steps of a run of the coco predictor: the keypoints are
    read and cloned and the boxes are read. *)
Ltac forward_coco_start Hfmt Hk Hb :=
  unfold TopDown.forward; rewrite Hfmt; simpl negb; cbv iota;
  (erewrite bind_ok; [|reflexivity]);
  rewrite (bind_ok _ _ _ _ _ (read4_run _ _ _ Hk));
  rewrite (bind_ok _ _ _ _ _ (clone_run _ _ _ Hk));
  (erewrite bind_ok;
     [|apply read3_run; rewrite lookup_app_l;
       [exact Hb|by eapply lookup_lt_Some]]).

(** X1.  On a predictor whose [format_bbox] is not ["coco"] (the default
    one among them) the boxes are read as [(x1, y1, x2, y2)]: the poses are
    [x = ((x2 - x1) / 256) * x_c + x1] and [y = ((y2 - y1) / 256) * y_c + y1]. *)
Theorem forward_xyxy_poses (s : store) self b k tb tk :
  format_bbox self ≠ "coco" →
  s !! b = Some (T3 tb) → s !! k = Some (T4 tk) → documented_shapes tb tk →
  ∃ r s' tp,
    forward self b k s = (Ok [("poses", r)], s') ∧
    s' !! r = Some (T4 tp) ∧
    ∀ i j l, i < kdim0 tk → j < kdim1 tk → l < kdim2 tk →
      at4 tp i j l 0 =
        fadd (fmul (fdiv (fsub (at3 tb i j 2) (at3 tb i j 0)) (of_int 256%Z))
                   (at4 tk i j l 0))
             (at3 tb i j 0) ∧
      at4 tp i j l 1 =
        fadd (fmul (fdiv (fsub (at3 tb i j 3) (at3 tb i j 1)) (of_int 256%Z))
                   (at4 tk i j l 1))
             (at3 tb i j 1).
Proof.
  intros Hfmt Hb Hk (H0 & H1 & H2 & H3).
  destruct (forward_via_coco s self b k tb Hfmt Hb) as (tc & Hcoco & ->); [lia|].
  destruct Hcoco as (Hc0 & Hc1 & Hc2 & Hcols).
  destruct (forward_coco_run (s ++ [T3 tc]) {| format_bbox := "coco" |}
              (length s) k tc tk) as (tp & Hrun & _ & Hmap & _);
    [done|apply lookup_snoc| |lia..|].
  { rewrite lookup_app_l; [done|]. by eapply lookup_lt_Some. }
  exists (length (s ++ [T3 tc])), ((s ++ [T3 tc]) ++ [T4 tp]), tp.
  split; [done|]. split; [apply lookup_snoc|].
  intros i j l Hi Hj Hl. destruct (Hmap i j l Hi Hj Hl) as [Hx Hy].
  destruct (Hcols i j) as (E0 & E1 & E2 & E3 & _).
  by rewrite Hx, Hy, E0, E1, E2, E3.
Qed.

Lemma convert_raises (s : store) b tb :
  s !! b = Some (T3 tb) → dim2 tb < 4 →
  ∃ s', convert b s = (Raise IndexError, s') ∧ preserved s s' ∧
        s' !! b = Some (T3 tb).
Proof.
  intros Hb Hd. unfold _convert_bbox_to_coco.
  rewrite (bind_ok _ _ _ _ _ (clone_run _ _ _ Hb)).
  assert (Hb' : ∀ t, (s ++ [t]) !! b = Some (T3 tb)).
  { intros t. rewrite lookup_app_l; [done|]. by eapply lookup_lt_Some. }
  destruct (decide (dim2 tb ≤ 2)) as [Hle|Hgt].
  - exists (s ++ [T3 tb]). split; [|split; [apply preserved_app|done]].
    apply bind_raise, isub_col_fail with tb; [apply lookup_snoc|lia].
  - erewrite bind_ok; [|apply isub_col_run; [apply lookup_snoc|lia..]].
    rewrite insert_snoc. eexists. split; [|split; [apply preserved_app|done]].
    eapply bind_raise, isub_col_fail; [apply lookup_snoc|]. proj_red. lia.
Qed.

(** X2.  On boxes with fewer than four columns [_convert_bbox_to_coco]
    raises [IndexError]; the tensor it was given is still in the store,
    unchanged. *)
Theorem convert_too_few_columns (s : store) b tb :
  s !! b = Some (T3 tb) → dim2 tb < 4 →
  ∃ s', convert b s = (Raise IndexError, s') ∧ preserved s s' ∧
        s' !! b = Some (T3 tb).
Proof. apply convert_raises. Qed.

(** X3.  On boxes with fewer than four columns [forward] raises
    [IndexError], whatever the predictor. *)
Theorem forward_too_few_box_columns (s : store) self b k tb tk :
  s !! b = Some (T3 tb) → s !! k = Some (T4 tk) → dim2 tb < 4 →
  ∃ s', forward self b k s = (Raise IndexError, s').
Proof.
  intros Hb Hk Hd.
  destruct (decide (format_bbox self = "coco")) as [Hfmt|Hfmt].
  - forward_coco_start Hfmt Hk Hb.
    destruct (decide (dim2 tb ≤ 0)); [eexists; apply bind_raise, select3_fail; lia|].
    erewrite bind_ok; [|apply select3_run; lia].
    destruct (decide (dim2 tb ≤ 1)); [eexists; apply bind_raise, select3_fail; lia|].
    erewrite bind_ok; [|apply select3_run; lia].
    destruct (decide (dim2 tb ≤ 2)); [eexists; apply bind_raise, select3_fail; lia|].
    erewrite bind_ok; [|apply select3_run; lia].
    eexists; apply bind_raise, select3_fail; lia.
  - destruct (convert_raises s b tb Hb Hd) as (s' & Hconv & _).
    exists s'. rewrite forward_not_coco by done. by apply bind_raise.
Qed.

Lemma broadcast3_run_to (s : store) op (a b : Tensor3) d0 d1 d2 :
  broadcast_dim (dim0 a) (dim0 b) = Some d0 →
  broadcast_dim (dim1 a) (dim1 b) = Some d1 →
  broadcast_dim (dim2 a) (dim2 b) = Some d2 →
  broadcast3 op a b s =
    (Ok {| dim0 := d0; dim1 := d1; dim2 := d2;
           at3 := fun i j l =>
             op (at3 a (bidx (dim0 a) i) (bidx (dim1 a) j) (bidx (dim2 a) l))
                (at3 b (bidx (dim0 b) i) (bidx (dim1 b) j) (bidx (dim2 b) l))
        |}, s).
Proof. intros H0 H1 H2. unfold broadcast3. by rewrite H0, H1, H2. Qed.

Lemma broadcast3_fail (s : store) op (a b : Tensor3) :
  broadcast_dim (dim0 a) (dim0 b) = None →
  broadcast3 op a b s = (Raise RuntimeError, s).
Proof. intros H0. unfold broadcast3. by rewrite H0. Qed.

Lemma broadcast_dim_l a b : a = b ∨ a = 1 → broadcast_dim a b = Some b.
Proof.
  unfold broadcast_dim. intros [->| ->]; [by rewrite Nat.eqb_refl|].
  destruct (Nat.eqb_spec 1 b); [by subst|done].
Qed.

Lemma broadcast_dim_r a b : b = a ∨ b = 1 → broadcast_dim a b = Some a.
Proof.
  unfold broadcast_dim. intros [->| ->]; [by rewrite Nat.eqb_refl|].
  destruct (Nat.eqb_spec a 1); [done|]. by destruct (Nat.eqb_spec a 1).
Qed.

Lemma setitem4_fail_index (s : store) r t c (v : Tensor3) :
  s !! r = Some (T4 t) → kdim3 t ≤ c →
  setitem4 r c v s = (Raise IndexError, s).
Proof.
  intros Hr Hc. unfold setitem4.
  rewrite (bind_ok _ _ _ _ _ (read4_run _ _ _ Hr)).
  by destruct (Nat.ltb_spec c (kdim3 t)); [lia|].
Qed.

Lemma setitem4_fail_shape (s : store) r t c (v : Tensor3) :
  s !! r = Some (T4 t) → c < kdim3 t → expands_to (dim0 v) (kdim0 t) = false →
  setitem4 r c v s = (Raise RuntimeError, s).
Proof.
  intros Hr Hc Hs. unfold setitem4.
  rewrite (bind_ok _ _ _ _ _ (read4_run _ _ _ Hr)).
  destruct (Nat.ltb_spec c (kdim3 t)); [|lia]. simpl. by rewrite Hs.
Qed.

(** A run of the coco predictor on keypoints with fewer than two
    components. *)
Lemma forward_coco_few_components (s : store) self b k tb tk :
  format_bbox self = "coco" →
  s !! b = Some (T3 tb) → s !! k = Some (T4 tk) →
  dim0 tb = kdim0 tk → dim1 tb = kdim1 tk → 4 ≤ dim2 tb → kdim3 tk < 2 →
  ∃ s', forward self b k s = (Raise IndexError, s').
Proof.
  intros Hfmt Hb Hk H0 H1 H2 H3. forward_coco_start Hfmt Hk Hb.
  do 4 (erewrite bind_ok; [|apply select3_run; lia]).
  erewrite bind_ok; [|apply read4_run, lookup_snoc].
  destruct (decide (kdim3 tk = 0)) as [Hz|Hnz].
  { eexists. apply bind_raise, select4_fail. lia. }
  erewrite bind_ok; [|apply select4_run; lia].
  unfold mul, add, unsqueeze_expand, div_scalar. proj_red.
  erewrite bind_ok; [|by apply broadcast3_run]. proj_red.
  erewrite bind_ok; [|by apply broadcast3_run]. proj_red.
  erewrite bind_ok;
    [|apply (setitem4_run _ _ tk); [apply lookup_snoc|lia|done..]].
  rewrite insert_snoc. proj_red.
  erewrite bind_ok; [|apply read4_run, lookup_snoc].
  eexists. apply bind_raise, select4_fail. proj_red. lia.
Qed.

(** X4.  On keypoints with fewer than two components [forward] raises
    [IndexError]. *)
Theorem forward_too_few_components (s : store) self b k tb tk :
  s !! b = Some (T3 tb) → s !! k = Some (T4 tk) →
  dim0 tb = kdim0 tk → dim1 tb = kdim1 tk → 4 ≤ dim2 tb → kdim3 tk < 2 →
  ∃ s', forward self b k s = (Raise IndexError, s').
Proof.
  intros Hb Hk H0 H1 H2 H3.
  destruct (decide (format_bbox self = "coco")) as [Hfmt|Hfmt].
  - by eapply forward_coco_few_components.
  - destruct (forward_via_coco s self b k tb Hfmt Hb H2)
      as (tc & (Hc0 & Hc1 & Hc2 & _) & ->).
    apply (forward_coco_few_components _ _ _ _ tc tk);
      [done|apply lookup_snoc| |lia..].
    rewrite lookup_app_l; [done|]. by eapply lookup_lt_Some.
Qed.

(** A run of the coco predictor on boxes whose batch size is neither the
    one of the keypoints nor 1. *)
Lemma forward_coco_batch_mismatch (s : store) self b k tb tk :
  format_bbox self = "coco" →
  s !! b = Some (T3 tb) → s !! k = Some (T4 tk) →
  dim0 tb ≠ kdim0 tk → dim0 tb ≠ 1 → dim1 tb = kdim1 tk →
  4 ≤ dim2 tb → 1 ≤ kdim3 tk →
  ∃ s', forward self b k s = (Raise RuntimeError, s').
Proof.
  intros Hfmt Hb Hk H0 H0' H1 H2 H3. forward_coco_start Hfmt Hk Hb.
  do 4 (erewrite bind_ok; [|apply select3_run; lia]).
  erewrite bind_ok; [|apply read4_run, lookup_snoc].
  erewrite bind_ok; [|apply select4_run; lia].
  unfold mul, add, unsqueeze_expand, div_scalar. proj_red.
  destruct (decide (kdim0 tk = 1)) as [Hone|Hnone].
  - erewrite bind_ok;
      [|apply broadcast3_run_to; proj_red;
        [apply broadcast_dim_r; by right
        |rewrite H1; apply broadcast_dim_same|apply broadcast_dim_same]].
    proj_red.
    erewrite bind_ok;
      [|apply broadcast3_run_to; proj_red;
        [apply broadcast_dim_same
        |rewrite H1; apply broadcast_dim_same|apply broadcast_dim_same]].
    proj_red. eexists.
    eapply bind_raise, setitem4_fail_shape; [apply lookup_snoc|lia|].
    proj_red. unfold expands_to. rewrite Hone.
    by destruct (Nat.eqb_spec (dim0 tb) 1).
  - eexists. apply bind_raise, broadcast3_fail. proj_red.
    unfold broadcast_dim.
    destruct (Nat.eqb_spec (dim0 tb) (kdim0 tk)); [done|].
    destruct (Nat.eqb_spec (dim0 tb) 1); [done|].
    by destruct (Nat.eqb_spec (kdim0 tk) 1).
Qed.

(** X5.  On boxes with at least 4 columns and the number of animals of the
    keypoints, and keypoints with at least 1 component: when the batch size
    of the boxes is neither the batch size of the keypoints nor 1, [forward]
    raises [RuntimeError]. *)
Theorem forward_batch_mismatch (s : store) self b k tb tk :
  s !! b = Some (T3 tb) → s !! k = Some (T4 tk) →
  dim0 tb ≠ kdim0 tk → dim0 tb ≠ 1 → dim1 tb = kdim1 tk →
  4 ≤ dim2 tb → 1 ≤ kdim3 tk →
  ∃ s', forward self b k s = (Raise RuntimeError, s').
Proof.
  intros Hb Hk H0 H0' H1 H2 H3.
  destruct (decide (format_bbox self = "coco")) as [Hfmt|Hfmt].
  - by eapply forward_coco_batch_mismatch.
  - destruct (forward_via_coco s self b k tb Hfmt Hb H2)
      as (tc & (Hc0 & Hc1 & Hc2 & _) & ->).
    apply (forward_coco_batch_mismatch _ _ _ _ tc tk);
      [done|apply lookup_snoc| |lia..].
    rewrite lookup_app_l; [done|]. by eapply lookup_lt_Some.
Qed.

(** X6.  A coco predictor accepts boxes whose batch size or number of
    animals is 1 where the keypoints have more: the one box is used for
    every entry of that dimension. *)
Theorem forward_broadcasts_boxes (s : store) self b k tb tk :
  format_bbox self = "coco" →
  s !! b = Some (T3 tb) → s !! k = Some (T4 tk) →
  dim0 tb = kdim0 tk ∨ dim0 tb = 1 → dim1 tb = kdim1 tk ∨ dim1 tb = 1 →
  4 ≤ dim2 tb → 2 ≤ kdim3 tk →
  ∃ tp, forward self b k s = (Ok [("poses", length s)], s ++ [T4 tp]) ∧
    same_shape tk tp ∧
    ∀ i j l, i < kdim0 tk → j < kdim1 tk → l < kdim2 tk →
      let bi := bidx (dim0 tb) i in
      let bj := bidx (dim1 tb) j in
      at4 tp i j l 0 =
        fadd (fmul (fdiv (at3 tb bi bj 2) (of_int 256%Z)) (at4 tk i j l 0))
             (at3 tb bi bj 0) ∧
      at4 tp i j l 1 =
        fadd (fmul (fdiv (at3 tb bi bj 3) (of_int 256%Z)) (at4 tk i j l 1))
             (at3 tb bi bj 1).
Proof.
  intros Hfmt Hb Hk H0 H1 H2 H3. forward_coco_start Hfmt Hk Hb.
  do 4 (erewrite bind_ok; [|apply select3_run; lia]).
  erewrite bind_ok; [|apply read4_run, lookup_snoc].
  erewrite bind_ok; [|apply select4_run; lia].
  unfold mul, add, unsqueeze_expand, div_scalar. proj_red.
  erewrite bind_ok;
    [|apply broadcast3_run_to; proj_red;
      [by apply broadcast_dim_l|by apply broadcast_dim_l
      |apply broadcast_dim_same]].
  proj_red.
  erewrite bind_ok;
    [|apply broadcast3_run_to; proj_red;
      [by apply broadcast_dim_r|by apply broadcast_dim_r
      |apply broadcast_dim_same]].
  proj_red.
  erewrite bind_ok;
    [|apply (setitem4_run _ _ tk); [apply lookup_snoc|lia|done..]].
  rewrite insert_snoc. proj_red.
  erewrite bind_ok; [|apply read4_run, lookup_snoc].
  erewrite bind_ok; [|apply select4_run; proj_red; lia]. proj_red.
  erewrite bind_ok;
    [|apply broadcast3_run_to; proj_red;
      [by apply broadcast_dim_l|by apply broadcast_dim_l
      |apply broadcast_dim_same]].
  proj_red.
  erewrite bind_ok;
    [|apply broadcast3_run_to; proj_red;
      [by apply broadcast_dim_r|by apply broadcast_dim_r
      |apply broadcast_dim_same]].
  proj_red.
  erewrite bind_ok;
    [|eapply setitem4_run; [apply lookup_snoc|proj_red; lia|done..]].
  rewrite insert_snoc. proj_red.
  eexists. split; [reflexivity|]. split; [by repeat split|].
  intros i j l Hi Hj Hl. proj_red. cbn [Nat.eqb].
  by rewrite !(bidx_lt (kdim0 tk) i), !(bidx_lt (kdim1 tk) j),
    !(bidx_lt (kdim2 tk) l) by lia.
Qed.

End TopDownFacts.

Lemma forward_remaps_keypoints_witness :
  ∃ r s' tc tp,
    TopDown.forward Qplus Qminus Qmult Qdiv inject_Z TopDownExamples.xyxy 0 1
      TopDownExamples.store0 = (Ok [("poses", r)], s') ∧
    s' !! r = Some (TopDown.T4 tp) ∧
    (TopDown.format_bbox TopDownExamples.xyxy = "coco" → tc = TopDownExamples.boxes) ∧
    (TopDown.format_bbox TopDownExamples.xyxy ≠ "coco" →
       TopDownSpec.coco_of Qminus TopDownExamples.boxes tc) ∧
    TopDownSpec.remapped Qplus Qmult Qdiv inject_Z tc TopDownExamples.crops tp ∧
    TopDownSpec.rest_unchanged TopDownExamples.crops tp.
Proof.
  apply (forward_remaps_keypoints Qplus Qminus Qmult Qdiv inject_Z
           TopDownExamples.store0 TopDownExamples.xyxy
           0 1 TopDownExamples.boxes TopDownExamples.crops).
  - reflexivity.
  - reflexivity.
  - repeat split.
Defined.


Lemma convert_bbox_to_coco_spec_witness :
  let s := TopDownExamples.store0 in
  let tb := TopDownExamples.boxes in
  let fwd := TopDown.forward Qplus Qminus Qmult Qdiv inject_Z in
  (∃ tc, TopDown._convert_bbox_to_coco Qminus 0 s
           = (Ok (length s), s ++ [TopDown.T3 tc]) ∧
         TopDownSpec.coco_of Qminus tb tc ∧
         (s ++ [TopDown.T3 tc]) !! 0 = Some (TopDown.T3 tb) ∧
         TopDownSpec.preserved s (s ++ [TopDown.T3 tc])) ∧
  (TopDown.format_bbox TopDownExamples.xyxy ≠ "coco" →
     fwd TopDownExamples.xyxy 0 1 s =
       bind (TopDown._convert_bbox_to_coco Qminus 0)
         (fun b' => fwd {| TopDown.format_bbox := "coco" |} b' 1) s) ∧
  (TopDown.format_bbox TopDownExamples.xyxy = "coco" →
     ∀ res s', fwd TopDownExamples.xyxy 0 1 s = (Ok res, s') →
       ∃ tp, s' = s ++ [TopDown.T4 tp] ∧ s' !! 0 = Some (TopDown.T3 tb)).
Proof.
  apply (convert_bbox_to_coco_spec Qplus Qminus Qmult Qdiv inject_Z
           TopDownExamples.store0 TopDownExamples.xyxy 0 1
           TopDownExamples.boxes).
  - reflexivity.
  - simpl. lia.
Defined.

Lemma forward_frame_witness :
  let s := TopDownExamples.store0 in
  ∃ out s',
    TopDown.forward Qplus Qminus Qmult Qdiv inject_Z TopDownExamples.xyxy 0 1 s
      = (out, s') ∧
    (TopDownSpec.preserved s s' ∧
     ∀ res, out = Ok res →
       ∃ r tk tp,
         res = [("poses", r)] ∧ length s ≤ r ∧
         s !! 1 = Some (TopDown.T4 tk) ∧ s' !! 1 = Some (TopDown.T4 tk) ∧
         s' !! r = Some (TopDown.T4 tp) ∧
         TopDownSpec.same_shape tk tp ∧ TopDownSpec.rest_unchanged tk tp).
Proof.
  eexists _, _. split.
  - cbv. reflexivity.
  - apply (forward_frame Qplus Qminus Qmult Qdiv inject_Z
             TopDownExamples.store0 _ TopDownExamples.xyxy 0 1).
    cbv. reflexivity.
Defined.

(** The box [(10, 20, 110, 220)] is 100 wide and 200 high: the joint
    [(128, 64)] of the crop lies at [(60, 70)] in the image and the joint
    [(0, 256)] at [(10, 220)]; the scores are kept. *)
Example forward_xyxy_example :
  let '(out, s') :=
    TopDown.forward Qplus Qminus Qmult Qdiv inject_Z TopDownExamples.xyxy 0 1
      TopDownExamples.store0 in
  out = Ok [("poses", 3)] ∧
  TopDownExamples.entries4 s' 3 = [[[[60; 70; 9 # 10]; [10; 220; 1 # 2]]]]%Q ∧
  TopDownExamples.entries4 s' 1 = [[[[128; 64; 9 # 10]; [0; 256; 1 # 2]]]]%Q.
Proof. vm_compute. repeat split. Qed.

(** With [format_bbox = "coco"] the same box is read as origin [(10, 20)],
    width 110 and height 220. *)
Example forward_coco_example :
  let '(out, s') :=
    TopDown.forward Qplus Qminus Qmult Qdiv inject_Z TopDownExamples.coco 0 1
      TopDownExamples.store0 in
  out = Ok [("poses", 2)] ∧
  TopDownExamples.entries4 s' 2 = [[[[65; 75; 9 # 10]; [10; 240; 1 # 2]]]]%Q.
Proof. vm_compute. repeat split. Qed.

(** ** Configurations as values *)

Section ConfigFacts.
Context {float : Type}.
Variables (float_add float_mul : float → float → float)
          (float_of_int : Z → option float) (memory : N).

Import Config ConfigSpec.

Local Abbreviation value := (@value float).
Local Abbreviation rdv := (replace_default_values float_add float_mul float_of_int memory).
Local Abbreviation entry := (replace_entry float_add float_mul float_of_int memory).
Local Abbreviation guv := (get_updated_value float_add float_mul float_of_int memory).

(** Induction on values, with the hypothesis for every element of a list
    and every value of a dictionary. *)
Lemma value_ind (P : value → Prop) :
  P VNone → (∀ b, P (VBool b)) → (∀ n, P (VInt n)) → (∀ x, P (VFloat x)) →
  (∀ s, P (VStr s)) →
  (∀ l, Forall P l → P (VList l)) →
  (∀ d, Forall (fun kv => P kv.2) d → P (VDict d)) →
  ∀ v, P v.
Proof.
  intros HN HB HI HF HS HL HD.
  fix IH 1. intros [|b|n|x|s|l|d];
    [exact HN|apply HB|apply HI|apply HF|apply HS|..].
  - apply HL. induction l as [|v l IHl]; constructor; [apply IH|apply IHl].
  - apply HD. induction d as [|[k v] d IHd]; constructor; [apply IH|apply IHd].
Qed.

Lemma for_each_ok {A B} (f : A → outcome B) l l' :
  for_each f l = Ok l' ↔ Forall2 (fun x y => f x = Ok y) l l'.
Proof.
  revert l'. induction l as [|x l IH]; intros l'; simpl.
  - split; [intros; simplify_eq; constructor|by inversion 1].
  - split.
    + intros H. destruct (f x) as [y|e] eqn:Hx; simpl in H; [|done].
      destruct (for_each f l) as [r|e] eqn:Hl; simpl in H; [|done].
      simplify_eq. constructor; [done|]. by apply IH.
    + intros H. inversion H as [|? y ? r Hx Hl]; simplify_eq.
      apply IH in Hl. by rewrite Hx, Hl.
Qed.

Lemma for_each_id {A} (f : A → outcome A) l :
  Forall (fun x => f x = Ok x) l → for_each f l = Ok l.
Proof.
  intros H. apply for_each_ok. induction H; by constructor.
Qed.

(** The outcome of a loop against the outcomes of its bodies. *)
Lemma for_each_first_error {A B} (f : A → outcome B) l :
  match for_each f l with
  | Ok _ => first_error (map f l) = None
  | Raise e => first_error (map f l) = Some e
  end.
Proof.
  induction l as [|x l IH]; simpl; [done|].
  destruct (f x) as [y|e]; simpl; [|done].
  by destruct (for_each f l).
Qed.

Lemma first_error_app {A} (l1 l2 : list (outcome A)) :
  first_error (l1 ++ l2) =
    match first_error l1 with Some e => Some e | None => first_error l2 end.
Proof. induction l1 as [|[a|e] l1 IH]; simpl; auto. Qed.

Lemma rdv_list l nb ni boc kw :
  rdv (VList l) nb ni boc kw =
    on_ok (for_each (fun v => entry v nb ni boc kw) l) (fun l' => Ok (VList l')).
Proof. reflexivity. Qed.

Lemma rdv_dict d nb ni boc kw :
  rdv (VDict d) nb ni boc kw =
    on_ok (for_each (fun kv => on_ok (entry kv.2 nb ni boc kw)
                                     (fun v' => Ok (kv.1, v'))) d)
          (fun d' => Ok (VDict d')).
Proof. reflexivity. Qed.

(** *** get_updated_value *)

Lemma var_parts_hd s : ∃ rest, var_parts s = var_name s :: rest.
Proof.
  unfold var_name, var_parts.
  assert (H : ∀ t, split t ≠ []).
  { intros t. induction t as [|c t IH]; simpl; [done|].
    destruct (Ascii.eqb c " "); [done|]. by destruct (split t). }
  specialize (H (strip s)). destruct (split (strip s)); [done|]. by eexists.
Qed.


(** With a value that is not [None], [get_updated_value] depends on the
    parts of the variable only. *)
Lemma guv_some (uv : list (string * value)) s v :
  dict_get uv (var_name s) = Some v → v ≠ VNone →
  guv uv s =
    match var_parts s with
    | [_] => Ok v
    | [_; operator; factor] =>
        if negb (isdigit factor)
        then Raise (ValueError ("F must be an integer in variable: " +:+ s))
        else
          match int factor with
          | Raise e => Raise e
          | Ok factor =>
              if String.eqb operator "+" then py_add float_add float_of_int v factor
              else if String.eqb operator "x" then py_mul float_mul float_of_int memory v factor
              else Raise (ValueError ("Unknown operator for variable: " +:+ s))
          end
    | _ =>
        Raise (ValueError ("Found " +:+ s +:+
          " in the configuration file, but cannot parse it."))
    end.
Proof.
  intros H Hv. unfold get_updated_value. fold (var_name s). rewrite H.
  by destruct v.
Qed.

Lemma is_decimal_string_isdigit F :
  is_decimal_string F = true → isdigit F = true.
Proof.
  unfold is_decimal_string, isdigit. intros [Hne Hall]%andb_true_iff.
  rewrite Hne. simpl.
  clear Hne. induction F as [|c F IH]; simpl in *; [done|].
  apply andb_true_iff in Hall as [Hc HF]. rewrite IH by done.
  unfold is_digit. by rewrite Hc.
Qed.

Lemma leading_decimals_all F :
  forallb_string is_decimal F = true → leading_decimals F = String.length F.
Proof.
  induction F as [|c F IH]; simpl; [done|].
  intros [-> HF]%andb_true_iff. by rewrite IH.
Qed.

Lemma leading_decimals_le F : leading_decimals F ≤ String.length F.
Proof.
  induction F as [|c F IH]; simpl; [done|]. destruct (is_decimal c); lia.
Qed.

(** [int] converts the decimal strings of at most [int_max_str_digits]
    digits, and raises a [ValueError] on every other string. *)
Lemma int_decimal_string F :
  is_decimal_string F = true →
  (Z.of_nat (String.length F) ≤ int_max_str_digits)%Z →
  int F = Ok (decimal_value 0 F).
Proof.
  unfold is_decimal_string, int. intros H Hlen.
  pose proof H as [_ Hall]%andb_true_iff.
  rewrite (leading_decimals_all _ Hall), H.
  by destruct (Z.ltb_spec int_max_str_digits (Z.of_nat (String.length F))); [lia|].
Qed.

Lemma is_factor_int F :
  is_factor F = true → isdigit F = true ∧ int F = Ok (decimal_value 0 F).
Proof.
  unfold is_factor. intros [HF Hlen]%andb_true_iff.
  split; [by apply is_decimal_string_isdigit|].
  apply int_decimal_string; [done|]. by apply Z.leb_le.
Qed.

Lemma int_raises F e : int F = Raise e → ∃ msg, e = ValueError msg.
Proof. unfold int. intros H. repeat case_match; simplify_eq; by eexists. Qed.

Lemma int_ok F n : int F = Ok n → is_factor F = true ∧ n = decimal_value 0 F.
Proof.
  unfold int, is_factor, is_decimal_string. intros H.
  destruct (Z.ltb_spec int_max_str_digits (Z.of_nat (leading_decimals F)));
    [done|].
  destruct (negb (String.eqb F "") && forallb_string is_decimal F) eqn:HF;
    [|done].
  simplify_eq. split; [|done]. apply andb_true_iff. split; [done|].
  apply andb_true_iff in HF as [_ Hall].
  rewrite <-(leading_decimals_all _ Hall). by apply Z.leb_le.
Qed.

Lemma not_factor_int F : is_factor F = false → ∃ msg, int F = Raise (ValueError msg).
Proof.
  intros HF. destruct (int F) as [n|e] eqn:Hint.
  - apply int_ok in Hint as [? _]. congruence.
  - apply int_raises in Hint as [msg ->]. by eexists.
Qed.

(** Every message of [get_updated_value] differs from the message of the
    type check of [replace_default_values]. *)
Lemma guv_not_type_error (uv : list (string * value)) s t :
  guv uv s ≠
    Raise (ValueError ("Config to update must be dict or list, found " +:+ t)).
Proof.
  unfold get_updated_value, int, py_add, py_mul.
  repeat (case_match; simplify_eq); cbv [String.append]; congruence.
Qed.

Section Replace.
Variables (nb ni boc : value) (kw : list (string * value)).
Let uv := make_updated_values nb ni boc kw.

Lemma first_error_entries (l : list value) :
  Forall (fun v => first_error (map (guv uv) (placeholder_strings uv v)) =
                   first_error [entry v nb ni boc kw]) l →
  first_error (map (guv uv) (filter (fun s => is_placeholder uv s = true)
                               (concat (map strings l)))) =
  first_error (map (fun v => entry v nb ni boc kw) l).
Proof.
  induction 1 as [|v l Hv _ IH]; simpl; [done|].
  rewrite filter_app, map_app, first_error_app.
  unfold placeholder_strings in Hv. rewrite Hv, IH. simpl.
  by destruct (entry v nb ni boc kw).
Qed.

Lemma first_error_on_ok {A B} (f : A → outcome B) (g : B → B) l :
  first_error (map (fun x => on_ok (f x) (fun y => Ok (g y))) l) =
  first_error (map f l).
Proof.
  induction l as [|x l IH]; simpl; [done|]. by destruct (f x).
Qed.

(** The outcome of an entry is the first exception, if any, that
    [get_updated_value] raises on the placeholder strings of the entry, in
    the order of the traversal. *)
Lemma entry_first_error (v : value) :
  first_error (map (guv uv) (placeholder_strings uv v)) =
  first_error [entry v nb ni boc kw].
Proof.
  induction v as [| | | |s|l IH|d IH] using value_ind; try done.
  - unfold placeholder_strings, replace_entry. simpl.
    rewrite filter_cons, filter_nil. fold uv. unfold is_placeholder.
    destruct (dict_mem uv (var_name s)) eqn:Hmem.
    + rewrite decide_True by done. done.
    + rewrite decide_False by done. done.
  - unfold placeholder_strings. simpl strings.
    rewrite (first_error_entries l IH).
    change (entry (VList l) nb ni boc kw) with (rdv (VList l) nb ni boc kw).
    rewrite rdv_list.
    pose proof (for_each_first_error (fun v => entry v nb ni boc kw) l) as H.
    destruct (for_each _ l); by rewrite H.
  - unfold placeholder_strings. simpl strings.
    rewrite <-(map_map snd strings).
    rewrite (first_error_entries (map snd d)) by (by apply Forall_map).
    change (entry (VDict d) nb ni boc kw) with (rdv (VDict d) nb ni boc kw).
    rewrite rdv_dict.
    pose proof (for_each_first_error
      (fun kv : string * value =>
         on_ok (entry kv.2 nb ni boc kw) (fun v' => Ok (kv.1, v'))) d) as H.
    assert (Hmap : first_error (map (fun v => entry v nb ni boc kw) (map snd d)) =
      first_error (map (fun kv : string * value =>
         on_ok (entry kv.2 nb ni boc kw) (fun v' => Ok (kv.1, v'))) d)).
    { rewrite map_map. clear. induction d as [|[k v] d IHd]; simpl; [done|].
      by destruct (entry v nb ni boc kw). }
    rewrite Hmap. destruct (for_each _ d); by rewrite H.
Qed.

(** On a dictionary or a list [replace_default_values] raises the first
    exception that [get_updated_value] raises on the placeholder strings,
    and returns when there is none. *)
Lemma rdv_first_error (config : value) :
  is_container config = true →
  match rdv config nb ni boc kw with
  | Ok _ => first_error (map (guv uv) (placeholder_strings uv config)) = None
  | Raise e => first_error (map (guv uv) (placeholder_strings uv config)) = Some e
  end.
Proof.
  intros Hc. rewrite entry_first_error.
  destruct config as [| | | | |l|d]; try done.
  - change (entry (VList l) nb ni boc kw) with (rdv (VList l) nb ni boc kw).
    by destruct (rdv (VList l) nb ni boc kw).
  - change (entry (VDict d) nb ni boc kw) with (rdv (VDict d) nb ni boc kw).
    by destruct (rdv (VDict d) nb ni boc kw).
Qed.




Lemma rdv_list_inv l r :
  rdv (VList l) nb ni boc kw = Ok r →
  ∃ l', r = VList l' ∧ Forall2 (fun v v' => entry v nb ni boc kw = Ok v') l l'.
Proof.
  rewrite rdv_list. intros H.
  destruct (for_each _ l) as [l'|] eqn:Hl; simpl in H; simplify_eq.
  exists l'. split; [done|]. by apply for_each_ok.
Qed.

Lemma rdv_dict_inv d r :
  rdv (VDict d) nb ni boc kw = Ok r →
  ∃ d', r = VDict d' ∧
    Forall2 (fun kv kv' => kv'.1 = kv.1 ∧ entry kv.2 nb ni boc kw = Ok kv'.2) d d'.
Proof.
  rewrite rdv_dict. intros H.
  destruct (for_each _ d) as [d'|] eqn:Hd; simpl in H; simplify_eq.
  exists d'. split; [done|]. apply for_each_ok in Hd.
  eapply Forall2_impl; [exact Hd|]. intros [k v] [k' v'] Hkv. simpl in *.
  destruct (entry v nb ni boc kw); simpl in Hkv; by simplify_eq.
Qed.





(** C6.  [replace_default_values] checks the type of [config]: on a value
    that is neither a dictionary nor a list it raises the [ValueError] that
    names the type of the value, and on a dictionary or a list it never
    raises a [ValueError] with this message, whatever the type named. *)
Theorem replace_default_values_type_check (config : value) :
  if is_container config
  then ∀ t, rdv config nb ni boc kw ≠
         Raise (ValueError ("Config to update must be dict or list, found " +:+ t))
  else rdv config nb ni boc kw =
         Raise (ValueError ("Config to update must be dict or list, found " +:+
                            type_name config)).
Proof.
  destruct (is_container config) eqn:Hc; [|by destruct config].
  intros t Hrun. pose proof (rdv_first_error config Hc) as Hfirst.
  rewrite Hrun in Hfirst. clear Hrun.
  induction (placeholder_strings uv config) as [|s l IH]; simpl in Hfirst;
    [done|].
  destruct (guv uv s) eqn:Hs; [by apply IH|].
  simplify_eq. by eapply guv_not_type_error.
Qed.

Lemma entry_placeholder s v :
  dict_get uv (var_name s) = Some v →
  entry (VStr s) nb ni boc kw = guv uv s.
Proof.
  intros Hv. unfold replace_entry. fold uv. unfold dict_mem. by rewrite Hv.
Qed.

Lemma entry_plain v :
  is_plain uv v = true → entry v nb ni boc kw = Ok v.
Proof.
  destruct v as [| | | |s| |]; try done.
  unfold is_plain, is_placeholder, replace_entry. fold uv.
  by destruct (dict_mem uv (var_name s)).
Qed.

(** A loop whose bodies return their item, but for the item at [i]. *)
Lemma for_each_one {A} (f : A → outcome A) l i x :
  l !! i = Some x → (∀ j y, j ≠ i → l !! j = Some y → f y = Ok y) →
  for_each f l = on_ok (f x) (fun y => Ok (<[i := y]> l)).
Proof.
  revert i. induction l as [|a l IH]; intros [|i] Hi Hothers; simplify_eq/=.
  - rewrite (for_each_id f l).
    + by destruct (f x).
    + apply Forall_forall. intros y Hy.
      apply list_elem_of_lookup in Hy as [j Hj]. by apply (Hothers (S j)).
  - rewrite (Hothers 0 a) by done. simpl.
    rewrite (IH i Hi) by (intros j y Hj; apply (Hothers (S j)); lia).
    by destruct (f x).
Qed.

(** C3 (amended).  For a string whose first token [name] is a placeholder
    with the supplied value [v]: a bare ["name"] is replaced by [v];
    ["name + F"] and ["name x F"], with a factor [F] of decimal digits that
    [int] converts, by [v + int(F)] and [v * int(F)], Python's sum and
    product, which on an integer [v] are the integer sum and product and
    which raise on other values where Python does; every other shape (a
    factor that is no decimal number or has too many digits, another
    operator, a number of tokens other than 1 and 3) raises a [ValueError].
    [replace_default_values] puts the value computed for the string in the
    place of the string, in a dictionary and in a list, and raises when the
    string raises: with the other entries left as they are, the result is
    the input with this one entry replaced. *)
Theorem get_updated_value_arithmetic s v :
  dict_get uv (var_name s) = Some v → v ≠ VNone →
  (var_parts s = [var_name s] → guv uv s = Ok v) ∧
  (∀ F, var_parts s = [var_name s; "+"; F] → is_factor F = true →
     guv uv s = py_add float_add float_of_int v (decimal_value 0 F) ∧
     ∀ n, v = VInt n → guv uv s = Ok (VInt (n + decimal_value 0 F))) ∧
  (∀ F, var_parts s = [var_name s; "x"; F] → is_factor F = true →
     guv uv s = py_mul float_mul float_of_int memory v (decimal_value 0 F) ∧
     ∀ n, v = VInt n → guv uv s = Ok (VInt (n * decimal_value 0 F))) ∧
  (well_formed s = false → ∃ msg, guv uv s = Raise (ValueError msg)) ∧
  (∀ d i k, d !! i = Some (k, VStr s) →
     (∀ r, rdv (VDict d) nb ni boc kw = Ok r →
        ∃ d' v', r = VDict d' ∧ guv uv s = Ok v' ∧ d' !! i = Some (k, v')) ∧
     ((∀ j kv, j ≠ i → d !! j = Some kv → is_plain uv kv.2 = true) →
      rdv (VDict d) nb ni boc kw =
        on_ok (guv uv s) (fun v' => Ok (VDict (<[i := (k, v')]> d))))) ∧
  (∀ l i, l !! i = Some (VStr s) →
     (∀ r, rdv (VList l) nb ni boc kw = Ok r →
        ∃ l' v', r = VList l' ∧ guv uv s = Ok v' ∧ l' !! i = Some v') ∧
     ((∀ j x, j ≠ i → l !! j = Some x → is_plain uv x = true) →
      rdv (VList l) nb ni boc kw =
        on_ok (guv uv s) (fun v' => Ok (VList (<[i := v']> l))))).
Proof.
  intros Hv Hnn. pose proof (guv_some uv s v Hv Hnn) as Hguv.
  split; [|split; [|split; [|split; [|split]]]].
  - intros Hp. by rewrite Hguv, Hp.
  - intros F Hp HF. rewrite Hguv, Hp.
    destruct (is_factor_int _ HF) as [-> ->]. simpl.
    split; [done|]. by intros n ->.
  - intros F Hp HF. rewrite Hguv, Hp.
    destruct (is_factor_int _ HF) as [-> ->]. simpl.
    split; [done|]. by intros n ->.
  - intros Hwf. rewrite Hguv. unfold well_formed in Hwf.
    destruct (var_parts s) as [|p0 [|op [|F [|]]]]; try done; try by eexists.
    destruct (isdigit F) eqn:Hd; simpl; [|by eexists].
    destruct (is_factor F) eqn:HF.
    + rewrite andb_true_r in Hwf. apply orb_false_iff in Hwf as [-> ->].
      destruct (is_factor_int _ HF) as [_ ->]. by eexists.
    + destruct (not_factor_int F HF) as [msg ->]. by eexists.
  - intros d i k Hi. split.
    + intros r Hrun.
      apply rdv_dict_inv in Hrun as (d' & -> & Hall).
      destruct (Forall2_lookup_l _ _ _ _ _ Hall Hi) as ([k' v'] & Hi' & Hk & He).
      cbn [fst snd] in Hk, He. subst k'.
      rewrite (entry_placeholder s v Hv) in He. by exists d', v'.
    + intros Hplain. rewrite rdv_dict.
      rewrite (for_each_one _ d i (k, VStr s) Hi).
      * cbn [fst snd]. rewrite (entry_placeholder s v Hv).
        by destruct (guv uv s).
      * intros j [kj vj] Hj Hdj. cbn [fst snd].
        by rewrite (entry_plain vj (Hplain j _ Hj Hdj)).
  - intros l i Hi. split.
    + intros r Hrun.
      apply rdv_list_inv in Hrun as (l' & -> & Hall).
      destruct (Forall2_lookup_l _ _ _ _ _ Hall Hi) as (v' & Hi' & He).
      rewrite (entry_placeholder s v Hv) in He. by exists l', v'.
    + intros Hplain. rewrite rdv_list.
      rewrite (for_each_one _ l i (VStr s) Hi).
      * rewrite (entry_placeholder s v Hv). by destruct (guv uv s).
      * intros j x Hj Hlj. by apply entry_plain, (Hplain j).
Qed.

(** *** Integer placeholders *)

Lemma dict_get_set (d : list (string * value)) k v k' :
  dict_get (dict_set d k v) k' =
    if String.eqb k k' then Some v else dict_get d k'.
Proof.
  induction d as [|[k0 v0] d IH]; simpl.
  - done.
  - destruct (String.eqb_spec k0 k) as [->|Hne]; simpl.
    + by destruct (String.eqb k k').
    + rewrite IH. destruct (String.eqb_spec k0 k') as [->|?]; [|done].
      destruct (String.eqb_spec k k'); [congruence|done].
Qed.

Lemma updated_values_int_or_none :
  is_int_or_none nb = true → is_int_or_none ni = true →
  is_int_or_none boc = true →
  Forall (fun kv => is_int_or_none kv.2 = true) kw →
  ∀ k v, dict_get uv k = Some v → is_int_or_none v = true.
Proof.
  intros Hnb Hni Hboc Hkw. unfold uv, make_updated_values.
  assert (Hbase : ∀ k v,
    dict_get [("num_bodyparts", nb); ("num_individuals", ni);
              ("backbone_output_channels", boc)] k = Some v →
    is_int_or_none v = true).
  { intros k v. cbn [dict_get].
    destruct (String.eqb "num_bodyparts" k); [intros; by simplify_eq|].
    destruct (String.eqb "num_individuals" k); [intros; by simplify_eq|].
    destruct (String.eqb "backbone_output_channels" k); [|done].
    intros; by simplify_eq. }
  revert Hbase. generalize [("num_bodyparts", nb); ("num_individuals", ni);
                            ("backbone_output_channels", boc)].
  induction Hkw as [|[k0 v0] kw' Hv0 _ IH]; intros d Hd; simpl; [done|].
  apply IH. intros k v. rewrite dict_get_set. simpl.
  destruct (String.eqb k0 k); [intros; by simplify_eq|apply Hd].
Qed.

Section IntegerValues.
Hypothesis Hint : ∀ k v, dict_get uv k = Some v → is_int_or_none v = true.

Lemma guv_int_result s v' : guv uv s = Ok v' → is_int v' = true.
Proof.
  unfold get_updated_value. intros H.
  destruct (dict_get uv _) as [v|] eqn:Hv; [|done].
  apply Hint in Hv. destruct v; try done.
  unfold py_add, py_mul in H. repeat case_match; by simplify_eq.
Qed.

Lemma placeholder_strings_concat (l : list value) :
  Forall (fun v => placeholder_strings uv v = []) l →
  filter (fun s => is_placeholder uv s = true) (concat (map strings l)) = [].
Proof.
  induction 1 as [|v l Hv _ IH]; simpl; [done|].
  rewrite filter_app, IH. unfold placeholder_strings in Hv. by rewrite Hv.
Qed.

(** An entry that has been replaced has the structure of the entry it
    comes from, holds no placeholder string and is replaced by itself. *)
Lemma entry_idempotent (v : value) :
  ∀ v', entry v nb ni boc kw = Ok v' →
    same_structure v v' ∧ placeholder_strings uv v' = [] ∧
    entry v' nb ni boc kw = Ok v'.
Proof.
  induction v as [| | | |s|l IH|d IH] using value_ind; intros v' Hv';
    try (unfold replace_entry in Hv'; simplify_eq;
         split; [by constructor|done]).
  - unfold replace_entry in Hv'. fold uv in Hv'.
    destruct (dict_mem uv (var_name s)) eqn:Hmem.
    + apply guv_int_result in Hv'. destruct v'; try done.
      split; [by constructor|done].
    + simplify_eq. split; [by constructor|]. split.
      * unfold placeholder_strings. simpl. rewrite filter_cons, filter_nil.
        unfold is_placeholder. rewrite Hmem. by rewrite decide_False.
      * unfold replace_entry. fold uv. by rewrite Hmem.
  - change (entry (VList l) nb ni boc kw) with (rdv (VList l) nb ni boc kw) in Hv'.
    apply rdv_list_inv in Hv' as (l' & -> & Hall).
    assert (Hall' : Forall2 (fun v v' =>
      same_structure v v' ∧ placeholder_strings uv v' = [] ∧
      entry v' nb ni boc kw = Ok v') l l').
    { clear -IH Hall. induction Hall as [|v v' l l' Hv _ IHl];
        inversion IH; simplify_eq; constructor; auto. }
    split; [|split].
    + apply same_list. eapply Forall2_impl; [exact Hall'|]. by intros ?? [? _].
    + unfold placeholder_strings. simpl strings.
      apply placeholder_strings_concat.
      apply (Forall2_Forall_r _ _ _ _ Hall'), Forall_true. by intros ?? (_ & ? & _).
    + change (entry (VList l') nb ni boc kw) with (rdv (VList l') nb ni boc kw).
      rewrite rdv_list.
      assert (Hl' : for_each (fun v => entry v nb ni boc kw) l' = Ok l').
      { apply for_each_ok. clear -Hall'.
        induction Hall' as [|???? (_ & _ & ?)]; by constructor. }
      by rewrite Hl'.
  - change (entry (VDict d) nb ni boc kw) with (rdv (VDict d) nb ni boc kw) in Hv'.
    apply rdv_dict_inv in Hv' as (d' & -> & Hall).
    assert (Hall' : Forall2 (fun kv kv' =>
      kv.1 = kv'.1 ∧ same_structure kv.2 kv'.2 ∧
      placeholder_strings uv kv'.2 = [] ∧
      entry kv'.2 nb ni boc kw = Ok kv'.2) d d').
    { clear -IH Hall. induction Hall as [|kv kv' d d' [Hk Hv] _ IHd];
        inversion IH; simplify_eq; constructor; [|by auto].
        split; [done|]. auto. }
    split; [|split].
    + apply same_dict. eapply Forall2_impl; [exact Hall'|]. by intros ?? (? & ? & _).
    + unfold placeholder_strings. simpl strings.
      rewrite <-(map_map snd strings). apply placeholder_strings_concat.
      apply Forall_map.
      apply (Forall2_Forall_r _ _ _ _ Hall'), Forall_true.
      by intros ?? (_ & _ & ? & _).
    + change (entry (VDict d') nb ni boc kw) with (rdv (VDict d') nb ni boc kw).
      rewrite rdv_dict.
      assert (Hd' : for_each (fun kv : string * value =>
                 on_ok (entry kv.2 nb ni boc kw) (fun v' => Ok (kv.1, v'))) d'
               = Ok d').
      { apply for_each_ok. clear -Hall'.
        induction Hall' as [|? [k v] ?? (_ & _ & _ & He)]; constructor; [|done].
        simpl in *. by rewrite He. }
      by rewrite Hd'.
Qed.

End IntegerValues.

(** C10.  When every supplied placeholder value is an integer (or is not
    given), a configuration returned by [replace_default_values] has the keys
    and the lengths of the input at every nesting level, holds no placeholder
    string, and is returned unchanged by a second call with the same
    arguments. *)
Theorem replace_default_values_idempotent (config r : value) :
  is_int_or_none nb = true → is_int_or_none ni = true →
  is_int_or_none boc = true →
  Forall (fun kv => is_int_or_none kv.2 = true) kw →
  rdv config nb ni boc kw = Ok r →
  same_structure config r ∧
  placeholder_strings uv r = [] ∧
  rdv r nb ni boc kw = Ok r.
Proof.
  intros Hnb Hni Hboc Hkw Hrun.
  pose proof (updated_values_int_or_none Hnb Hni Hboc Hkw) as Hint.
  destruct config as [| | | | |l|d]; try done.
  - destruct (entry_idempotent Hint (VList l) r Hrun) as (Hs & Hp & Hr).
    split; [done|]. split; [done|].
    apply rdv_list_inv in Hrun as (l' & -> & _). exact Hr.
  - destruct (entry_idempotent Hint (VDict d) r Hrun) as (Hs & Hp & Hr).
    split; [done|]. split; [done|].
    apply rdv_dict_inv in Hrun as (d' & -> & _). exact Hr.
Qed.

(** *** Further results on replace_default_values *)



(** X8.  Whatever the values of the placeholders, the dictionary that
    [replace_default_values] returns for a dictionary has the keys of the
    input in their order, and the list it returns for a list has the length
    of the input. *)
Theorem replace_default_values_keeps_keys (config r : value) :
  rdv config nb ni boc kw = Ok r →
  match config, r with
  | VDict d, VDict d' => d'.*1 = d.*1
  | VList l, VList l' => length l' = length l
  | _, _ => False
  end.
Proof.
  intros Hrun. destruct config as [| | | | |l|d]; try done.
  - apply rdv_list_inv in Hrun as (l' & -> & Hall).
    symmetry. by eapply Forall2_length.
  - apply rdv_dict_inv in Hrun as (d' & -> & Hall).
    induction Hall as [|[k v] [k' v'] d d' [Hk _] _ IH]; [done|].
    cbn [fst] in Hk. rewrite !fmap_cons. cbn [fst]. by f_equal.
Qed.

(** X9.  An entry that is neither a dictionary, nor a list, nor a string
    whose first token is a placeholder, is found unchanged at its place in
    the result. *)
Theorem replace_default_values_keeps_other_entries (config r v : value) :
  rdv config nb ni boc kw = Ok r →
  is_container v = false →
  (∀ s, v = VStr s → is_placeholder uv s = false) →
  match config, r with
  | VDict d, VDict d' => ∀ i k, d !! i = Some (k, v) → d' !! i = Some (k, v)
  | VList l, VList l' => ∀ i, l !! i = Some v → l' !! i = Some v
  | _, _ => False
  end.
Proof.
  intros Hrun Hv Hs.
  assert (He : entry v nb ni boc kw = Ok v).
  { destruct v as [| | | |s| |]; try done.
    unfold replace_entry. fold uv.
    specialize (Hs s eq_refl). unfold is_placeholder in Hs. by rewrite Hs. }
  destruct config as [| | | | |l|d]; try done.
  - apply rdv_list_inv in Hrun as (l' & -> & Hall). intros i Hi.
    destruct (Forall2_lookup_l _ _ _ _ _ Hall Hi) as (v' & Hi' & Hv').
    rewrite He in Hv'. by simplify_eq.
  - apply rdv_dict_inv in Hrun as (d' & -> & Hall). intros i k Hi.
    destruct (Forall2_lookup_l _ _ _ _ _ Hall Hi) as ([k' v'] & Hi' & Hk & Hv').
    cbn [fst snd] in Hk, Hv'. rewrite He in Hv'. by simplify_eq.
Qed.

(** X10.  The value that [get_updated_value] computes for a string is
    never [None]. *)
Theorem get_updated_value_not_none (updated_values : list (string * value)) s v :
  guv updated_values s = Ok v → v ≠ VNone.
Proof.
  unfold get_updated_value, py_add, py_mul. intros H.
  repeat (case_match; simplify_eq); done.
Qed.

End Replace.

(** *** White space around a placeholder *)

Lemma append_cons c s t : String c s +:+ t = String c (s +:+ t).
Proof. reflexivity. Qed.

Lemma append_nil_r s : s +:+ "" = s.
Proof. induction s as [|c s IH]; [done|]. by rewrite append_cons, IH. Qed.

Lemma append_assoc s t u : (s +:+ t) +:+ u = s +:+ (t +:+ u).
Proof. induction s as [|c s IH]; [done|]. by rewrite !append_cons, IH. Qed.

Lemma rev_app_acc s acc : String.rev_app s acc = String.rev s +:+ acc.
Proof.
  unfold String.rev. revert acc. induction s as [|c s IH]; intros acc; [done|].
  simpl. rewrite (IH (String c acc)), (IH (String c "")).
  by rewrite append_assoc.
Qed.

Lemma rev_app_append s t acc :
  String.rev_app (s +:+ t) acc = String.rev_app t (String.rev_app s acc).
Proof.
  revert acc. induction s as [|c s IH]; intros acc; [done|].
  rewrite ?append_cons. simpl. apply IH.
Qed.

Lemma rev_append s t : String.rev (s +:+ t) = String.rev t +:+ String.rev s.
Proof.
  unfold String.rev at 1. rewrite rev_app_append.
  by rewrite rev_app_acc.
Qed.

Lemma forallb_string_append p s t :
  forallb_string p (s +:+ t) = forallb_string p s && forallb_string p t.
Proof.
  induction s as [|c s IH]; [done|].
  rewrite ?append_cons. simpl. by rewrite IH, andb_assoc.
Qed.

Lemma forallb_string_rev p s :
  forallb_string p (String.rev s) = forallb_string p s.
Proof.
  induction s as [|c s IH]; [done|].
  change (String c s) with (String c "" +:+ s) at 1.
  rewrite rev_append, forallb_string_append, IH. simpl.
  rewrite andb_true_r. apply andb_comm.
Qed.

Lemma rev_involutive s : String.rev (String.rev s) = s.
Proof.
  induction s as [|c s IH]; [done|].
  change (String c s) with (String c "" +:+ s) at 1.
  by rewrite rev_append, rev_append, IH.
Qed.

Lemma lstrip_spaces p t :
  forallb_string is_space p = true → lstrip (p +:+ t) = lstrip t.
Proof.
  induction p as [|c p IH]; [done|]. simpl.
  intros [Hc Hp]%andb_true_iff. rewrite ?append_cons. simpl. rewrite Hc. auto.
Qed.

Lemma lstrip_all_space s : forallb_string is_space s = true ↔ lstrip s = "".
Proof.
  induction s as [|c s IH]; [done|]. simpl.
  destruct (is_space c); simpl; [done|]. split; done.
Qed.

Lemma lstrip_append s p : lstrip s ≠ "" → lstrip (s +:+ p) = lstrip s +:+ p.
Proof.
  induction s as [|c s IH]; [done|]. rewrite ?append_cons. simpl.
  destruct (is_space c); [done|]. intros _. by rewrite ?append_cons.
Qed.

Lemma rstrip_spaces t p :
  forallb_string is_space p = true → rstrip (t +:+ p) = rstrip t.
Proof.
  intros Hp. unfold rstrip. rewrite rev_append, lstrip_spaces; [done|].
  by rewrite forallb_string_rev.
Qed.

(** White space before and after a string makes no difference to
    [strip]. *)
Lemma strip_padded l s r :
  forallb_string is_space l = true → forallb_string is_space r = true →
  strip (l +:+ s +:+ r) = strip s.
Proof.
  intros Hl Hr. unfold strip. rewrite lstrip_spaces by done.
  destruct (decide (lstrip s = "")) as [Hs|Hs].
  - rewrite Hs. apply lstrip_all_space in Hs.
    assert (Hsr : lstrip (s +:+ r) = "").
    { apply lstrip_all_space. by rewrite forallb_string_append, Hs, Hr. }
    by rewrite Hsr.
  - by rewrite lstrip_append, rstrip_spaces.
Qed.

(** X11.  White space around a string makes no difference to what it is
    replaced by: the parts of the padded string are those of the string,
    and when the string has a value the padded string has the same. *)
Theorem get_updated_value_ignores_padding (updated_values : list (string * value))
    l s r :
  forallb_string is_space l = true → forallb_string is_space r = true →
  var_parts (l +:+ s +:+ r) = var_parts s ∧
  ∀ v, guv updated_values s = Ok v →
       guv updated_values (l +:+ s +:+ r) = Ok v.
Proof.
  intros Hl Hr.
  assert (Hparts : var_parts (l +:+ s +:+ r) = var_parts s).
  { unfold var_parts. by rewrite strip_padded. }
  split; [done|]. unfold get_updated_value. rewrite Hparts.
  intros v H. unfold py_add, py_mul in *.
  repeat (case_match; simplify_eq); done.
Qed.



End ConfigFacts.

(** ** The merge of two configurations *)

Section MergeFacts.
Context {float : Type}.
Import Config ConfigSpec.

Local Abbreviation value := (@value float).

Lemma dict_get_None (d : list (string * value)) k :
  dict_get d k = None ↔ k ∉ d.*1.
Proof.
  induction d as [|[k0 v0] d IH]; simpl.
  - split; [intros _; apply not_elem_of_nil|done].
  - rewrite not_elem_of_cons. destruct (String.eqb_spec k0 k) as [->|Hne].
    + split; [done|]. by intros [? _].
    + rewrite IH. split; [by split|by intros [_ ?]].
Qed.

(** One round of the merge sets the key to the merged value. *)
Lemma merged_unfold (config items : list (string * value)) :
  merged config (VDict items) =
    foldl (fun config kv =>
             dict_set config kv.1
               (match dict_get config kv.1, kv.2 with
                | Some (VDict ck), VDict _ => VDict (merged ck kv.2)
                | _, _ => kv.2
                end))
          config items.
Proof.
  cbn [merged].
  revert config. induction items as [|[k v] items IH]; intros config; [done|].
  cbn [foldl fst snd]. rewrite <-IH. f_equal.
  destruct (dict_get config k) as [[]|]; try done; destruct v; done.
Qed.

Lemma foldl_update_lookup (g : option value → value → value)
    (items config : list (string * value)) :
  NoDup items.*1 →
  let r := foldl (fun config kv =>
                    dict_set config kv.1 (g (dict_get config kv.1) kv.2))
                 config items in
  (∀ k v, dict_get items k = Some v →
          dict_get r k = Some (g (dict_get config k) v)) ∧
  (∀ k, dict_get items k = None → dict_get r k = dict_get config k).
Proof.
  revert config. induction items as [|[k0 v0] items IH]; intros config Hnd.
  { split; [done|]. by intros. }
  apply NoDup_cons in Hnd as [Hk0 Hnd]. cbn [foldl fst snd].
  destruct (IH (dict_set config k0 (g (dict_get config k0) v0)) Hnd)
    as [IH1 IH2].
  split.
  - intros k v. cbn [dict_get].
    destruct (String.eqb_spec k0 k) as [->|Hne]; intros Hk.
    + simplify_eq. rewrite IH2 by (by apply dict_get_None).
      by rewrite dict_get_set, String.eqb_refl.
    + rewrite (IH1 k v Hk), dict_get_set.
      by destruct (String.eqb_spec k0 k).
  - intros k. cbn [dict_get].
    destruct (String.eqb_spec k0 k) as [->|Hne]; [done|]. intros Hk.
    rewrite (IH2 k Hk), dict_get_set. by destruct (String.eqb_spec k0 k).
Qed.

(** For every key [k] of [updates], the merge has at [k] the merge of
    [config[k]] and [updates[k]] when [k] is in [config] and both values are
    dictionaries, and [updates[k]] otherwise; every key of [config] that is
    not in [updates] keeps its value (and no other key is added). *)
Lemma merged_lookup (config updates : list (string * value)) :
  NoDup updates.*1 →
  (∀ k v, dict_get updates k = Some v →
     dict_get (merged config (VDict updates)) k =
       Some (match dict_get config k, v with
             | Some (VDict ck), VDict _ => VDict (merged ck v)
             | _, _ => v
             end)) ∧
  (∀ k, dict_get updates k = None →
     dict_get (merged config (VDict updates)) k = dict_get config k).
Proof.
  intros Hnd. rewrite merged_unfold.
  apply (foldl_update_lookup
           (fun o v => match o, v with
                       | Some (VDict ck), VDict _ => VDict (merged ck v)
                       | _, _ => v
                       end) updates config Hnd).
Qed.

Lemma dict_set_keys (d : list (string * value)) k v :
  (dict_set d k v).*1 = if dict_mem d k then d.*1 else d.*1 ++ [k].
Proof.
  unfold dict_mem. induction d as [|[k0 v0] d IH]; [done|].
  cbn [dict_set dict_get]. destruct (String.eqb k0 k); [done|].
  rewrite !fmap_cons, IH. by destruct (dict_get d k).
Qed.

Lemma dict_mem_false (d : list (string * value)) k :
  dict_mem d k = false ↔ k ∉ d.*1.
Proof.
  rewrite <-dict_get_None. unfold dict_mem. by destruct (dict_get d k).
Qed.

Lemma filter_ext_Forall {A} (P1 P2 : A → Prop)
    `{!∀ x, Decision (P1 x), !∀ x, Decision (P2 x)} (l : list A) :
  Forall (fun x => P1 x ↔ P2 x) l → filter P1 l = filter P2 l.
Proof.
  induction 1 as [|x l Hx _ IH]; [done|]. rewrite !filter_cons, IH.
  destruct (decide (P1 x)), (decide (P2 x)); tauto.
Qed.

Lemma foldl_update_keys (g : list (string * value) → string * value → value)
    (items config : list (string * value)) :
  NoDup items.*1 →
  (foldl (fun config kv => dict_set config kv.1 (g config kv)) config items).*1 =
  config.*1 ++ filter (fun k => dict_mem config k = false) items.*1.
Proof.
  revert config. induction items as [|[k0 v0] items IH]; intros config Hnd.
  { simpl. by rewrite filter_nil, app_nil_r. }
  rewrite fmap_cons in Hnd. apply NoDup_cons in Hnd as [Hk0 Hnd].
  cbn [foldl fst]. rewrite IH by done. rewrite fmap_cons, filter_cons.
  cbn [fst]. rewrite dict_set_keys.
  assert (Hfilter : ∀ v,
    filter (fun k => dict_mem (dict_set config k0 v) k = false) items.*1 =
    filter (fun k => dict_mem config k = false) items.*1).
  { intros v. apply filter_ext_Forall, Forall_forall. intros k Hk.
    unfold dict_mem. rewrite dict_get_set.
    destruct (String.eqb_spec k0 k) as [->|Hne]; [done|]. done. }
  rewrite Hfilter. destruct (dict_mem config k0) eqn:Hmem.
  - by rewrite decide_False.
  - rewrite decide_True by done. by rewrite <-app_assoc.
Qed.

(** The keys of the merge are the keys of [config], in their order,
    followed by the keys of [updates] that [config] does not have, in the
    order of [updates]. *)
Lemma merged_keys (config updates : list (string * value)) :
  NoDup updates.*1 →
  (merged config (VDict updates)).*1 =
  config.*1 ++ filter (fun k => dict_mem config k = false) updates.*1.
Proof.
  intros Hnd. rewrite merged_unfold.
  apply (foldl_update_keys
           (fun config kv =>
              match dict_get config kv.1, kv.2 with
              | Some (VDict ck), VDict _ => VDict (merged ck kv.2)
              | _, _ => kv.2
              end) updates config Hnd).
Qed.

Lemma dict_set_same (d : list (string * value)) k v :
  dict_get d k = Some v → dict_set d k v = d.
Proof.
  induction d as [|[k0 v0] d IH]; simpl; [done|].
  destruct (String.eqb k0 k); [intros; by simplify_eq|].
  intros H. by rewrite IH.
Qed.

Lemma dict_get_elem (d : list (string * value)) k v :
  NoDup d.*1 → (k, v) ∈ d → dict_get d k = Some v.
Proof.
  induction d as [|[k0 v0] d IH]; intros Hnd Hin; [by apply elem_of_nil in Hin|].
  rewrite fmap_cons in Hnd. apply NoDup_cons in Hnd as [Hk0 Hnd]. simpl.
  apply elem_of_cons in Hin as [Heq|Hin].
  - simplify_eq. by rewrite String.eqb_refl.
  - destruct (String.eqb_spec k0 k) as [->|Hne]; [|by apply IH].
    exfalso. apply Hk0. apply list_elem_of_fmap. by exists (k, v).
Qed.

Lemma foldl_fixed {A B} (f : A → B → A) (a : A) (l : list B) :
  (∀ x, x ∈ l → f a x = a) → foldl f a l = a.
Proof.
  induction l as [|x l IH]; intros H; simpl; [done|].
  rewrite (H x) by (by left). apply IH. intros y Hy. apply H. by right.
Qed.

(** A value merged into itself is the value, and merging the same updates a
    second time changes nothing. *)
Lemma merged_twice (v : value) :
  distinct_keys v →
  match v with
  | VDict u =>
      merged u v = u ∧
      (∀ config, merged (merged config v) v = merged config v)
  | _ => True
  end.
Proof.
  induction v as [| | | | | |u IH] using value_ind; try done.
  intros Hd. inversion Hd as [? Hc| |? Hnd Hall]; [done|]. subst.
  assert (Hself : ∀ x xu, x = VDict xu → (∃ k, (k, x) ∈ u) →
                  merged xu x = xu).
  { intros x xu -> [k Hin].
    rewrite Forall_forall in IH, Hall.
    by destruct (IH _ Hin (Hall _ Hin)) as [Hs _]. }
  assert (Hmerge : ∀ k x m, (k, x) ∈ u →
    match m, x with
    | Some (VDict ck), VDict _ => VDict (merged ck x)
    | _, _ => x
    end =
    match Some (match m, x with
                | Some (VDict ck), VDict _ => VDict (merged ck x)
                | _, _ => x
                end), x with
    | Some (VDict ck), VDict _ => VDict (merged ck x)
    | _, _ => x
    end).
  { intros k x m Hin. rewrite Forall_forall in IH, Hall.
    pose proof (IH _ Hin (Hall _ Hin)) as Hx. cbn [snd] in Hx.
    destruct x as [| | | | | |xu]; try by destruct m as [[]|].
    destruct Hx as [Hs Hi].
    destruct m as [[| | | | | |ck]|]; try (by rewrite Hs).
    by rewrite Hi. }
  split.
  - rewrite merged_unfold. apply foldl_fixed.
    intros [k x] Hin. cbn [fst snd].
    pose proof (dict_get_elem u k x Hnd Hin) as Hget. rewrite Hget.
    apply dict_set_same. rewrite Hget. f_equal.
    destruct x as [| | | | | |xu]; try done.
    by rewrite (Hself (VDict xu) xu eq_refl (ex_intro _ k Hin)).
  - intros config. rewrite (merged_unfold (merged config (VDict u)) u).
    apply foldl_fixed. intros [k x] Hin. cbn [fst snd].
    pose proof (dict_get_elem u k x Hnd Hin) as Hget.
    assert (Hr : dict_get (merged config (VDict u)) k =
      Some (match dict_get config k, x with
            | Some (VDict ck), VDict _ => VDict (merged ck x)
            | _, _ => x
            end)).
    { rewrite merged_unfold.
      apply (foldl_update_lookup
               (fun o v => match o, v with
                           | Some (VDict ck), VDict _ =>
                               VDict (merged ck v)
                           | _, _ => v
                           end) u config Hnd). exact Hget. }
    apply dict_set_same. rewrite Hr at 1. f_equal.
    rewrite Hr. by apply (Hmerge k).
Qed.

(** Merging the same dictionary a second time changes nothing, and a
    dictionary merged into itself stays as it is. *)
Lemma merged_idempotent (config updates : list (string * value)) :
  distinct_keys (VDict updates) →
  merged (merged config (VDict updates)) (VDict updates) =
    merged config (VDict updates) ∧
  merged updates (VDict updates) = updates.
Proof.
  intros Hd. destruct (merged_twice (VDict updates) Hd) as [Hs Hi].
  by split.
Qed.

End MergeFacts.



Lemma get_updated_value_arithmetic_witness :
  ConfigExamples.guv
    (Config.make_updated_values (Config.VInt 17) Config.VNone Config.VNone [])
    " num_bodyparts + 1 " = Ok (Config.VInt (17 + 1)) ∧
  ConfigExamples.rdv
    (Config.VDict [("method", Config.VStr "bu");
                   ("channels", Config.VStr " num_bodyparts + 1 ")])
    (Config.VInt 17) Config.VNone Config.VNone []
  = Ok (Config.VDict [("method", Config.VStr "bu");
                      ("channels", Config.VInt 18)]).
Proof.
  destruct (get_updated_value_arithmetic Qplus Qmult ConfigExamples.float_of_int ConfigExamples.memory
              (Config.VInt 17) Config.VNone Config.VNone []
              " num_bodyparts + 1 " (Config.VInt 17) eq_refl)
    as (_ & Hadd & _ & _ & Hdict & _); [discriminate|].
  destruct (Hadd "1" eq_refl eq_refl) as [_ Hint].
  specialize (Hint 17%Z eq_refl).
  split; [exact Hint|].
  destruct (Hdict [("method", Config.VStr "bu");
                   ("channels", Config.VStr " num_bodyparts + 1 ")]
              1 "channels" eq_refl) as [_ Hrun].
  unfold ConfigExamples.rdv. rewrite Hrun.
  - unfold ConfigExamples.guv in Hint. rewrite Hint. reflexivity.
  - intros [|[|j]] kv Hj Hkv; simpl in Hkv; simplify_eq; reflexivity.
Defined.

(** A factor of decimal digits is not always converted, and a product is
    not always computed: [int] refuses a factor of 4301 digits, so that the
    sum raises a [ValueError] and nothing is put in the place of the string;
    the product of a list and a factor beyond [sys.maxsize] raises an
    [OverflowError]. *)
Lemma get_updated_value_arithmetic_counterexample :
  let F := Config.string_repeat "1" 4301 in
  let s := "num_bodyparts + " +:+ F in
  let limit :=
    ValueError "Exceeds the limit (4300 digits) for integer string conversion: value has 4301 digits; use sys.set_int_max_str_digits() to increase the limit" in
  let uv :=
    Config.make_updated_values (Config.VInt 17) Config.VNone Config.VNone
      [("paf_graph", ConfigExamples.paf_graph)] in
  (Config.var_parts s = ["num_bodyparts"; "+"; F] ∧
   Config.isdigit F = true ∧
   ConfigSpec.is_decimal_string F = true ∧
   Config.dict_get uv (Config.var_name s) = Some (Config.VInt 17) ∧
   ConfigExamples.guv uv s = Raise limit ∧
   ConfigExamples.rdv (Config.VDict [("channels", Config.VStr s)])
     (Config.VInt 17) Config.VNone Config.VNone
     [("paf_graph", ConfigExamples.paf_graph)] = Raise limit) ∧
  (Config.var_parts "paf_graph x 9223372036854775808"
     = ["paf_graph"; "x"; "9223372036854775808"] ∧
   Config.isdigit "9223372036854775808" = true ∧
   Config.dict_get uv (Config.var_name "paf_graph x 9223372036854775808")
     = Some ConfigExamples.paf_graph ∧
   ConfigExamples.guv uv "paf_graph x 9223372036854775808"
     = Raise OverflowError).
Proof. vm_compute. repeat split. Qed.

Lemma replace_default_values_idempotent_witness :
  ConfigSpec.same_structure ConfigExamples.model_cfg
    ConfigExamples.model_cfg_replaced ∧
  ConfigSpec.placeholder_strings
    (Config.make_updated_values (Config.VInt 17) (Config.VInt 3)
       (Config.VInt 2048) [])
    ConfigExamples.model_cfg_replaced = [] ∧
  ConfigExamples.rdv ConfigExamples.model_cfg_replaced
    (Config.VInt 17) (Config.VInt 3) (Config.VInt 2048) []
  = Ok ConfigExamples.model_cfg_replaced.
Proof.
  apply (replace_default_values_idempotent Qplus Qmult ConfigExamples.float_of_int ConfigExamples.memory
           (Config.VInt 17) (Config.VInt 3) (Config.VInt 2048) []
           ConfigExamples.model_cfg ConfigExamples.model_cfg_replaced);
    try reflexivity.
  constructor.
Defined.

(** The placeholders of the example configuration, replaced. *)
Example replace_default_values_example :
  ConfigExamples.rdv ConfigExamples.model_cfg
    (Config.VInt 17) (Config.VInt 3) (Config.VInt 2048) []
  = Ok ConfigExamples.model_cfg_replaced.
Proof. vm_compute. reflexivity. Qed.

(** [int] rejects the superscript two, which [isdigit] accepts. *)
Example superscript_factor_example :
  Config.isdigit (String (ascii_of_nat 178) "") = true ∧
  ConfigExamples.guv
    (Config.make_updated_values (Config.VInt 17) Config.VNone Config.VNone [])
    ("num_bodyparts x " +:+ String (ascii_of_nat 178) "")
  = Raise (ValueError ("invalid literal for int() with base 10: '" +:+
                       String (ascii_of_nat 178) "" +:+ "'")).
Proof. vm_compute. split; reflexivity. Qed.

(** The type check on a value that is neither a dictionary nor a list. *)
Example type_check_example :
  ConfigExamples.rdv (Config.VStr "num_bodyparts")
    (Config.VInt 17) Config.VNone Config.VNone []
  = Raise (ValueError "Config to update must be dict or list, found <class 'str'>").
Proof. vm_compute. reflexivity. Qed.

(** Nested dictionaries are merged, other values are replaced, new keys are
    added at the end. *)
Example merged_example :
  ConfigSpec.merged ConfigExamples.base_cfg
    (Config.VDict ConfigExamples.base_updates)
  = [("device", Config.VStr "auto");
     ("train_settings",
      Config.VDict [("epochs", Config.VInt 10); ("batch_size", Config.VInt 8);
                    ("seed", Config.VInt 42)]);
     ("runner", Config.VDict [("type", Config.VStr "PoseRunner")]);
     ("method", Config.VStr "td")].
Proof. vm_compute. reflexivity. Qed.

(** ** Configurations as objects *)

Section HeapFacts.
Context {float : Type}.
Variables (float_add float_mul : float → float → float)
          (float_of_int : Z → option float) (memory : N).

Import Config Heap HeapSpec.

Local Abbreviation heap := (list (@obj float)).
Local Abbreviation hval := (@hval float).

Section Logic.
Variables (h0 : heap) (R : addr → Prop).
Local Abbreviation n0 := (length h0).
Local Abbreviation safe := (@safe float _ h0 R).
Local Abbreviation storable := (@storable float n0 R).

(** The heap is the one the run started from and nothing is returned, or
    what is returned is known. *)
Ltac safe_trivial :=
  split; [done|intros; simplify_eq; try exact I; try done].

Lemma extends_refl : extends h0 R h0.
Proof.
  split; [done|]. split; [done|].
  intros a o Ha Ho. apply lookup_lt_Some in Ho. lia.
Qed.

Lemma safe_ret {A} (Q : A → Prop) a : Q a → safe Q (ret a).
Proof.
  intros Ha h out h' Hh Hrun. unfold ret in Hrun. simplify_eq. safe_trivial.
Qed.

Lemma safe_raise {A} (Q : A → Prop) e : safe Q (raise e).
Proof. intros h out h' Hh Hrun. unfold raise in Hrun. simplify_eq. safe_trivial. Qed.

Lemma safe_bind {A B} (Q1 : A → Prop) (Q : B → Prop) m k :
  safe Q1 m → (∀ a, Q1 a → safe Q (k a)) → safe Q (bind m k).
Proof.
  intros Hm Hk h out h' Hh Hrun.
  apply bind_inv in Hrun as [(e & Hrun & ->)|(a & h1 & Hrun & Hrest)].
  - destruct (Hm _ _ _ Hh Hrun) as [Hh' _]. safe_trivial.
  - destruct (Hm _ _ _ Hh Hrun) as [Hh1 Ha].
    by apply (Hk a (Ha a eq_refl) h1).
Qed.

Lemma safe_weaken {A} (Q Q' : A → Prop) m :
  safe Q m → (∀ a, Q a → Q' a) → safe Q' m.
Proof.
  intros Hm HQ h out h' Hh Hrun. destruct (Hm _ _ _ Hh Hrun) as [Hh' Ha].
  split; [done|]. intros r ->. by apply HQ, Ha.
Qed.

Lemma safe_read a : safe (fun _ => True) (read a).
Proof.
  intros h out h' Hh Hrun. unfold read in Hrun.
  destruct (h !! a); simplify_eq; safe_trivial.
Qed.

Lemma safe_read_new a :
  n0 ≤ a → safe (fun o => Forall storable (obj_values o)) (read a).
Proof.
  intros Ha h out h' Hh Hrun. unfold read in Hrun.
  destruct (h !! a) as [o|] eqn:Ho; simplify_eq; [|safe_trivial].
  split; [done|]. intros r ?; simplify_eq.
  destruct Hh as (_ & _ & Hcl). by eapply Hcl.
Qed.

Lemma safe_write a o :
  n0 ≤ a → Forall storable (obj_values o) → safe (fun _ => True) (write a o).
Proof.
  intros Ha Ho h out h' (Hlen & Hun & Hcl) Hrun. unfold write in Hrun.
  simplify_eq. split; [|done]. split; [|split].
  - by rewrite length_insert.
  - intros b Hb. rewrite list_lookup_insert_ne by lia. by apply Hun.
  - intros b o' Hb Ho'. destruct (decide (a = b)) as [->|Hne].
    + destruct (decide (b < length h)) as [Hlt|Hge].
      * rewrite list_lookup_insert_eq in Ho' by done. by simplify_eq.
      * rewrite list_insert_ge in Ho' by lia. by eapply Hcl.
    + rewrite list_lookup_insert_ne in Ho' by done. by eapply Hcl.
Qed.

Lemma safe_alloc o :
  Forall storable (obj_values o) → safe (fun b => n0 ≤ b) (alloc o).
Proof.
  intros Ho h out h' (Hlen & Hun & Hcl) Hrun. unfold alloc in Hrun.
  simplify_eq. split; [|by intros; simplify_eq]. split; [|split].
  - rewrite length_app. lia.
  - intros b Hb. rewrite lookup_app_l by lia. by apply Hun.
  - intros b o' Hb Ho'. destruct (decide (b < length h)) as [Hlt|Hge].
    + rewrite lookup_app_l in Ho' by done. by eapply Hcl.
    + apply lookup_lt_Some in Ho' as Hlt. rewrite length_app in Hlt.
      simpl in Hlt. assert (b = length h) as -> by lia.
      rewrite lookup_app_r, Nat.sub_diag in Ho' by lia.
      simpl in Ho'. by simplify_eq.
Qed.

Lemma safe_for_loop {A} (body : A → M heap unit) l :
  (∀ x, x ∈ l → safe (fun _ => True) (body x)) →
  safe (fun _ => True) (for_loop body l).
Proof.
  induction l as [|x l IH]; intros Hbody; simpl.
  - by apply safe_ret.
  - eapply safe_bind; [apply Hbody; by left|]. intros _ _.
    apply IH. intros y Hy. apply Hbody. by right.
Qed.

Lemma is_new_storable (v : hval) : is_new n0 v → storable v.
Proof. destruct v; simpl; auto. Qed.

Lemma storable_hdict_set (items : list (string * hval)) k v :
  Forall storable items.*2 → storable v →
  Forall storable (hdict_set items k v).*2.
Proof.
  intros Hitems Hv. induction items as [|[k' v'] items IH]; simpl.
  - by constructor.
  - apply Forall_cons in Hitems as [Hv' Hitems].
    destruct (String.eqb k' k); simpl; constructor; auto.
Qed.

Lemma storable_hlist_repeat (items : list hval) n :
  Forall storable items → Forall storable (hlist_repeat items n).
Proof.
  intros H. induction n as [|n IH]; simpl; [constructor|].
  by apply Forall_app.
Qed.

Lemma safe_dict_items a : safe (fun _ => True) (dict_items a).
Proof.
  unfold dict_items. eapply safe_bind; [apply safe_read|].
  intros [items|items] _; [apply safe_raise|by apply safe_ret].
Qed.

Lemma safe_dict_items_new a :
  n0 ≤ a → safe (fun items => Forall storable items.*2) (dict_items a).
Proof.
  intros Ha. unfold dict_items. eapply safe_bind; [by apply safe_read_new|].
  intros [items|items] Hitems; [apply safe_raise|by apply safe_ret].
Qed.

Lemma safe_list_items a : safe (fun _ => True) (list_items a).
Proof.
  unfold list_items. eapply safe_bind; [apply safe_read|].
  intros [items|items] _; [by apply safe_ret|apply safe_raise].
Qed.

Lemma safe_list_items_new a :
  n0 ≤ a → safe (fun items => Forall storable items) (list_items a).
Proof.
  intros Ha. unfold list_items. eapply safe_bind; [by apply safe_read_new|].
  intros [items|items] Hitems; [by apply safe_ret|apply safe_raise].
Qed.

Lemma safe_dict_setitem a k v :
  n0 ≤ a → storable v → safe (fun _ => True) (dict_setitem a k v).
Proof.
  intros Ha Hv. unfold dict_setitem.
  eapply safe_bind; [by apply safe_dict_items_new|].
  intros items Hitems. apply safe_write; [done|].
  by apply storable_hdict_set.
Qed.

Lemma safe_list_setitem a i v :
  n0 ≤ a → storable v → safe (fun _ => True) (list_setitem a i v).
Proof.
  intros Ha Hv. unfold list_setitem.
  eapply safe_bind; [by apply safe_list_items_new|].
  intros items Hitems. destruct (i <? length items); [|apply safe_raise].
  apply safe_write; [done|]. simpl. by apply Forall_insert.
Qed.

Lemma safe_list_append a v :
  n0 ≤ a → storable v → safe (fun _ => True) (list_append a v).
Proof.
  intros Ha Hv. unfold list_append.
  eapply safe_bind; [by apply safe_list_items_new|].
  intros items Hitems. apply safe_write; [done|]. simpl.
  apply Forall_app. split; [done|]. by constructor.
Qed.

Lemma safe_is_dict v : safe (fun _ => True) (is_dict v).
Proof.
  destruct v; try by apply safe_ret.
  simpl. eapply safe_bind; [apply safe_read|]. intros; by apply safe_ret.
Qed.

Lemma safe_is_list v : safe (fun _ => True) (is_list v).
Proof.
  destruct v; try by apply safe_ret.
  simpl. eapply safe_bind; [apply safe_read|]. intros; by apply safe_ret.
Qed.

Lemma safe_for_items u body :
  (∀ k v, safe (fun _ => True) (body k v)) →
  safe (fun _ => True) (for_items u body).
Proof.
  intros Hbody. unfold for_items.
  eapply safe_bind; [apply safe_dict_items|]. intros items0 _.
  eapply safe_bind.
  - apply safe_for_loop. intros i _.
    eapply safe_bind; [apply safe_dict_items|]. intros items _.
    destruct (negb _); [apply safe_raise|].
    destruct (items !! i) as [[k v]|]; [apply Hbody|apply safe_raise].
  - intros _ _. eapply safe_bind; [apply safe_dict_items|]. intros items _.
    destruct (negb _); [apply safe_raise|by apply safe_ret].
Qed.

(** *** copy.deepcopy *)

Local Abbreviation memo_new := (HeapSpec.memo_new n0).

Lemma memo_get_new memo a y : memo_new memo → memo_get memo a = Some y → n0 ≤ y.
Proof.
  induction 1 as [|[a' y'] memo Hy _ IH]; simpl; [done|].
  destruct (a' =? a); [intros; by simplify_eq|done].
Qed.

Lemma safe_for_memo {A} (body : A → list (addr * addr) → M heap (list (addr * addr)))
    l memo :
  (∀ x memo, x ∈ l → memo_new memo → safe memo_new (body x memo)) →
  memo_new memo → safe memo_new (for_memo body l memo).
Proof.
  revert memo. induction l as [|x l IH]; intros memo Hbody Hmemo; simpl.
  - by apply safe_ret.
  - eapply safe_bind; [apply Hbody; [by left|done]|]. intros memo' Hmemo'.
    apply IH; [|done]. intros y m Hy. apply Hbody. by right.
Qed.

(** A deep copy is a scalar or a new object, and it writes new objects
    only. *)
Lemma safe_deepcopy_memo fuel x memo :
  memo_new memo →
  safe (fun r => is_new n0 r.1 ∧ memo_new r.2) (deepcopy_memo fuel x memo).
Proof.
  revert x memo. induction fuel as [|fuel IH]; intros x memo Hmemo;
    (destruct x as [| | | | |a]; try by apply safe_ret); simpl;
    destruct (memo_get memo a) as [y|] eqn:Hget;
    try (apply safe_ret; split; [by eapply memo_get_new|done]);
    [apply safe_raise|].
  eapply safe_bind; [apply safe_read|]. intros [items|items] _.
  - eapply safe_bind; [apply safe_alloc; constructor|]. intros y Hy.
    eapply safe_bind.
    + apply safe_for_memo; [|by constructor]. intros item m _ Hm.
      eapply safe_bind; [by apply IH|]. intros [c m'] [Hc Hm']. simpl in *.
      eapply safe_bind; [apply safe_list_append; [done|by apply is_new_storable]|].
      intros _ _. by apply safe_ret.
    + intros m Hm. by apply safe_ret.
  - eapply safe_bind; [apply safe_alloc; constructor|]. intros y Hy.
    eapply safe_bind.
    + apply safe_for_memo; [|by constructor]. intros [k v] m _ Hm.
      eapply safe_bind; [by apply IH|]. intros [c m'] [Hc Hm']. simpl in *.
      eapply safe_bind; [apply safe_dict_setitem; [done|by apply is_new_storable]|].
      intros _ _. by apply safe_ret.
    + intros m Hm. by apply safe_ret.
Qed.

Lemma safe_deepcopy fuel x : safe (is_new n0) (deepcopy fuel x).
Proof.
  unfold deepcopy. eapply safe_bind; [apply safe_deepcopy_memo; constructor|].
  intros [c m] [Hc _]. by apply safe_ret.
Qed.

(** *** update_config *)

(** [update_config] returns a new dictionary when it copies [config], and
    [config] itself otherwise; when no object is shared, it writes new
    objects only as long as the [config] it is given to write is new. *)
Lemma safe_update_config fuel config updates (c : bool) :
  (∀ b, ¬ R b) →
  (c = false → is_new n0 config) →
  safe (is_new n0) (update_config fuel config updates c).
Proof.
  intros HR. revert config updates c.
  induction fuel as [|fuel IH]; intros config updates c Hc; simpl;
    [apply safe_raise|].
  eapply (safe_bind (is_new n0)).
  { destruct c; [apply safe_deepcopy|apply safe_ret; by apply Hc]. }
  intros config' Hnew.
  destruct config' as [| | | | |a]; try apply safe_raise.
  destruct updates as [| | | | |u]; try apply safe_raise.
  simpl in Hnew.
  eapply safe_bind; [|intros _ _; by apply safe_ret].
  apply safe_for_items. intros k v.
  eapply safe_bind; [by apply safe_dict_items_new|]. intros items Hitems.
  eapply (safe_bind (fun both => ∀ ck, both = Some ck → is_new n0 ck)).
  { destruct (hdict_get items k) as [ck|] eqn:Hget; [|by apply safe_ret].
    eapply safe_bind; [apply safe_is_dict|]. intros b1 _.
    eapply safe_bind; [apply safe_is_dict|]. intros b2 _.
    apply safe_ret. intros ck'. destruct (b1 && b2); [|done].
    intros ?; simplify_eq.
    assert (Hck : storable ck').
    { clear -Hitems Hget. induction items as [|[k' v'] items IH]; [done|].
      simpl in *. apply Forall_cons in Hitems as [Hv' Hitems].
      destruct (String.eqb k' k); [by simplify_eq|by apply IH]. }
    destruct ck'; try done. simpl in *. destruct Hck as [?|Hck]; [done|].
    by apply HR in Hck. }
  intros [ck|] Hboth.
  - eapply safe_bind; [apply IH; intros _; by apply Hboth|].
    intros r Hr. apply safe_dict_setitem; [done|by apply is_new_storable].
  - eapply safe_bind; [apply safe_deepcopy|].
    intros r Hr. apply safe_dict_setitem; [done|by apply is_new_storable].
Qed.

(** *** replace_default_values *)

Section Shared.
Hypothesis Hclosed : closed h0 R.

Lemma safe_read_storable a :
  storable (HRef a) → safe (fun o => Forall storable (obj_values o)) (read a).
Proof.
  intros Ha. destruct (decide (n0 ≤ a)) as [Hnew|Hold];
    [by apply safe_read_new|].
  destruct Ha as [?|Ha]; [done|].
  intros h out h' Hh Hrun. unfold read in Hrun.
  destruct (h !! a) as [o|] eqn:Ho; simplify_eq; [|safe_trivial].
  split; [done|]. intros r ?; simplify_eq.
  destruct Hh as (_ & Hun & _). rewrite Hun in Ho by lia.
  apply Forall_forall. intros v Hv. destruct v as [| | | | |b]; try done.
  right. by eapply Hclosed.
Qed.

Lemma safe_py_add v n : safe storable (py_add float_add float_of_int v n).
Proof.
  destruct v; simpl; try apply safe_raise; try by apply safe_ret.
  destruct (float_of_int n); [by apply safe_ret|apply safe_raise].
Qed.

Lemma safe_py_mul v n :
  storable v → safe storable (py_mul float_mul float_of_int memory v n).
Proof.
  intros Hv. destruct v as [| | | | |a]; simpl; try apply safe_raise;
    try by apply safe_ret.
  - destruct (float_of_int n); [by apply safe_ret|apply safe_raise].
  - repeat case_match; try apply safe_raise. by apply safe_ret.
  - eapply safe_bind; [by apply safe_read_storable|].
    intros [items|items] Hitems; [|apply safe_raise].
    repeat case_match; try apply safe_raise.
    eapply safe_bind; [apply safe_alloc; by apply storable_hlist_repeat|].
    intros y Hy. apply safe_ret. by left.
Qed.

Lemma safe_get_updated_value (uv : list (string * hval)) s :
  (∀ k v, hdict_get uv k = Some v → storable v) →
  safe storable (get_updated_value float_add float_mul float_of_int memory uv s).
Proof.
  intros Huv. unfold get_updated_value.
  destruct (hdict_get uv _) as [v|] eqn:Hv; [|apply safe_raise].
  apply Huv in Hv.
  assert (Hrest : safe storable
    match var_parts s with
    | [_] => ret v
    | [_; operator; factor] =>
        if negb (isdigit factor)
        then raise (ValueError ("F must be an integer in variable: " +:+ s))
        else
          match int factor with
          | Raise e => raise e
          | Ok factor =>
              if String.eqb operator "+" then py_add float_add float_of_int v factor
              else if String.eqb operator "x" then py_mul float_mul float_of_int memory v factor
              else raise (ValueError ("Unknown operator for variable: " +:+ s))
          end
    | _ => raise (ValueError ("Found " +:+ s +:+
             " in the configuration file, but cannot parse it."))
    end).
  { destruct (var_parts s) as [|p0 [|op [|F [|]]]]; try apply safe_raise;
      [by apply safe_ret|].
    destruct (negb (isdigit F)); [apply safe_raise|].
    destruct (int F); [|apply safe_raise].
    destruct (String.eqb op "+"); [apply safe_py_add|].
    destruct (String.eqb op "x"); [by apply safe_py_mul|apply safe_raise]. }
  destruct v; try exact Hrest. apply safe_raise.
Qed.

(** [replace_default_values] returns a new object and writes new objects
    only; what it puts into them is new or comes from the placeholder
    values. *)
Lemma safe_replace_default_values fuel config nb ni boc kw :
  (∀ k v, hdict_get (make_updated_values nb ni boc kw) k = Some v → storable v) →
  safe (is_new n0)
    (replace_default_values float_add float_mul float_of_int memory fuel config
       nb ni boc kw).
Proof.
  intros Huv. revert config.
  induction fuel as [|fuel IH]; intros config; simpl; [apply safe_raise|].
  eapply safe_bind; [apply safe_deepcopy|]. intros config' Hnew.
  destruct config' as [| | | | |c]; try apply safe_raise. simpl in Hnew.
  assert (Hbody : ∀ v (setitem : hval → M heap unit),
    (∀ r, storable r → safe (fun _ => True) (setitem r)) →
    safe (fun _ => True)
      (let* v_is_list := is_list v in
       let* v_is_dict := is_dict v in
       if v_is_list || v_is_dict
       then let* r := replace_default_values float_add float_mul float_of_int memory
                        fuel v nb ni boc kw in
            setitem r
       else match v with
            | HStr s =>
                if match hdict_get (make_updated_values nb ni boc kw) (var_name s) with
                   | Some _ => true | None => false end
                then let* r := get_updated_value float_add float_mul float_of_int memory
                                 (make_updated_values nb ni boc kw) s in
                     setitem r
                else ret tt
            | _ => ret tt
            end)).
  { intros v setitem Hset.
    eapply safe_bind; [apply safe_is_list|]. intros b1 _.
    eapply safe_bind; [apply safe_is_dict|]. intros b2 _.
    destruct (b1 || b2).
    - eapply safe_bind; [apply IH|]. intros r Hr.
      by apply Hset, is_new_storable.
    - destruct v; try by apply safe_ret.
      destruct (hdict_get _ _); [|by apply safe_ret].
      eapply safe_bind; [by apply safe_get_updated_value|]. intros r Hr.
      by apply Hset. }
  eapply safe_bind; [apply safe_read|]. intros [items|items] _.
  - eapply safe_bind; [|intros _ _; by apply safe_ret].
    apply safe_for_loop. intros i _.
    eapply safe_bind; [apply safe_list_items|]. intros items' _.
    destruct (items' !! i); [|apply safe_raise].
    apply Hbody. intros r Hr. by apply safe_list_setitem.
  - eapply safe_bind; [|intros _ _; by apply safe_ret].
    apply safe_for_loop. intros k _.
    eapply safe_bind; [apply safe_dict_items|]. intros items' _.
    destruct (hdict_get items' k); [|apply safe_raise].
    apply Hbody. intros r Hr. by apply safe_dict_setitem.
Qed.

(** The objects that a storable value reaches in a heap that extends [h0]
    are new or shared. *)
Lemma reach_storable (h : heap) v b :
  extends h0 R h → storable v → reach h v b → n0 ≤ b ∨ R b.
Proof.
  intros (Hlen & Hun & Hcl) Hv Hreach.
  induction Hreach as [a|a o v b Ho Hin _ IH]; [done|].
  apply IH. destruct (decide (n0 ≤ a)) as [Hnew|Hold].
  - pose proof (Hcl a o Hnew Ho) as Hvals.
    by eapply Forall_forall in Hvals.
  - destruct Hv as [?|Ha]; [done|]. rewrite Hun in Ho by lia.
    destruct v as [| | | | |b']; try done. right. by eapply Hclosed.
Qed.

End Shared.

End Logic.

Lemma reach_snoc (h : heap) v a o b :
  reach h v a → h !! a = Some o → HRef b ∈ obj_values o → reach h v b.
Proof.
  intros Hreach Ho Hb. induction Hreach as [a|a' o' v' a Ho' Hin _ IH].
  - eapply reach_step; [done..|]. constructor.
  - eapply reach_step; [done..|]. by apply IH.
Qed.

(** C5 (amended).  Whatever their outcome, [update_config] with
    [copy_original=True] and [replace_default_values] leave every object that
    existed before the call unchanged, the objects of [config] among them.
    What [update_config] returns is made of new objects only.  What
    [replace_default_values] returns is made of new objects and of objects
    of the supplied placeholder values, which are put into the result as
    they are, without a copy: it shares no object with what existed before
    the call when no placeholder value is a reference. *)
Theorem config_functions_frame (h h1 h2 : heap) fuel1 fuel2 config updates
    nb ni boc kw out1 out2 :
  update_config fuel1 config updates true h = (out1, h1) →
  replace_default_values float_add float_mul float_of_int memory fuel2 config
    nb ni boc kw h = (out2, h2) →
  (unchanged h h1 ∧
   ∀ r b, out1 = Ok r → reach h1 r b → length h ≤ b) ∧
  (unchanged h h2 ∧
   (∀ r b, out2 = Ok r → reach h2 r b →
      length h ≤ b ∨
      ∃ k v, hdict_get (make_updated_values nb ni boc kw) k = Some v ∧
             reach h v b) ∧
   ((∀ k v a, hdict_get (make_updated_values nb ni boc kw) k = Some v →
              v ≠ HRef a) →
    ∀ r b, out2 = Ok r → reach h2 r b → length h ≤ b)).
Proof.
  intros Hrun1 Hrun2. split.
  - assert (Hc : closed h (fun _ => False)) by (by intros ?????).
    destruct (safe_update_config h (fun _ => False) fuel1 config updates true
                (fun _ H => H) (fun H => ltac:(discriminate H))
                h out1 h1 (extends_refl h _) Hrun1) as [Hext Hres].
    split; [apply Hext|]. intros r b -> Hreach.
    destruct (reach_storable h _ Hc h1 r b Hext) as [?|[]]; try done.
    by apply is_new_storable, Hres.
  - set (uv := make_updated_values nb ni boc kw) in *.
    set (R := fun b => ∃ k v, hdict_get uv k = Some v ∧ reach h v b).
    assert (Hc : closed h R).
    { intros a o v b (k & v0 & Hk & Hreach) Ho Hv ->.
      exists k, v0. split; [done|]. by eapply reach_snoc. }
    assert (Huv : ∀ k v, hdict_get uv k = Some v → storable (length h) R v).
    { intros k v Hk. destruct v as [| | | | |a]; try done.
      right. exists k, (HRef a). split; [done|]. constructor. }
    destruct (safe_replace_default_values h R Hc fuel2 config nb ni boc kw
                Huv h out2 h2 (extends_refl h _) Hrun2) as [Hext Hres].
    assert (Hall : ∀ r b, out2 = Ok r → reach h2 r b → length h ≤ b ∨ R b).
    { intros r b -> Hreach. apply (reach_storable h _ Hc h2 r b Hext); [|done].
      by apply is_new_storable, Hres. }
    split; [apply Hext|]. split; [exact Hall|].
    intros Hscalar r b Hr Hreach.
    destruct (Hall r b Hr Hreach) as [?|(k & v & Hk & Hv)]; [done|].
    exfalso. inversion Hv; subst; by eapply Hscalar.
Qed.

End HeapFacts.

Lemma config_functions_frame_witness :
  let run1 := HeapExamples.update_config 10 (Heap.HRef 0) (Heap.HRef 2) true
                HeapExamples.base_heap in
  let run2 := HeapExamples.replace_default_values 10 (Heap.HRef 0)
                (Heap.HInt 17) Heap.HNone Heap.HNone [] HeapExamples.base_heap in
  HeapSpec.unchanged HeapExamples.base_heap run1.2 ∧
  HeapSpec.unchanged HeapExamples.base_heap run2.2.
Proof.
  intros run1 run2.
  destruct (config_functions_frame Qplus Qmult ConfigExamples.float_of_int ConfigExamples.memory
              HeapExamples.base_heap run1.2 run2.2 10 10
              (Heap.HRef 0) (Heap.HRef 2)
              (Heap.HInt 17) Heap.HNone Heap.HNone [] run1.1 run2.1)
    as [[H1 _] [H2 _]].
  - vm_compute. reflexivity.
  - vm_compute. reflexivity.
  - split; assumption.
Defined.

(** The result of [replace_default_values] can share an object with its
    input: the list given for [paf_graph] is put into the result as it is.
    Here it is also the list that the input configuration holds under
    ["graph"], so that the result and the input share the object at
    address 0. *)
Lemma config_functions_frame_counterexample :
  let h := HeapExamples.graph_heap in
  let config := Heap.HRef 1 in
  ∃ r h',
    HeapExamples.replace_default_values 10 config (Heap.HInt 17) Heap.HNone
      Heap.HNone [("paf_graph", Heap.HRef 0)] h = (Ok r, h') ∧
    HeapSpec.reach h config 0 ∧ HeapSpec.reach h' r 0 ∧ 0 < length h.
Proof.
  eexists _, _. split; [vm_compute; reflexivity|]. split; [|split].
  - eapply HeapSpec.reach_step; [reflexivity| |constructor]. by left.
  - eapply HeapSpec.reach_step; [reflexivity| |constructor].
    simpl. right. by left.
  - simpl. lia.
Qed.

(** On the examples the functions on objects compute the configurations
    that the functions on values compute. *)
Example update_config_agrees :
  let '(out, h') := HeapExamples.update_config 10 (Heap.HRef 0) (Heap.HRef 2)
                      true HeapExamples.base_heap in
  out = Ok (Heap.HRef 5) ∧
  HeapSpec.reify 10 h' (Heap.HRef 5) =
    Some (Config.VDict (ConfigSpec.merged ConfigExamples.base_cfg
                          (Config.VDict ConfigExamples.base_updates))) ∧
  HeapSpec.reify 10 h' (Heap.HRef 0) =
    Some (Config.VDict ConfigExamples.base_cfg).
Proof. vm_compute. repeat split. Qed.

(** Without a copy the dictionary that is given is the one that is
    written. *)
Example update_config_in_place :
  let '(out, h') := HeapExamples.update_config 10 (Heap.HRef 0) (Heap.HRef 2)
                      false HeapExamples.base_heap in
  out = Ok (Heap.HRef 0) ∧
  HeapSpec.reify 10 h' (Heap.HRef 0) =
    Some (Config.VDict (ConfigSpec.merged ConfigExamples.base_cfg
                          (Config.VDict ConfigExamples.base_updates))).
Proof. vm_compute. repeat split. Qed.

Example replace_default_values_agrees :
  let '(out, h') := HeapExamples.replace_default_values 10 (Heap.HRef 1)
                      (Heap.HInt 17) Heap.HNone Heap.HNone
                      [("paf_graph", Heap.HRef 0)] HeapExamples.graph_heap in
  match out with
  | Ok r =>
      Ok <$> HeapSpec.reify 10 h' r =
        (fun c => ConfigExamples.rdv c (Config.VInt 17) Config.VNone Config.VNone
                    [("paf_graph", Config.VList [Config.VInt 0; Config.VInt 1])])
          <$> HeapSpec.reify 10 HeapExamples.graph_heap (Heap.HRef 1)
  | Raise _ => False
  end.
Proof. vm_compute. reflexivity. Qed.

(** ** update_config on configurations without shared objects *)

Section TreeFacts.
Import Config ConfigSpec Heap HeapSpec.
Context {float : Type}.
Local Abbreviation heap := (list (@obj float)).
Local Abbreviation hval := (@hval float).
Local Abbreviation value := (@value float).

Lemma Forall3_Forall_m {A B C} (P Q : A → B → C → Prop) (R : B → Prop) l k m :
  Forall3 P l k m → Forall R k → (∀ x y z, P x y z → R y → Q x y z) →
  Forall3 Q l k m.
Proof.
  intros H HR HPQ. induction H; inversion HR; simplify_eq; constructor; auto.
Qed.

Lemma elem_of_concat {A} (x : A) ls : x ∈ concat ls ↔ ∃ l, l ∈ ls ∧ x ∈ l.
Proof.
  induction ls as [|l ls IH]; simpl.
  - split; [by intros ?%elem_of_nil|by intros (? & ?%elem_of_nil & _)].
  - rewrite elem_of_app, IH. split.
    + intros [?|(l' & ? & ?)]; [exists l; split; [by left|done]|].
      exists l'. split; [by right|done].
    + intros (l' & [->|?]%elem_of_cons & ?); [by left|]. right. by exists l'.
Qed.

Lemma Forall3_elem_of_r {A B C} (P : A → B → C → Prop) l k m z :
  Forall3 P l k m → z ∈ m → ∃ x y, x ∈ l ∧ y ∈ k ∧ P x y z.
Proof.
  induction 1 as [|x y z' l k m Hx _ IH]; [by intros ?%elem_of_nil|].
  intros [->|Hz]%elem_of_cons.
  - exists x, y. repeat split; [by left..|done].
  - destruct (IH Hz) as (x' & y' & ? & ? & ?). exists x', y'.
    repeat split; [by right..|done].
Qed.

Lemma tree_lt (h : heap) x : ∀ v D a, tree h v x D → a ∈ D → a < length h.
Proof.
  induction x as [| | | | |l IH|d IH] using value_ind; intros v D a Ht Ha;
    inversion Ht; simplify_eq; try by apply elem_of_nil in Ha.
  - apply elem_of_cons in Ha as [->|Ha]; [by eapply lookup_lt_Some|].
    apply elem_of_concat in Ha as (D & HD & Ha).
    destruct (Forall3_elem_of_r _ _ _ _ _ H1 HD) as (v & x & _ & Hx & Hv).
    rewrite Forall_forall in IH. by eapply IH.
  - apply elem_of_cons in Ha as [->|Ha]; [by eapply lookup_lt_Some|].
    apply elem_of_concat in Ha as (D & HD & Ha).
    destruct (Forall3_elem_of_r _ _ _ _ _ H2 HD) as (kv & kx & _ & Hx & _ & Hv).
    rewrite Forall_forall in IH. by eapply (IH kx).
Qed.

Lemma tree_NoDup (h : heap) v x D : tree h v x D → NoDup D.
Proof. destruct 1; try apply NoDup_nil_2; done. Qed.

Lemma tree_agree (h h' : heap) x :
  ∀ v D, tree h v x D → (∀ a, a ∈ D → h' !! a = h !! a) → tree h' v x D.
Proof.
  induction x as [| | | | |l IH|d IH] using value_ind; intros v D Ht Hag;
    inversion Ht; simplify_eq; try by constructor.
  - apply (tree_list _ _ items); [rewrite Hag; [done|by left]| |done].
    assert (Hsub : ∀ D, D ∈ Ds → ∀ b, b ∈ D → h' !! b = h !! b).
    { intros D HD b Hb. apply Hag. right. apply elem_of_concat. eauto. }
    clear -IH H1 Hsub. induction H1 as [|v x D items l Ds Hv _ IHl];
      [constructor|].
    apply Forall_cons in IH as [IHx IH]. constructor.
    + apply IHx; [done|]. apply Hsub. by left.
    + apply IHl; [done|]. intros D' HD'. apply Hsub. by right.
  - apply (tree_dict _ _ items); [rewrite Hag; [done|by left]|done| |done].
    assert (Hsub : ∀ D, D ∈ Ds → ∀ b, b ∈ D → h' !! b = h !! b).
    { intros D HD b Hb. apply Hag. right. apply elem_of_concat. eauto. }
    clear -IH H2 Hsub. induction H2 as [|kv kx D items d Ds [Hk Hv] _ IHl];
      [constructor|].
    apply Forall_cons in IH as [IHx IH]. constructor.
    + split; [done|]. apply IHx; [done|]. apply Hsub. by left.
    + apply IHl; [done|]. intros D' HD'. apply Hsub. by right.
Qed.


Lemma trees_agree (h h' : heap) items l Ds :
  Forall3 (tree h) items l Ds →
  (∀ a, a ∈ concat Ds → h' !! a = h !! a) →
  Forall3 (tree h') items l Ds.
Proof.
  induction 1 as [|v x D items l Ds Hv _ IH]; intros Hag; [constructor|].
  simpl in Hag. constructor.
  - eapply tree_agree; [done|]. intros a Ha. apply Hag, elem_of_app. by left.
  - apply IH. intros a Ha. apply Hag, elem_of_app. by right.
Qed.

Lemma entries_agree (h h' : heap) (items : list (string * hval))
    (d : list (string * value)) Ds :
  Forall3 (fun kv kx D => kv.1 = kx.1 ∧ tree h kv.2 kx.2 D) items d Ds →
  (∀ a, a ∈ concat Ds → h' !! a = h !! a) →
  Forall3 (fun kv kx D => kv.1 = kx.1 ∧ tree h' kv.2 kx.2 D) items d Ds.
Proof.
  induction 1 as [|v x D items l Ds [Hk Hv] _ IH]; intros Hag; [constructor|].
  simpl in Hag. constructor.
  - split; [done|].
    eapply tree_agree; [done|]. intros a Ha. apply Hag, elem_of_app. by left.
  - apply IH. intros a Ha. apply Hag, elem_of_app. by right.
Qed.

Lemma trees_lt (h : heap) items l Ds a :
  Forall3 (tree h) items l Ds → a ∈ concat Ds → a < length h.
Proof.
  induction 1 as [|v x D items l Ds Hv _ IH]; simpl;
    [by intros ?%elem_of_nil|].
  intros [?|?]%elem_of_app; [by eapply tree_lt|auto].
Qed.

Lemma entries_lt (h : heap) (items : list (string * hval))
    (d : list (string * value)) Ds a :
  Forall3 (fun kv kx D => kv.1 = kx.1 ∧ tree h kv.2 kx.2 D) items d Ds →
  a ∈ concat Ds → a < length h.
Proof.
  induction 1 as [|v x D items l Ds [_ Hv] _ IH]; simpl;
    [by intros ?%elem_of_nil|].
  intros [?|?]%elem_of_app; [by eapply tree_lt|auto].
Qed.

Lemma entries_keys (h : heap) (items : list (string * hval))
    (d : list (string * value)) Ds :
  Forall3 (fun kv kx D => kv.1 = kx.1 ∧ tree h kv.2 kx.2 D) items d Ds →
  items.*1 = d.*1.
Proof.
  induction 1 as [|v x D items l Ds [Hk _] _ IH]; [done|].
  rewrite !fmap_cons. by f_equal.
Qed.

(** *** The primitives on a heap *)

Lemma read_run (h : heap) a o : h !! a = Some o → read a h = (Ok o, h).
Proof. intros H. unfold read. by rewrite H. Qed.

Lemma list_append_run (h : heap) y acc r :
  h !! y = Some (OList acc) →
  list_append y r h = (Ok tt, <[y := OList (acc ++ [r])]> h).
Proof.
  intros H. unfold list_append, list_items, bind, read, ret, write.
  by rewrite H.
Qed.

Lemma dict_items_run (h : heap) a items :
  h !! a = Some (ODict items) → dict_items a h = (Ok items, h).
Proof. intros H. unfold dict_items, bind, read, ret. by rewrite H. Qed.

Lemma dict_setitem_run (h : heap) y acc k r :
  h !! y = Some (ODict acc) →
  dict_setitem y k r h = (Ok tt, <[y := ODict (hdict_set acc k r)]> h).
Proof.
  intros H. unfold dict_setitem, dict_items, bind, read, ret, write.
  by rewrite H.
Qed.

Lemma hdict_set_new (items : list (string * hval)) k r :
  k ∉ items.*1 → hdict_set items k r = items ++ [(k, r)].
Proof.
  induction items as [|[k' v'] items IH]; simpl; [done|].
  intros [Hne Hk]%not_elem_of_cons.
  destruct (String.eqb_spec k' k); [congruence|]. by rewrite IH.
Qed.

Lemma for_memo_cons {A}
    (body : A → list (addr * addr) → M heap (list (addr * addr))) x l memo :
  for_memo body (x :: l) memo = bind (body x memo) (for_memo body l).
Proof. reflexivity. Qed.

(** *** copy.deepcopy of a value without shared objects *)

(** The copy of a value that stands for [x] without shared objects is made
    of new objects, stands for [x] without shared objects, and no object
    that was there is written. *)
Local Abbreviation copies fuel x :=
  (∀ v D memo (h : heap),
     tree h v x D → (∀ a, a ∈ D → memo_get memo a = None) →
     ∃ r memo' h' D',
       deepcopy_memo fuel v memo h = (Ok (r, memo'), h') ∧
       tree h' r x D' ∧ (∀ a, a ∈ D' → length h ≤ a) ∧
       length h ≤ length h' ∧ (∀ a, a < length h → h' !! a = h !! a) ∧
       (∀ b, b ∉ D → memo_get memo' b = memo_get memo b)).

Lemma copy_list_loop f (h0 : heap) y items l Ds :
  Forall3 (tree h0) items l Ds → Forall (fun x => copies f x) l →
  length h0 ≤ y → NoDup (concat Ds) →
  ∀ acc ldone Dsdone memo hc,
    y < length hc → hc !! y = Some (OList acc) →
    (∀ a, a < length h0 → hc !! a = h0 !! a) →
    Forall3 (tree hc) acc ldone Dsdone →
    (∀ a, a ∈ concat Dsdone → y < a) → NoDup (concat Dsdone) →
    (∀ a, a ∈ concat Ds → memo_get memo a = None) →
    ∃ memo' hc' rs Ds',
      for_memo (fun item memo =>
                  let* r := deepcopy_memo f item memo in
                  list_append y r.1 >> ret r.2) items memo hc
        = (Ok memo', hc') ∧
      hc' !! y = Some (OList (acc ++ rs)) ∧
      Forall3 (tree hc') (acc ++ rs) (ldone ++ l) (Dsdone ++ Ds') ∧
      (∀ a, a ∈ concat (Dsdone ++ Ds') → y < a) ∧
      NoDup (concat (Dsdone ++ Ds')) ∧
      (∀ a, a < length h0 → hc' !! a = h0 !! a) ∧ length hc ≤ length hc' ∧
      (∀ b, b ∉ concat Ds → memo_get memo' b = memo_get memo b).
Proof.
  induction 1 as [|item x D items l Ds Hx Hrest IH];
    intros Hcopies Hy Hnd acc ldone Dsdone memo hc Hlt Hacc Hpre Hdone Hfresh
      Hndd Hmemo.
  - exists memo, hc, [], []. simpl. rewrite !app_nil_r. by repeat split.
  - apply Forall_cons in Hcopies as [Hc Hcopies]. simpl in Hnd.
    apply NoDup_app in Hnd as (HndD & Hdisj & Hnd).
    assert (Htx : tree hc item x D).
    { eapply tree_agree; [exact Hx|]. intros a Ha. apply Hpre.
      by eapply tree_lt. }
    destruct (Hc item D memo hc Htx)
      as (r & memo1 & h1 & D1 & Hrun & Hr & HD1 & Hlen1 & Hpre1 & Hmemo1).
    { intros a Ha. apply Hmemo. simpl. apply elem_of_app. by left. }
    assert (Hy1 : h1 !! y = Some (OList acc)) by (by rewrite Hpre1).
    destruct (IH Hcopies Hy Hnd (acc ++ [r]) (ldone ++ [x]) (Dsdone ++ [D1])
                memo1 (<[y := OList (acc ++ [r])]> h1))
      as (memo' & hc' & rs & Ds' & Hloop & Hy' & Htrees & Hfresh' & Hnd' &
          Hpre' & Hlen' & Hmemo').
    + rewrite length_insert. lia.
    + apply list_lookup_insert_eq. lia.
    + intros a Ha. rewrite list_lookup_insert_ne by lia.
      rewrite Hpre1 by lia. by apply Hpre.
    + apply Forall3_app.
      * eapply trees_agree; [exact Hdone|]. intros a Ha.
        pose proof (Hfresh a Ha). pose proof (trees_lt _ _ _ _ _ Hdone Ha).
        rewrite list_lookup_insert_ne by lia. by apply Hpre1.
      * constructor; [|constructor]. eapply tree_agree; [exact Hr|].
        intros a Ha. specialize (HD1 a Ha).
        by rewrite list_lookup_insert_ne by lia.
    + intros a. rewrite concat_app. simpl. rewrite app_nil_r.
      intros [Ha|Ha]%elem_of_app; [by apply Hfresh|].
      specialize (HD1 a Ha). lia.
    + rewrite concat_app. simpl. rewrite app_nil_r. apply NoDup_app.
      split; [done|]. split; [|by eapply tree_NoDup].
      intros a Ha Ha1. pose proof (trees_lt _ _ _ _ _ Hdone Ha).
      specialize (HD1 a Ha1). lia.
    + intros a Ha. rewrite Hmemo1.
      * apply Hmemo. simpl. apply elem_of_app. by right.
      * intros HaD. by apply (Hdisj a).
    + exists memo', hc', (r :: rs), (D1 :: Ds').
      rewrite <-(app_assoc acc), <-(app_assoc ldone), <-(app_assoc Dsdone)
        in Htrees.
      rewrite <-(app_assoc Dsdone) in Hfresh', Hnd'.
      rewrite <-(app_assoc acc) in Hy'.
      rewrite length_insert in Hlen'.
      split; [|split; [exact Hy'|split; [exact Htrees|split; [exact Hfresh'|
        split; [exact Hnd'|split; [exact Hpre'|split; [lia|]]]]]]].
      * rewrite for_memo_cons. erewrite bind_ok; [exact Hloop|].
        erewrite bind_ok; [|exact Hrun]. cbn [fst snd].
        erewrite bind_ok; [|apply list_append_run; exact Hy1]. done.
      * intros b Hb. rewrite Hmemo'.
        -- apply Hmemo1. intros ?. apply Hb, elem_of_app. by left.
        -- intros ?. apply Hb, elem_of_app. by right.
Qed.


Lemma copy_dict_loop f (h0 : heap) y (items : list (string * hval))
    (d : list (string * value)) Ds :
  Forall3 (fun kv kx D => kv.1 = kx.1 ∧ tree h0 kv.2 kx.2 D) items d Ds →
  Forall (fun kx => copies f kx.2) d →
  length h0 ≤ y → NoDup (concat Ds) → NoDup items.*1 →
  ∀ acc ddone Dsdone memo hc,
    y < length hc → hc !! y = Some (ODict acc) →
    (∀ a, a < length h0 → hc !! a = h0 !! a) →
    Forall3 (fun kv kx D => kv.1 = kx.1 ∧ tree hc kv.2 kx.2 D) acc ddone Dsdone →
    (∀ a, a ∈ concat Dsdone → y < a) → NoDup (concat Dsdone) →
    (∀ a, a ∈ concat Ds → memo_get memo a = None) →
    (∀ k, k ∈ items.*1 → k ∉ acc.*1) →
    ∃ memo' hc' rs Ds',
      for_memo (fun kv memo =>
                  let* r := deepcopy_memo f kv.2 memo in
                  dict_setitem y kv.1 r.1 >> ret r.2) items memo hc
        = (Ok memo', hc') ∧
      hc' !! y = Some (ODict (acc ++ rs)) ∧
      Forall3 (fun kv kx D => kv.1 = kx.1 ∧ tree hc' kv.2 kx.2 D)
        (acc ++ rs) (ddone ++ d) (Dsdone ++ Ds') ∧
      (∀ a, a ∈ concat (Dsdone ++ Ds') → y < a) ∧
      NoDup (concat (Dsdone ++ Ds')) ∧
      (∀ a, a < length h0 → hc' !! a = h0 !! a) ∧ length hc ≤ length hc' ∧
      (∀ b, b ∉ concat Ds → memo_get memo' b = memo_get memo b).
Proof.
  induction 1 as [|[k item] [k' x] D items d Ds [Hk Hx] Hrest IH];
    intros Hcopies Hy Hnd Hkeys acc ddone Dsdone memo hc Hlt Hacc Hpre Hdone
      Hfresh Hndd Hmemo Hnew.
  - exists memo, hc, [], []. simpl. rewrite !app_nil_r. by repeat split.
  - cbn [fst snd] in Hk, Hx. subst k'.
    apply Forall_cons in Hcopies as [Hc Hcopies]. simpl in Hnd, Hc.
    apply NoDup_app in Hnd as (HndD & Hdisj & Hnd).
    rewrite fmap_cons in Hkeys. apply NoDup_cons in Hkeys as [Hk Hkeys].
    assert (Htx : tree hc item x D).
    { eapply tree_agree; [exact Hx|]. intros a Ha. apply Hpre.
      by eapply tree_lt. }
    destruct (Hc item D memo hc Htx)
      as (r & memo1 & h1 & D1 & Hrun & Hr & HD1 & Hlen1 & Hpre1 & Hmemo1).
    { intros a Ha. apply Hmemo. simpl. apply elem_of_app. by left. }
    assert (Hy1 : h1 !! y = Some (ODict acc)) by (by rewrite Hpre1).
    assert (Hset : hdict_set acc k r = acc ++ [(k, r)]).
    { apply hdict_set_new, Hnew. rewrite fmap_cons. by left. }
    destruct (IH Hcopies Hy Hnd Hkeys (acc ++ [(k, r)]) (ddone ++ [(k, x)])
                (Dsdone ++ [D1]) memo1 (<[y := ODict (acc ++ [(k, r)])]> h1))
      as (memo' & hc' & rs & Ds' & Hloop & Hy' & Htrees & Hfresh' & Hnd' &
          Hpre' & Hlen' & Hmemo').
    + rewrite length_insert. lia.
    + apply list_lookup_insert_eq. lia.
    + intros a Ha. rewrite list_lookup_insert_ne by lia.
      rewrite Hpre1 by lia. by apply Hpre.
    + apply Forall3_app.
      * eapply entries_agree; [exact Hdone|]. intros a Ha.
        pose proof (Hfresh a Ha). pose proof (entries_lt _ _ _ _ _ Hdone Ha).
        rewrite list_lookup_insert_ne by lia. by apply Hpre1.
      * constructor; [|constructor]. split; [done|].
        eapply tree_agree; [exact Hr|].
        intros a Ha. specialize (HD1 a Ha).
        by rewrite list_lookup_insert_ne by lia.
    + intros a. rewrite concat_app. simpl. rewrite app_nil_r.
      intros [Ha|Ha]%elem_of_app; [by apply Hfresh|].
      specialize (HD1 a Ha). lia.
    + rewrite concat_app. simpl. rewrite app_nil_r. apply NoDup_app.
      split; [done|]. split; [|by eapply tree_NoDup].
      intros a Ha Ha1. pose proof (entries_lt _ _ _ _ _ Hdone Ha).
      specialize (HD1 a Ha1). lia.
    + intros a Ha. rewrite Hmemo1.
      * apply Hmemo. simpl. apply elem_of_app. by right.
      * intros HaD. by apply (Hdisj a).
    + intros k0 Hk0. rewrite fmap_app. simpl.
      intros [Hin|Hin%list_elem_of_singleton]%elem_of_app.
      * apply (Hnew k0); [|done]. rewrite fmap_cons. by right.
      * by subst k0.
    + exists memo', hc', ((k, r) :: rs), (D1 :: Ds').
      rewrite <-(app_assoc acc), <-(app_assoc ddone), <-(app_assoc Dsdone)
        in Htrees.
      rewrite <-(app_assoc Dsdone) in Hfresh', Hnd'.
      rewrite <-(app_assoc acc) in Hy'.
      rewrite length_insert in Hlen'.
      split; [|split; [exact Hy'|split; [exact Htrees|split; [exact Hfresh'|
        split; [exact Hnd'|split; [exact Hpre'|split; [lia|]]]]]]].
      * rewrite for_memo_cons. erewrite bind_ok; [exact Hloop|].
        erewrite bind_ok; [|exact Hrun]. cbn [fst snd].
        erewrite bind_ok; [|apply dict_setitem_run; exact Hy1].
        by rewrite Hset.
      * intros b Hb. rewrite Hmemo'.
        -- apply Hmemo1. intros ?. apply Hb, elem_of_app. by left.
        -- intros ?. apply Hb, elem_of_app. by right.
Qed.

Lemma foldr_max_le {A} (g : A → nat) l x :
  x ∈ l → g x ≤ foldr (fun v n => g v `max` n) 0 l.
Proof.
  induction 1 as [x l|x y l _ IH]; simpl; lia.
Qed.

Lemma deepcopy_memo_tree x : ∀ fuel, depth x ≤ fuel → copies fuel x.
Proof.
  induction x as [| | | | |l IH|d IH] using value_ind;
    intros fuel Hd v D memo h Ht Hmemo; inversion Ht; simplify_eq;
    try (eexists _, memo, h, [];
         split; [by destruct fuel|];
         split; [constructor|]; split; [by intros ? ?%elem_of_nil|done]).
  - destruct fuel as [|f]; [simpl in Hd; lia|]. cbn [deepcopy_memo].
    rewrite (Hmemo a) by (by left).
    erewrite bind_ok; [|by apply read_run]. cbv beta iota.
    erewrite bind_ok; [|reflexivity].
    apply NoDup_cons in H3 as [Ha HndDs].
    destruct (copy_list_loop f h (length h) items l Ds H1) with
      (acc := @nil hval) (ldone := @nil value) (Dsdone := @nil (list addr))
      (memo := (a, length h) :: memo) (hc := h ++ [OList []])
      as (memo' & hc' & rs & Ds' & Hloop & Hy' & Htrees & Hfresh' & Hnd' &
          Hpre' & Hlen' & Hmemo'); try done.
    + rewrite Forall_forall in IH. apply Forall_forall. intros x Hx.
      apply IH; [done|]. simpl in Hd.
      pose proof (foldr_max_le depth l x Hx). lia.
    + rewrite length_app. simpl. lia.
    + by rewrite lookup_app_r, Nat.sub_diag by lia.
    + intros b Hb. by rewrite lookup_app_l.
    + constructor.
    + by intros ? ?%elem_of_nil.
    + constructor.
    + intros b Hb. simpl. destruct (Nat.eqb_spec a b) as [->|Hne]; [done|].
      apply Hmemo. by right.
    + simpl in *. exists (HRef (length h)), memo', hc', (length h :: concat Ds').
      split; [by erewrite bind_ok; [|exact Hloop]|].
      split.
      { apply (tree_list _ _ rs); [done..|]. apply NoDup_cons. split; [|done].
        intros Hin. specialize (Hfresh' _ Hin). lia. }
      split.
      { intros b [->|Hb]%elem_of_cons; [done|]. specialize (Hfresh' _ Hb). lia. }
      rewrite length_app in Hlen'. simpl in Hlen'.
      split; [lia|]. split; [done|].
      intros b Hb. rewrite Hmemo'.
      * simpl. destruct (Nat.eqb_spec a b) as [->|Hne]; [|done].
        exfalso. apply Hb. by left.
      * intros ?. apply Hb. by right.
  - destruct fuel as [|f]; [simpl in Hd; lia|]. cbn [deepcopy_memo].
    rewrite (Hmemo a) by (by left).
    erewrite bind_ok; [|by apply read_run]. cbv beta iota.
    erewrite bind_ok; [|reflexivity].
    apply NoDup_cons in H4 as [Ha HndDs].
    destruct (copy_dict_loop f h (length h) items d Ds H2) with
      (acc := @nil (string * hval)) (ddone := @nil (string * value))
      (Dsdone := @nil (list addr))
      (memo := (a, length h) :: memo) (hc := h ++ [ODict []])
      as (memo' & hc' & rs & Ds' & Hloop & Hy' & Htrees & Hfresh' & Hnd' &
          Hpre' & Hlen' & Hmemo'); try done.
    + rewrite Forall_forall in IH. apply Forall_forall. intros x Hx.
      apply IH; [done|]. simpl in Hd.
      pose proof (foldr_max_le (fun kv : string * value => depth kv.2) d x Hx).
      simpl in *. lia.
    + rewrite length_app. simpl. lia.
    + by rewrite lookup_app_r, Nat.sub_diag by lia.
    + intros b Hb. by rewrite lookup_app_l.
    + constructor.
    + by intros ? ?%elem_of_nil.
    + constructor.
    + intros b Hb. simpl. destruct (Nat.eqb_spec a b) as [->|Hne]; [done|].
      apply Hmemo. by right.
    + by intros ? _ ?%elem_of_nil.
    + simpl in *. exists (HRef (length h)), memo', hc', (length h :: concat Ds').
      split; [by erewrite bind_ok; [|exact Hloop]|].
      split.
      { apply (tree_dict _ _ rs); [done| |done|].
        - rewrite (entries_keys _ _ _ _ Htrees), <-(entries_keys _ _ _ _ H2).
          done.
        - apply NoDup_cons. split; [|done].
          intros Hin. specialize (Hfresh' _ Hin). lia. }
      split.
      { intros b [->|Hb]%elem_of_cons; [done|]. specialize (Hfresh' _ Hb). lia. }
      rewrite length_app in Hlen'. simpl in Hlen'.
      split; [lia|]. split; [done|].
      intros b Hb. rewrite Hmemo'.
      * simpl. destruct (Nat.eqb_spec a b) as [->|Hne]; [|done].
        exfalso. apply Hb. by left.
      * intros ?. apply Hb. by right.
Qed.

(** [copy.deepcopy] of a value without shared objects. *)
Lemma deepcopy_tree (h : heap) fuel v x D :
  tree h v x D → depth x ≤ fuel →
  ∃ r h' D',
    deepcopy fuel v h = (Ok r, h') ∧ tree h' r x D' ∧
    (∀ a, a ∈ D' → length h ≤ a) ∧ unchanged_except [] h h'.
Proof.
  intros Ht Hd.
  destruct (deepcopy_memo_tree x fuel Hd v D [] h Ht)
    as (r & memo' & h' & D' & Hrun & Hr & HD' & Hlen & Hpre & _); [done|].
  exists r, h', D'. split; [|split; [done|split; [done|]]].
  - unfold deepcopy. by erewrite bind_ok; [|exact Hrun].
  - split; [done|]. intros a Ha _. by apply Hpre.
Qed.


(** *** update_config on values without shared objects *)

Lemma hdict_set_split (i1 i2 : list (string * hval)) k ck r :
  k ∉ i1.*1 → hdict_set (i1 ++ (k, ck) :: i2) k r = i1 ++ (k, r) :: i2.
Proof.
  induction i1 as [|[k' v'] i1 IH]; simpl.
  - by rewrite String.eqb_refl.
  - intros [Hne Hk]%not_elem_of_cons.
    destruct (String.eqb_spec k' k); [congruence|]. by rewrite IH.
Qed.

Lemma dict_set_split (d1 d2 : list (string * value)) k xk x :
  k ∉ d1.*1 → dict_set (d1 ++ (k, xk) :: d2) k x = d1 ++ (k, x) :: d2.
Proof.
  induction d1 as [|[k' v'] d1 IH]; simpl.
  - by rewrite String.eqb_refl.
  - intros [Hne Hk]%not_elem_of_cons.
    destruct (String.eqb_spec k' k); [congruence|]. by rewrite IH.
Qed.

Lemma dict_set_new (d : list (string * value)) k x :
  k ∉ d.*1 → dict_set d k x = d ++ [(k, x)].
Proof.
  induction d as [|[k' v'] d IH]; simpl; [done|].
  intros [Hne Hk]%not_elem_of_cons.
  destruct (String.eqb_spec k' k); [congruence|]. by rewrite IH.
Qed.

Lemma dict_get_split (d1 d2 : list (string * value)) k xk :
  k ∉ d1.*1 → dict_get (d1 ++ (k, xk) :: d2) k = Some xk.
Proof.
  induction d1 as [|[k' v'] d1 IH]; simpl.
  - by rewrite String.eqb_refl.
  - intros [Hne Hk]%not_elem_of_cons.
    destruct (String.eqb_spec k' k); [congruence|]. by rewrite IH.
Qed.

(** The entry of a key in a dictionary object and in the dictionary it
    stands for. *)
Lemma entries_get (h : heap) (items : list (string * hval))
    (d : list (string * value)) Ds k :
  Forall3 (fun kv kx D => kv.1 = kx.1 ∧ tree h kv.2 kx.2 D) items d Ds →
  match hdict_get items k with
  | Some ck =>
      ∃ i1 i2 d1 d2 xk Ds1 Ds2 Dck,
        items = (i1 ++ (k, ck) :: i2) ∧ d = (d1 ++ (k, xk) :: d2) ∧
        Ds = (Ds1 ++ Dck :: Ds2) ∧ (k ∉ i1.*1) ∧ (k ∉ d1.*1) ∧
        Forall3 (fun kv kx D => kv.1 = kx.1 ∧ tree h kv.2 kx.2 D) i1 d1 Ds1 ∧
        tree h ck xk Dck ∧
        Forall3 (fun kv kx D => kv.1 = kx.1 ∧ tree h kv.2 kx.2 D) i2 d2 Ds2
  | None => (k ∉ items.*1) ∧ (k ∉ d.*1)
  end.
Proof.
  induction 1 as [|[k' v] [k'' x] D items d Ds [Hk Hv] Hrest IH]; simpl.
  - split; apply not_elem_of_nil.
  - cbn [fst snd] in Hk, Hv. subst k''.
    destruct (String.eqb_spec k' k) as [->|Hne].
    + exists [], items, [], d, x, [], Ds, D. repeat split; try done;
        try apply not_elem_of_nil. constructor.
    + destruct (hdict_get items k) as [ck|].
      * destruct IH as (i1 & i2 & d1 & d2 & xk & Ds1 & Ds2 & Dck & -> & -> &
                        -> & Hi1 & Hd1 & H1 & Hck & H2).
        exists ((k', v) :: i1), i2, ((k', x) :: d1), d2, xk, (D :: Ds1), Ds2,
          Dck.
        repeat split; try done.
        -- rewrite fmap_cons. by apply not_elem_of_cons.
        -- rewrite fmap_cons. by apply not_elem_of_cons.
        -- by constructor.
      * destruct IH as [Hi Hd].
        split; (apply not_elem_of_cons; split; [by intros ->|done]).
Qed.

Lemma is_dict_tree (h : heap) v x D :
  tree h v x D →
  is_dict v h = (Ok (match x with VDict _ => true | _ => false end), h).
Proof.
  destruct 1 as [| | | | |a items l Ds Ha|a items d Ds Ha]; try done;
    simpl; unfold bind, read; by rewrite Ha.
Qed.

(** A dictionary without shared objects, after the value of one of its
    keys has been replaced by a new value that shares nothing with the
    other values. *)
Lemma set_child_replace (hc h2 : heap) c (i1 i2 : list (string * hval)) k ck
    (d1 d2 : list (string * value)) Ds1 Dck Ds2 r x Dr :
  NoDup (i1 ++ (k, ck) :: i2).*1 →
  Forall3 (fun kv kx D => kv.1 = kx.1 ∧ tree hc kv.2 kx.2 D) i1 d1 Ds1 →
  Forall3 (fun kv kx D => kv.1 = kx.1 ∧ tree hc kv.2 kx.2 D) i2 d2 Ds2 →
  NoDup (c :: concat (Ds1 ++ Dck :: Ds2)) → c < length hc →
  length hc ≤ length h2 →
  (∀ a, a < length hc → a ∉ Dck → h2 !! a = hc !! a) →
  tree h2 r x Dr → (∀ a, a ∈ Dr → a ∈ Dck ∨ length hc ≤ a) →
  tree (<[c := ODict (i1 ++ (k, r) :: i2)]> h2) (HRef c)
    (VDict (d1 ++ (k, x) :: d2)) (c :: concat (Ds1 ++ Dr :: Ds2)).
Proof.
  intros Hkeys H1 H2 Hnd Hc Hlen Hfr Hr HDr.
  apply NoDup_cons in Hnd as [Hc' Hnd].
  rewrite concat_app in Hc', Hnd. simpl in Hc', Hnd.
  apply NoDup_app in Hnd as (Hnd1 & Hd1 & Hnd2).
  apply NoDup_app in Hnd2 as (Hndk & Hdk & Hnd2).
  rewrite !elem_of_app in Hc'.
  assert (Hag : ∀ a, a < length hc → a ≠ c → a ∉ Dck →
                     <[c := ODict (i1 ++ (k, r) :: i2)]> h2 !! a = hc !! a).
  { intros a Ha Hac HaD. rewrite list_lookup_insert_ne by done. by apply Hfr. }
  apply (tree_dict _ _ (i1 ++ (k, r) :: i2)).
  - apply list_lookup_insert_eq. lia.
  - replace ((i1 ++ (k, r) :: i2).*1) with ((i1 ++ (k, ck) :: i2).*1);
      [done|]. by rewrite !fmap_app.
  - apply Forall3_app; [|constructor].
    + eapply entries_agree; [exact H1|]. intros a Ha.
      apply Hag; [exact (entries_lt _ _ _ _ _ H1 Ha)|intros ->; tauto|].
      intros HaD. apply (Hd1 a Ha). apply elem_of_app. by left.
    + split; [done|]. eapply tree_agree; [exact Hr|]. intros a Ha.
      rewrite list_lookup_insert_ne; [done|]. intros <-.
      destruct (HDr _ Ha); [tauto|lia].
    + eapply entries_agree; [exact H2|]. intros a Ha.
      apply Hag; [exact (entries_lt _ _ _ _ _ H2 Ha)|intros ->; tauto|].
      intros HaD. by apply (Hdk a).
  - apply NoDup_cons. rewrite concat_app. simpl. split.
    + rewrite !elem_of_app. intros [?|[Ha|?]]; [tauto| |tauto].
      destruct (HDr _ Ha); [tauto|lia].
    + apply NoDup_app. split; [done|]. split.
      * intros a Ha1 [Ha|Ha]%elem_of_app.
        -- destruct (HDr _ Ha) as [?|?].
           ++ apply (Hd1 a Ha1). apply elem_of_app. by left.
           ++ pose proof (entries_lt _ _ _ _ _ H1 Ha1). lia.
        -- apply (Hd1 a Ha1). apply elem_of_app. by right.
      * apply NoDup_app. split; [by eapply tree_NoDup|]. split; [|done].
        intros a Ha Ha2. destruct (HDr _ Ha) as [?|?].
        -- by apply (Hdk a).
        -- pose proof (entries_lt _ _ _ _ _ H2 Ha2). lia.
Qed.

Lemma set_child_append (hc h2 : heap) c (citems : list (string * hval)) k
    (cdc : list (string * value)) Dcs r x Dr :
  NoDup citems.*1 → k ∉ citems.*1 →
  Forall3 (fun kv kx D => kv.1 = kx.1 ∧ tree hc kv.2 kx.2 D) citems cdc Dcs →
  NoDup (c :: concat Dcs) → c < length hc →
  length hc ≤ length h2 →
  (∀ a, a < length hc → h2 !! a = hc !! a) →
  tree h2 r x Dr → (∀ a, a ∈ Dr → length hc ≤ a) →
  tree (<[c := ODict (citems ++ [(k, r)])]> h2) (HRef c)
    (VDict (cdc ++ [(k, x)])) (c :: concat (Dcs ++ [Dr])).
Proof.
  intros Hkeys Hk H1 Hnd Hc Hlen Hfr Hr HDr.
  apply NoDup_cons in Hnd as [Hc' Hnd].
  apply (tree_dict _ _ (citems ++ [(k, r)])).
  - apply list_lookup_insert_eq. lia.
  - rewrite fmap_app. simpl. apply NoDup_app. split; [done|].
    split; [|apply NoDup_singleton].
    intros k' Hk' ->%list_elem_of_singleton. done.
  - apply Forall3_app; [|constructor; [|constructor]].
    + eapply entries_agree; [exact H1|]. intros a Ha.
      rewrite list_lookup_insert_ne by (intros ->; tauto).
      apply Hfr. exact (entries_lt _ _ _ _ _ H1 Ha).
    + split; [done|]. eapply tree_agree; [exact Hr|]. intros a Ha.
      rewrite list_lookup_insert_ne; [done|]. intros <-.
      specialize (HDr _ Ha). lia.
  - apply NoDup_cons. rewrite concat_app. simpl. rewrite app_nil_r. split.
    + rewrite elem_of_app. intros [?|Ha]; [tauto|].
      specialize (HDr _ Ha). lia.
    + apply NoDup_app. split; [done|]. split; [|by eapply tree_NoDup].
      intros a Ha1 Ha. pose proof (entries_lt _ _ _ _ _ H1 Ha1).
      specialize (HDr _ Ha). lia.
Qed.


Lemma elem_of_concat_mid {A} (Ds1 Ds2 : list (list A)) D a :
  a ∈ concat (Ds1 ++ D :: Ds2) ↔ a ∈ concat Ds1 ∨ a ∈ D ∨ a ∈ concat Ds2.
Proof. rewrite concat_app. simpl. by rewrite !elem_of_app. Qed.

Lemma for_loop_cons {A} (body : A → M heap unit) x l :
  for_loop body (x :: l) = bind (body x) (fun _ => for_loop body l).
Proof. reflexivity. Qed.

(** [update_config] without a copy, on a dictionary and updates that share
    no object: the dictionary becomes the merge, in place. *)
Local Abbreviation merges fuel xu :=
  (∀ ud, xu = VDict ud →
   ∀ (h : heap) c u cd Dc Du,
     tree h (HRef c) (VDict cd) Dc → tree h (HRef u) (VDict ud) Du →
     (∀ a, a ∈ Dc → a ∉ Du) →
     ∃ h' Dc',
       update_config fuel (HRef c) (HRef u) false h = (Ok (HRef c), h') ∧
       tree h' (HRef c) (VDict (merged cd (VDict ud))) Dc' ∧
       (∀ a, a ∈ Dc' → a ∈ Dc ∨ length h ≤ a) ∧
       unchanged_except Dc h h').

(** One round of the loop of [update_config]. *)
Lemma merge_step f (hc : heap) c k v xv Dv cdc Dcc :
  merges f xv → depth xv ≤ f →
  tree hc (HRef c) (VDict cdc) Dcc → tree hc v xv Dv →
  (∀ a, a ∈ Dcc → a ∉ Dv) →
  ∃ h3 Dcc',
    (let* items := dict_items c in
     let* both :=
       match hdict_get items k with
       | Some ck =>
           let* config_k_is_dict := is_dict ck in
           let* v_is_dict := is_dict v in
           ret (if config_k_is_dict && v_is_dict then Some ck else None)
       | None => ret None
       end in
     match both with
     | Some ck =>
         let* r := update_config f ck v false in
         dict_setitem c k r
     | None =>
         let* r := deepcopy f v in
         dict_setitem c k r
     end) hc = (Ok tt, h3) ∧
    tree h3 (HRef c)
      (VDict (dict_set cdc k
                (match dict_get cdc k, xv with
                 | Some (VDict ck), VDict _ => VDict (merged ck xv)
                 | _, _ => xv
                 end))) Dcc' ∧
    (∀ a, a ∈ Dcc' → a ∈ Dcc ∨ length hc ≤ a) ∧
    unchanged_except Dcc hc h3.
Proof.
  intros Hm Hd Hc Hv Hdisj.
  inversion Hc as [| | | | | |c' citems cdc' Dcs Hcc Hkeys Hent Hnd];
    simplify_eq.
  assert (Hclt : c < length hc) by (by eapply lookup_lt_Some).
  erewrite bind_ok; [|apply dict_items_run; exact Hcc].
  pose proof (entries_get hc citems cdc Dcs k Hent) as Hget.
  destruct (hdict_get citems k) as [ck|] eqn:Hk.
  - destruct Hget as (i1 & i2 & d1 & d2 & xk & Ds1 & Ds2 & Dck & -> & -> & -> &
                      Hi1 & Hd1 & H1 & Hck & H2).
    erewrite bind_ok;
      [|erewrite bind_ok; [|eapply is_dict_tree; exact Hck];
        erewrite bind_ok; [|eapply is_dict_tree; exact Hv]; reflexivity].
    rewrite (dict_get_split d1 d2 k xk Hd1), (dict_set_split d1 d2 k xk _ Hd1).
    assert (HDck : ∀ a, a ∈ Dck → a ∈ c :: concat (Ds1 ++ Dck :: Ds2)).
    { intros a Ha. right. apply elem_of_concat_mid. tauto. }
    assert (HcDck : c ∉ Dck).
    { intros Hin. apply NoDup_cons in Hnd as [Hnd _]. apply Hnd.
      apply elem_of_concat_mid. tauto. }
    assert (Hcase :
      (∃ ckd vd, xk = VDict ckd ∧ xv = VDict vd) ∨
      ((if (match xk with VDict _ => true | _ => false end) &&
           (match xv with VDict _ => true | _ => false end)
        then Some ck else None) = None ∧
       match xk, xv with
       | VDict ck, VDict _ => VDict (merged ck xv)
       | _, _ => xv
       end = xv)).
    { destruct xk, xv; eauto. }
    destruct Hcase as [(ckd & vd & -> & ->)|[-> ->]].
    + cbv iota. cbn [andb].
      inversion Hck as [| | | | | |cka ? ? ? ? ? ? ?]; simplify_eq.
      inversion Hv as [| | | | | |va ? ? ? ? ? ? ?]; simplify_eq.
      destruct (Hm vd eq_refl hc cka va ckd _ _ Hck Hv)
        as (h2 & Dck' & Hrun & Htree & Hsub & Hlen & Hfr).
      { intros a Ha. by apply Hdisj, HDck. }
      erewrite bind_ok; [|exact Hrun].
      erewrite dict_setitem_run; [|by rewrite Hfr].
      rewrite hdict_set_split by done.
      eexists _, (c :: concat (Ds1 ++ Dck' :: Ds2)).
      split; [done|]. split; [|split; [|split]].
      * by eapply (set_child_replace hc h2).
      * intros a [->|Ha]%elem_of_cons; [left; by left|].
        apply elem_of_concat_mid in Ha.
        destruct Ha as [Ha|[Ha|Ha]].
        -- left. right. apply elem_of_concat_mid. tauto.
        -- destruct (Hsub _ Ha); [left; by apply HDck|by right].
        -- left. right. apply elem_of_concat_mid. tauto.
      * rewrite length_insert. lia.
      * intros a Ha HaD. rewrite list_lookup_insert_ne.
        -- apply Hfr; [done|]. intros ?. by apply HaD, HDck.
        -- intros <-. apply HaD. by left.
    + destruct (deepcopy_tree hc f v xv Dv Hv Hd)
        as (r & h2 & Dr & Hrun & Htree & HDr & Hlen & Hfr).
      erewrite bind_ok; [|exact Hrun].
      erewrite dict_setitem_run;
        [|by rewrite Hfr by (done || apply not_elem_of_nil)].
      rewrite hdict_set_split by done.
      eexists _, (c :: concat (Ds1 ++ Dr :: Ds2)).
      split; [done|]. split; [|split; [|split]].
      * eapply (set_child_replace hc h2); try done.
        -- intros a Ha _. apply Hfr; [done|apply not_elem_of_nil].
        -- intros a Ha. right. by apply HDr.
      * intros a [->|Ha]%elem_of_cons; [left; by left|].
        apply elem_of_concat_mid in Ha.
        destruct Ha as [Ha|[Ha|Ha]].
        -- left. right. apply elem_of_concat_mid. tauto.
        -- right. by apply HDr.
        -- left. right. apply elem_of_concat_mid. tauto.
      * rewrite length_insert. lia.
      * intros a Ha HaD. rewrite list_lookup_insert_ne.
        -- apply Hfr; [done|apply not_elem_of_nil].
        -- intros <-. apply HaD. by left.
  - destruct Hget as [Hi Hdk].
    erewrite bind_ok; [|reflexivity].
    assert (Hnone : dict_get cdc k = None) by (by apply dict_get_None).
    rewrite Hnone, (dict_set_new cdc k _ Hdk).
    destruct (deepcopy_tree hc f v xv Dv Hv Hd)
      as (r & h2 & Dr & Hrun & Htree & HDr & Hlen & Hfr).
    erewrite bind_ok; [|exact Hrun].
    erewrite dict_setitem_run;
      [|by rewrite Hfr by (done || apply not_elem_of_nil)].
    rewrite hdict_set_new by done.
    eexists _, (c :: concat (Dcs ++ [Dr])).
    split; [done|]. split; [|split; [|split]].
    + eapply (set_child_append hc h2); try done.
      intros a Ha. apply Hfr; [done|apply not_elem_of_nil].
    + intros a [->|Ha]%elem_of_cons; [left; by left|].
      rewrite concat_app in Ha. simpl in Ha.
      rewrite app_nil_r, elem_of_app in Ha.
      destruct Ha as [Ha|Ha]; [left; by right|right; by apply HDr].
    + rewrite length_insert. lia.
    + intros a Ha HaD. rewrite list_lookup_insert_ne.
      * apply Hfr; [done|apply not_elem_of_nil].
      * intros <-. apply HaD. by left.
Qed.


Lemma drop_cons_inv {A} (l : list A) j x rest :
  drop j l = x :: rest → l !! j = Some x ∧ drop (S j) l = rest.
Proof.
  intros H. assert (Hj : l !! j = Some x).
  { rewrite <-(Nat.add_0_r j), <-lookup_drop, H. done. }
  split; [done|]. rewrite (drop_S _ _ _ Hj) in H. by simplify_eq.
Qed.

(** The loop of [update_config] from the position [j] of [updates] on. *)
Lemma merge_loop f (h0 : heap) c u (uitems : list (string * hval))
    (Dc Du : list addr) :
  h0 !! u = Some (ODict uitems) → u ∈ Du →
  (∀ a, a ∈ Dc → a ∉ Du) → (∀ a, a ∈ Du → a < length h0) →
  ∀ rest (rest_ud : list (string * value)) rest_Ds,
    Forall3 (fun kv kx D => kv.1 = kx.1 ∧ tree h0 kv.2 kx.2 D)
      rest rest_ud rest_Ds →
    (∀ a, a ∈ concat rest_Ds → a ∈ Du) →
    Forall (fun kx => merges f kx.2 ∧ depth kx.2 ≤ f) rest_ud →
    ∀ j hc cdc Dcc,
      drop j uitems = rest →
      tree hc (HRef c) (VDict cdc) Dcc →
      (∀ a, a ∈ Dcc → a ∈ Dc ∨ length h0 ≤ a) →
      unchanged_except Dc h0 hc →
      ∃ h' Dc',
        for_loop (fun i =>
          let* items := dict_items u in
          if negb (length items =? length uitems) then raise RuntimeError
          else match items !! i with
               | Some (k, v) =>
                   let* items := dict_items c in
                   let* both :=
                     match hdict_get items k with
                     | Some ck =>
                         let* config_k_is_dict := is_dict ck in
                         let* v_is_dict := is_dict v in
                         ret (if config_k_is_dict && v_is_dict
                              then Some ck else None)
                     | None => ret None
                     end in
                   match both with
                   | Some ck =>
                       let* r := update_config f ck v false in
                       dict_setitem c k r
                   | None =>
                       let* r := deepcopy f v in
                       dict_setitem c k r
                   end
               | None => raise RuntimeError
               end) (seq j (length rest)) hc = (Ok tt, h') ∧
        tree h' (HRef c)
          (VDict (foldl (fun config kv =>
                           dict_set config kv.1
                             (match dict_get config kv.1, kv.2 with
                              | Some (VDict ck), VDict _ =>
                                  VDict (merged ck kv.2)
                              | _, _ => kv.2
                              end)) cdc rest_ud)) Dc' ∧
        (∀ a, a ∈ Dc' → a ∈ Dc ∨ length h0 ≤ a) ∧
        unchanged_except Dc h0 h'.
Proof.
  intros Hu HuD Hdisj Hlt.
  induction 1 as [|[k v] [k' xv] Dv rest rest_ud rest_Ds [Hk Hv] _ IH];
    intros Hsub Hall j hc cdc Dcc Hdrop Hc HDcc Hun.
  - exists hc, Dcc. split; [done|]. split; [done|]. by split.
  - cbn [fst snd] in Hk, Hv. subst k'. simpl in Hsub.
    apply Forall_cons in Hall as [[Hm Hd] Hall]. cbn [snd] in Hm, Hd.
    apply drop_cons_inv in Hdrop as [Hj Hdrop].
    destruct Hun as [Hlen Hfr].
    assert (Huc : hc !! u = Some (ODict uitems)).
    { rewrite Hfr; [done|by apply Hlt|]. intros ?. by eapply Hdisj. }
    assert (Hvc : tree hc v xv Dv).
    { eapply tree_agree; [exact Hv|]. intros a Ha.
      assert (a ∈ Du) by (apply Hsub, elem_of_app; by left).
      apply Hfr; [by apply Hlt|]. intros ?. by eapply Hdisj. }
    destruct (merge_step f hc c k v xv Dv cdc Dcc Hm Hd Hc Hvc)
      as (h3 & Dcc' & Hstep & Hc3 & HDcc' & Hlen3 & Hfr3).
    { intros a Ha HaD.
      assert (HaDu : a ∈ Du) by (apply Hsub, elem_of_app; by left).
      destruct (HDcc a Ha) as [?|?]; [by eapply Hdisj|].
      specialize (Hlt a HaDu). lia. }
    destruct (IH (fun a Ha => Hsub a (proj2 (elem_of_app _ _ _) (or_intror Ha)))
                Hall (S j) h3 _ Dcc' Hdrop Hc3)
      as (h' & Dc' & Hloop & Hc' & HDc' & Hun').
    + intros a Ha. destruct (HDcc' a Ha) as [?|?]; [by apply HDcc|].
      right. lia.
    + split; [lia|]. intros a Ha HaD. rewrite Hfr3; [by apply Hfr|lia|].
      intros HaDcc. destruct (HDcc a HaDcc); [done|lia].
    + exists h', Dc'. split; [|done].
      cbn [length seq]. rewrite for_loop_cons.
      erewrite bind_ok; [exact Hloop|].
      erewrite bind_ok; [|apply dict_items_run; exact Huc].
      rewrite Nat.eqb_refl. cbn [negb]. rewrite Hj. exact Hstep.
Qed.

Lemma depth_dict_elem (d : list (string * value)) kx :
  kx ∈ d → S (depth kx.2) ≤ depth (VDict d).
Proof.
  intros Hin. simpl.
  pose proof (foldr_max_le (fun kv : string * value => depth kv.2) d kx Hin).
  simpl in *. lia.
Qed.

Lemma merge_in_place xu : ∀ fuel, depth xu ≤ fuel → merges fuel xu.
Proof.
  induction xu as [| | | | | |ud0 IH] using value_ind;
    intros fuel Hd ud Hxu; simplify_eq.
  intros h c u cd Dc Du Hc Hu Hdisj.
  destruct fuel as [|f]; [simpl in Hd; lia|].
  inversion Hu as [| | | | | |u' uitems ud' Dus Huu Hkeys Hent Hnd];
    simplify_eq.
  assert (Hlt : ∀ a, a ∈ u :: concat Dus → a < length h)
    by (intros a Ha; by eapply tree_lt).
  assert (Hsub : ∀ a, a ∈ concat Dus → a ∈ u :: concat Dus)
    by (intros a Ha; by right).
  assert (Hall : Forall (fun kx : string * value =>
                           merges f kx.2 ∧ depth kx.2 ≤ f) ud).
  { rewrite Forall_forall in IH. apply Forall_forall. intros kx Hkx.
    pose proof (depth_dict_elem ud kx Hkx).
    split; [apply IH; [done|lia]|lia]. }
  assert (HDc : ∀ a, a ∈ Dc → a ∈ Dc ∨ length h ≤ a) by (intros; by left).
  assert (Hun : unchanged_except Dc h h) by (by split).
  destruct (merge_loop f h c u uitems Dc (u :: concat Dus) Huu
              (list_elem_of_here _ _) Hdisj Hlt uitems ud Dus Hent Hsub Hall
              0 h cd Dc eq_refl Hc HDc Hun)
    as (h' & Dc' & Hloop & Hc' & HDc' & Hun').
  rewrite <-merged_unfold in Hc'.
  exists h', Dc'. split; [|done].
  cbn [update_config]. erewrite bind_ok; [|reflexivity]. cbv beta iota.
  erewrite bind_ok; [reflexivity|].
  unfold for_items.
  erewrite bind_ok; [|apply dict_items_run; exact Huu]. cbv beta zeta.
  erewrite bind_ok; [|exact Hloop].
  erewrite bind_ok.
  - rewrite Nat.eqb_refl. reflexivity.
  - apply dict_items_run. destruct Hun' as [_ Hfr].
    rewrite Hfr; [done|by eapply lookup_lt_Some|].
    intros ?. eapply Hdisj; [done|by left].
Qed.


(** [update_config] on a dictionary and updates without shared objects:
    what it returns stands for the merge.  With a copy, what it returns is
    made of new objects and no object that was there is written; without,
    it is the dictionary that was given, and the objects that are written
    are new or objects of this dictionary. *)
Lemma update_config_tree (h : heap) fuel (copy : bool) config updates cd ud
    Dc Du :
  tree h config (VDict cd) Dc → tree h updates (VDict ud) Du →
  (copy = false → ∀ a, a ∈ Dc → a ∉ Du) →
  depth (VDict ud) ≤ fuel → (copy = true → depth (VDict cd) < fuel) →
  ∃ r h' D',
    update_config fuel config updates copy h = (Ok r, h') ∧
    tree h' r (VDict (merged cd (VDict ud))) D' ∧
    tree h' updates (VDict ud) Du ∧
    (∀ a, a ∈ D' → a ∉ Du) ∧
    if copy
    then (∀ a, a ∈ D' → length h ≤ a) ∧ unchanged_except [] h h'
    else r = config ∧ (∀ a, a ∈ D' → a ∈ Dc ∨ length h ≤ a) ∧
         unchanged_except Dc h h'.
Proof.
  intros Hc Hu Hdisj Hdu Hdc.
  assert (HDu : ∀ a, a ∈ Du → a < length h) by (intros; by eapply tree_lt).
  destruct copy.
  - destruct fuel as [|f]; [simpl in Hdu; lia|].
    destruct (deepcopy_tree h f config (VDict cd) Dc Hc)
      as (r0 & h1 & D1 & Hcopy & Hr0 & HD1 & Hlen1 & Hfr1);
      [specialize (Hdc eq_refl); lia|].
    assert (Hu1 : tree h1 updates (VDict ud) Du).
    { eapply tree_agree; [exact Hu|]. intros a Ha.
      apply Hfr1; [by apply HDu|apply not_elem_of_nil]. }
    inversion Hr0 as [| | | | | |c' ? ? ? ? ? ? ?]; simplify_eq.
    inversion Hu1 as [| | | | | |u' ? ? ? ? ? ? ?]; simplify_eq.
    destruct (merge_in_place (VDict ud) (S f) Hdu ud eq_refl
                h1 c' u' cd _ _ Hr0 Hu1)
      as (h' & D' & Hrun & Hres & HD' & Hlen' & Hfr').
    { intros a Ha HaD. specialize (HD1 a Ha). specialize (HDu a HaD). lia. }
    exists (HRef c'), h', D'.
    assert (HD'' : ∀ a, a ∈ D' → length h ≤ a).
    { intros a Ha. destruct (HD' a Ha) as [Ha1|?]; [by apply HD1|lia]. }
    split; [|split; [done|split; [|split; [|split; [done|split; [lia|]]]]]].
    + cbn [update_config]. erewrite bind_ok; [|exact Hcopy]. exact Hrun.
    + eapply tree_agree; [exact Hu1|]. intros a Ha.
      apply Hfr'; [specialize (HDu a Ha); lia|].
      intros Ha1. specialize (HD1 a Ha1). specialize (HDu a Ha). lia.
    + intros a Ha HaD. specialize (HD'' a Ha). specialize (HDu a HaD). lia.
    + intros a Ha _. rewrite Hfr'; [|lia|].
      * apply Hfr1; [done|apply not_elem_of_nil].
      * intros Ha1. specialize (HD1 a Ha1). lia.
  - specialize (Hdisj eq_refl).
    inversion Hc as [| | | | | |c' ? ? ? ? ? ? ?]; simplify_eq.
    inversion Hu as [| | | | | |u' ? ? ? ? ? ? ?]; simplify_eq.
    destruct (merge_in_place (VDict ud) fuel Hdu ud eq_refl
                h c' u' cd _ _ Hc Hu Hdisj)
      as (h' & D' & Hrun & Hres & HD' & Hun').
    exists (HRef c'), h', D'.
    split; [done|]. split; [done|]. split; [|split; [|done]].
    + eapply tree_agree; [exact Hu|]. intros a Ha. destruct Hun' as [_ Hfr'].
      apply Hfr'; [by apply HDu|]. intros ?. by eapply Hdisj.
    + intros a Ha HaD. destruct (HD' a Ha) as [?|?]; [by eapply Hdisj|].
      specialize (HDu a HaD). lia.
Qed.

(** The keys of the dictionaries of a value without shared objects are
    distinct. *)
Lemma tree_distinct_keys (h : heap) x : ∀ v D, tree h v x D → distinct_keys x.
Proof.
  induction x as [| | | | |l IH|d IH] using value_ind; intros v D Ht;
    try (by apply distinct_scalar).
  - inversion Ht as [| | | | |a items ? Ds Ha Hent Hnd|]; simplify_eq.
    apply distinct_list. clear -IH Hent.
    induction Hent as [|? x ? ? l ? Hx _ IHl]; [constructor|].
    apply Forall_cons in IH as [IHx IH]. constructor; eauto.
  - inversion Ht as [| | | | | |a items ? Ds Ha Hkeys Hent Hnd]; simplify_eq.
    apply distinct_dict.
    + by rewrite <-(entries_keys _ _ _ _ Hent).
    + clear -IH Hent.
      induction Hent as [|? x ? ? l ? [_ Hx] _ IHl]; [constructor|].
      apply Forall_cons in IH as [IHx IH]. constructor; eauto.
Qed.

Lemma tree_dict_keys (h : heap) v (d : list (string * value)) D :
  tree h v (VDict d) D →
  ∃ a items, v = HRef a ∧ h !! a = Some (ODict items) ∧ items.*1 = d.*1 ∧
             NoDup d.*1.
Proof.
  inversion 1 as [| | | | | |a items ? Ds Ha Hkeys Hent Hnd]; simplify_eq.
  exists a, items. split; [done|]. split; [done|].
  pose proof (entries_keys _ _ _ _ Hent) as Hk. split; [done|].
  by rewrite <-Hk.
Qed.

(** The depth of a merge. *)
Lemma depth_dict_get (d : list (string * value)) k x :
  dict_get d k = Some x → S (depth x) ≤ depth (VDict d).
Proof.
  induction d as [|[k' v] d IH]; simpl; [done|].
  destruct (String.eqb k' k); [intros; simplify_eq; lia|].
  intros Hx. specialize (IH Hx). simpl in IH. lia.
Qed.

Lemma depth_dict_set (d : list (string * value)) k x m :
  depth (VDict d) ≤ S m → depth x ≤ m → depth (VDict (dict_set d k x)) ≤ S m.
Proof.
  induction d as [|[k' v] d IH]; simpl; [lia|].
  destruct (String.eqb k' k); simpl; [lia|].
  intros Hd Hx. assert (depth (VDict d) ≤ S m) by (simpl; lia).
  specialize (IH H Hx). simpl in IH. lia.
Qed.

Lemma depth_merged (xu : value) :
  ∀ m cd, depth (VDict cd) ≤ m → depth xu ≤ m →
          depth (VDict (merged cd xu)) ≤ m.
Proof.
  induction xu as [| | | | | |ud IH] using value_ind; intros m cd Hcd Hud;
    try done.
  rewrite merged_unfold.
  destruct m as [|m]; [simpl in Hcd; lia|].
  assert (Hall : Forall (fun kv : string * value => depth kv.2 ≤ m) ud).
  { apply Forall_forall. intros kx Hkx.
    pose proof (depth_dict_elem ud kx Hkx). lia. }
  clear Hud. revert cd Hcd.
  induction ud as [|[k v] ud IHud]; intros cd Hcd; [done|].
  apply Forall_cons in IH as [IHv IH]. apply Forall_cons in Hall as [Hv Hall].
  cbn [foldl fst snd]. cbn [snd] in IHv, Hv.
  apply IHud; [done..|].
  apply depth_dict_set; [done|].
  destruct (dict_get cd k) as [[| | | | | |ck]|] eqn:Hk; try done.
  destruct v as [| | | | | |vd]; try done.
  pose proof (depth_dict_get cd k _ Hk).
  destruct m as [|m]; [simpl in Hv; lia|].
  specialize (IHv (S m) ck). simpl in *. lia.
Qed.

(** A value that stands for [x] without shared objects is read back as
    [x]. *)
Lemma tree_reify (h : heap) x :
  ∀ fuel v D, tree h v x D → depth x ≤ fuel → reify fuel h v = Some x.
Proof.
  induction x as [| | | | |l IH|d IH] using value_ind; intros fuel v D Ht Hd;
    try (inversion Ht; simplify_eq; by destruct fuel).
  - inversion Ht as [| | | | |a items ? Ds Ha Hent Hnd|]; simplify_eq.
    destruct fuel as [|fuel]; [simpl in Hd; lia|].
    cbn [reify]. rewrite Ha. simpl in Hd. apply le_S_n in Hd.
    assert (Hall : mapM (reify fuel h) items = Some l); [|by rewrite Hall].
    apply mapM_Some_2. clear Ha Hnd Ht. revert Hd.
    induction Hent as [|v x D items l Ds Hx _ IHl]; intros Hd; [constructor|].
    apply Forall_cons in IH as [IHx IH]. simpl in Hd.
    constructor; [eapply IHx; [done|lia]|apply IHl; [done|lia]].
  - inversion Ht as [| | | | | |a items ? Ds Ha Hkeys Hent Hnd]; simplify_eq.
    destruct fuel as [|fuel]; [simpl in Hd; lia|].
    cbn [reify]. rewrite Ha. simpl in Hd. apply le_S_n in Hd.
    assert (Hall : mapM (fun kv : string * hval =>
                           (fun v' => (kv.1, v')) <$> reify fuel h kv.2) items
                   = Some d); [|by rewrite Hall].
    apply mapM_Some_2. clear Ha Hnd Ht Hkeys. revert Hd.
    induction Hent as [|[k v] [k' x] D items d Ds [Hk Hx] _ IHd];
      intros Hd; [constructor|].
    apply Forall_cons in IH as [IHx IH]. simpl in Hd, Hk, Hx, IHx. subst k'.
    constructor; [|apply IHd; [done|lia]].
    cbn [fst snd]. erewrite IHx; [done|done|lia].
Qed.
(** C4 (amended).  On a heap in which [config] and [updates] are
    dictionaries of primitive values that share no object (no dictionary or
    list is the value of two keys or items, and, when [config] is updated in
    place, no object of [updates] is part of [config]), and with recursion
    depth to spare, [update_config] returns a dictionary.  It stands for the
    merge [merged cd (VDict ud)] of the two configurations, and is read back
    as such; in the merge every key [k] of [updates] has the merge of
    [config[k]] and [updates[k]] when [k] is in [config] and both values are
    dictionaries, and [updates[k]] otherwise, and every key of [config] that
    is not in [updates] has the value it has in [config]. *)
Theorem update_config_merge (h : heap) fuel (copy_original : bool)
    config updates cd ud Dc Du :
  tree h config (VDict cd) Dc → tree h updates (VDict ud) Du →
  (copy_original = false → ∀ a, a ∈ Dc → a ∉ Du) →
  depth (VDict ud) ≤ fuel →
  (copy_original = true → depth (VDict cd) < fuel) →
  ∃ r h' res D',
    update_config fuel config updates copy_original h = (Ok r, h') ∧
    tree h' r (VDict res) D' ∧
    (∀ n, depth (VDict cd) ≤ n → depth (VDict ud) ≤ n →
          reify n h' r = Some (VDict res)) ∧
    res = merged cd (VDict ud) ∧
    (∀ k v, dict_get ud k = Some v →
       dict_get res k =
         Some (match dict_get cd k, v with
               | Some (VDict ck), VDict _ => VDict (merged ck v)
               | _, _ => v
               end)) ∧
    (∀ k, dict_get ud k = None → dict_get res k = dict_get cd k).
Proof.
  intros Hc Hu Hdisj Hdu Hdc.
  destruct (update_config_tree h fuel copy_original config updates cd ud
              Dc Du Hc Hu Hdisj Hdu Hdc) as (r & h' & D' & Hrun & Hr & _).
  destruct (tree_dict_keys _ _ _ _ Hu) as (_ & _ & _ & _ & _ & Hnd).
  exists r, h', (merged cd (VDict ud)), D'.
  split; [done|]. split; [done|]. split; [|split; [done|]].
  - intros n Hn1 Hn2. eapply tree_reify; [done|]. by apply depth_merged.
  - by apply merged_lookup.
Qed.

(** X12.  On a heap in which [config] and [updates] are dictionaries that
    share no object (none when [config] is updated in place), and with
    recursion depth to spare, the keys of the dictionary that
    [update_config] returns are the keys of [config] in their order,
    followed by the keys of [updates] that [config] does not have, in the
    order of [updates]. *)
Theorem update_config_key_order (h : heap) fuel (copy_original : bool)
    config updates cd ud Dc Du :
  tree h config (VDict cd) Dc → tree h updates (VDict ud) Du →
  (copy_original = false → ∀ a, a ∈ Dc → a ∉ Du) →
  depth (VDict ud) ≤ fuel →
  (copy_original = true → depth (VDict cd) < fuel) →
  ∃ c u citems uitems,
    config = HRef c ∧ h !! c = Some (ODict citems) ∧
    updates = HRef u ∧ h !! u = Some (ODict uitems) ∧
    ∃ r h' items,
      update_config fuel config updates copy_original h = (Ok (HRef r), h') ∧
      h' !! r = Some (ODict items) ∧
      items.*1 =
        citems.*1 ++ filter (fun k => hdict_get citems k = None) uitems.*1.
Proof.
  intros Hc Hu Hdisj Hdu Hdc.
  destruct (update_config_tree h fuel copy_original config updates cd ud
              Dc Du Hc Hu Hdisj Hdu Hdc) as (r & h' & D' & Hrun & Hr & _).
  destruct (tree_dict_keys _ _ _ _ Hc) as (c & citems & -> & Hhc & Hkc & _).
  destruct (tree_dict_keys _ _ _ _ Hu) as (u & uitems & -> & Hhu & Hku & Hnd).
  destruct (tree_dict_keys _ _ _ _ Hr) as (a & items & -> & Hha & Hka & _).
  exists c, u, citems, uitems. repeat (split; [done|]).
  exists a, h', items. split; [done|]. split; [done|].
  rewrite Hka, (merged_keys cd ud Hnd), Hkc, Hku.
  f_equal. apply filter_ext_Forall, Forall_forall. intros k _.
  inversion Hc as [| | | | | |? ? ? Ds ? ? Hent ?]; simplify_eq.
  unfold dict_mem. clear -Hent.
  induction Hent as [|[k1 v1] [k2 x2] ? ? ? ? [Hk _] _ IH];
    simpl in *; [done|]. subst k2. destruct (String.eqb k1 k); [done|apply IH].
Qed.

(** X13.  On a heap in which [config] and [updates] are dictionaries that
    share no object (none when [config] is updated in place), and with
    recursion depth to spare, applying the same updates a second time
    changes nothing: the dictionary that the second call returns stands for
    the configuration that the first call returned; and [updates] merged
    into a copy of itself gives [updates]. *)
Theorem update_config_idempotent (h : heap) fuel (copy1 copy2 : bool)
    config updates cd ud Dc Du :
  tree h config (VDict cd) Dc → tree h updates (VDict ud) Du →
  (copy1 = false → ∀ a, a ∈ Dc → a ∉ Du) →
  depth (VDict cd) < fuel → depth (VDict ud) < fuel →
  (∃ r1 h1 D1 r2 h2 D2 res,
     update_config fuel config updates copy1 h = (Ok r1, h1) ∧
     tree h1 r1 (VDict res) D1 ∧
     update_config fuel r1 updates copy2 h1 = (Ok r2, h2) ∧
     tree h2 r2 (VDict res) D2) ∧
  (∃ r h' D',
     update_config fuel updates updates true h = (Ok r, h') ∧
     tree h' r (VDict ud) D').
Proof.
  intros Hc Hu Hdisj Hdc Hdu.
  pose proof (tree_distinct_keys _ _ _ _ Hu) as Hdist.
  destruct (merged_idempotent cd ud Hdist) as [Hagain Hself].
  split.
  - destruct (update_config_tree h fuel copy1 config updates cd ud
                Dc Du Hc Hu Hdisj) as (r1 & h1 & D1 & Hrun1 & Hr1 & Hu1 & Hd1 & _);
      [lia..|].
    destruct (update_config_tree h1 fuel copy2 r1 updates _ ud
                D1 Du Hr1 Hu1) as (r2 & h2 & D2 & Hrun2 & Hr2 & _).
    + intros _. exact Hd1.
    + lia.
    + intros _. pose proof (depth_merged (VDict ud) (fuel - 1) cd). lia.
    + rewrite Hagain in Hr2. by exists r1, h1, D1, r2, h2, D2, (merged cd (VDict ud)).
  - destruct (update_config_tree h fuel true updates updates ud ud
                Du Du Hu Hu) as (r & h' & D' & Hrun & Hr & _); [done|lia..|].
    rewrite Hself in Hr. by exists r, h', D'.
Qed.

End TreeFacts.

Section TreeInstances.
Import Config ConfigSpec Heap HeapSpec HeapExamples ConfigExamples.

Lemma base_cfg_tree : tree base_heap (HRef 0) (VDict base_cfg) [0; 1].
Proof.
  eapply (tree_dict _ 0 _ _ [[]; [1]; []]); [reflexivity|compute_done| |compute_done].
  repeat constructor.
  eapply (tree_dict _ 1 _ _ [[]; []]); [reflexivity|compute_done| |compute_done].
  repeat constructor.
Qed.

Lemma base_updates_tree :
  tree base_heap (HRef 2) (VDict base_updates) [2; 3; 4].
Proof.
  eapply (tree_dict _ 2 _ _ [[3]; [4]; []]); [reflexivity|compute_done| |compute_done].
  repeat constructor.
  - eapply (tree_dict _ 3 _ _ [[]; []]); [reflexivity|compute_done| |compute_done].
    repeat constructor.
  - eapply (tree_dict _ 4 _ _ [[]]); [reflexivity|compute_done| |compute_done].
    repeat constructor.
Qed.

Lemma update_config_merge_witness :
  tree base_heap (HRef 0) (VDict base_cfg) [0; 1] ∧
  tree base_heap (HRef 2) (VDict base_updates) [2; 3; 4] ∧
  ∃ r h' res D',
    update_config 10 (HRef 0) (HRef 2) false base_heap = (Ok r, h') ∧
    tree h' r (VDict res) D' ∧
    (∀ n, depth (VDict base_cfg) ≤ n → depth (VDict base_updates) ≤ n →
          reify n h' r = Some (VDict res)) ∧
    res = merged base_cfg (VDict base_updates) ∧
    (∀ k v, dict_get base_updates k = Some v →
       dict_get res k =
         Some (match dict_get base_cfg k, v with
               | Some (VDict ck), VDict _ => VDict (merged ck v)
               | _, _ => v
               end)) ∧
    (∀ k, dict_get base_updates k = None →
          dict_get res k = dict_get base_cfg k).
Proof.
  split; [exact base_cfg_tree|]. split; [exact base_updates_tree|].
  apply (update_config_merge base_heap 10 false (HRef 0) (HRef 2)
           base_cfg base_updates [0; 1] [2; 3; 4]
           base_cfg_tree base_updates_tree).
  - intros _ a Ha Hb. revert Ha Hb. rewrite !elem_of_cons, !elem_of_nil. lia.
  - vm_compute. lia.
  - discriminate.
Defined.

Lemma update_config_merge_counterexample :
  let h := shared_heap in
  ∃ r h',
    update_config 10 (HRef 0) (HRef 2) true h = (Ok r, h') ∧
    HeapSpec.reify 10 h (HRef 0) =
      Some (VDict [("a", VDict [("k", VInt 0)]); ("b", VDict [("k", VInt 0)])]) ∧
    HeapSpec.reify 10 h (HRef 2) = Some (VDict [("a", VDict [("k", VInt 1)])]) ∧
    HeapSpec.reify 10 h' r =
      Some (VDict [("a", VDict [("k", VInt 1)]); ("b", VDict [("k", VInt 1)])]).
Proof. eexists _, _. vm_compute. repeat split. Qed.

Lemma update_config_key_order_witness :
  ∃ r h' items,
    update_config 10 (HRef 0) (HRef 2) true base_heap = (Ok (HRef r), h') ∧
    h' !! r = Some (ODict items) ∧
    items.*1 = ["device"; "train_settings"; "runner"; "method"].
Proof.
  destruct (update_config_key_order base_heap 10 true (HRef 0) (HRef 2)
              base_cfg base_updates [0; 1] [2; 3; 4]
              base_cfg_tree base_updates_tree)
    as (c & u & citems & uitems & Hc & Hhc & Hu & Hhu & r & h' & items
        & Hrun & Hr & Hkeys).
  - discriminate.
  - vm_compute. lia.
  - intros _. vm_compute. lia.
  - exists r, h', items. split; [done|]. split; [done|].
    injection Hc as <-. injection Hu as <-.
    vm_compute in Hhc, Hhu. injection Hhc as <-. injection Hhu as <-.
    exact Hkeys.
Defined.

Lemma update_config_idempotent_witness :
  ∃ r1 h1 D1 r2 h2 D2 res,
    update_config 10 (HRef 0) (HRef 2) true base_heap = (Ok r1, h1) ∧
    tree h1 r1 (VDict res) D1 ∧
    update_config 10 r1 (HRef 2) true h1 = (Ok r2, h2) ∧
    tree h2 r2 (VDict res) D2.
Proof.
  apply (update_config_idempotent base_heap 10 true true (HRef 0) (HRef 2)
           base_cfg base_updates [0; 1] [2; 3; 4]
           base_cfg_tree base_updates_tree).
  - discriminate.
  - vm_compute. lia.
  - vm_compute. lia.
Defined.

End TreeInstances.

(** ** The entry point of train.py *)

Section TrainFacts.
Import Train.
Variable parse_args : list argument → list string → outcome (list (string * py)).

(** C7.  The entry point adds exactly four arguments to its parser: a config
    path, a shuffle index with default 1, a training-set index with default
    0 and a model prefix with default [""].  It invokes [train_network] with
    the four values of the parsed namespace as [config], [shuffle],
    [trainingsetindex] and [modelprefix], every other parameter at its
    default.  The defaults of [train_network] for [shuffle],
    [trainingsetindex] and [modelprefix] are 1, 0 and [""]: a call that gives
    [config] alone binds them so. *)
Theorem entry_point_invokes_train_network argv args config shuffle train_ind
    modelprefix :
  parse_args parser_arguments argv = Ok args →
  getattr args "config_path" = Ok config →
  getattr args "shuffle" = Ok shuffle →
  getattr args "train_ind" = Ok train_ind →
  getattr args "modelprefix" = Ok modelprefix →
  map (fun a => (option_string a, dest a, type a, default a)) parser_arguments =
    [("--config-path", "config_path", TStr, PNone);
     ("--shuffle", "shuffle", TInt, PInt 1);
     ("--train-ind", "train_ind", TInt, PInt 0);
     ("--modelprefix", "modelprefix", TStr, PStr "")] ∧
  main parse_args argv =
    Ok (train_network
          [("config", config); ("shuffle", shuffle);
           ("trainingsetindex", train_ind); ("modelprefix", modelprefix);
           ("device", PNone); ("snapshot_path", PNone);
           ("detector_path", PNone); ("batch_size", PNone); ("epochs", PNone);
           ("save_epochs", PNone); ("display_iters", PNone);
           ("max_snapshots_to_keep", PNone);
           ("pose_threshold", PFloat (1 # 10))]) ∧
  bind_parameters train_network_signature [("config", config)] =
    Ok [("config", config); ("shuffle", PInt 1);
        ("trainingsetindex", PInt 0); ("modelprefix", PStr "");
        ("device", PNone); ("snapshot_path", PNone);
        ("detector_path", PNone); ("batch_size", PNone); ("epochs", PNone);
        ("save_epochs", PNone); ("display_iters", PNone);
        ("max_snapshots_to_keep", PNone);
        ("pose_threshold", PFloat (1 # 10))].
Proof.
  intros Hparse Hc Hs Ht Hm. split; [reflexivity|]. split; [|reflexivity].
  unfold main. by rewrite Hparse, Hc, Hs, Ht, Hm.
Qed.

End TrainFacts.

Lemma entry_point_invokes_train_network_witness :
  Train.main TrainExamples.parse_args
    ["--config-path"; "config.yaml"; "--train-ind"; "2"] =
  Ok (Train.train_network
        [("config", Train.PStr "config.yaml"); ("shuffle", Train.PInt 1);
         ("trainingsetindex", Train.PInt 2); ("modelprefix", Train.PStr "");
         ("device", Train.PNone); ("snapshot_path", Train.PNone);
         ("detector_path", Train.PNone); ("batch_size", Train.PNone);
         ("epochs", Train.PNone); ("save_epochs", Train.PNone);
         ("display_iters", Train.PNone);
         ("max_snapshots_to_keep", Train.PNone);
         ("pose_threshold", Train.PFloat (1 # 10))]).
Proof.
  apply (entry_point_invokes_train_network TrainExamples.parse_args
           ["--config-path"; "config.yaml"; "--train-ind"; "2"]
           [("config_path", Train.PStr "config.yaml");
            ("shuffle", Train.PInt 1); ("train_ind", Train.PInt 2);
            ("modelprefix", Train.PStr "")]);
    reflexivity.
Defined.

(** Without any option the entry point passes the defaults of its parser,
    and no config path. *)
Example entry_point_defaults :
  Train.main TrainExamples.parse_args [] =
  Ok (Train.train_network
        [("config", Train.PNone); ("shuffle", Train.PInt 1);
         ("trainingsetindex", Train.PInt 0); ("modelprefix", Train.PStr "");
         ("device", Train.PNone); ("snapshot_path", Train.PNone);
         ("detector_path", Train.PNone); ("batch_size", Train.PNone);
         ("epochs", Train.PNone); ("save_epochs", Train.PNone);
         ("display_iters", Train.PNone);
         ("max_snapshots_to_keep", Train.PNone);
         ("pose_threshold", Train.PFloat (1 # 10))]).
Proof. reflexivity. Qed.

(** ** pretty_print_config *)

Section PrintingFacts.
Context {float : Type}.
Variable str : @Config.value float → string.
Import Config ConfigSpec Printing.

Lemma string_repeat_add s n m :
  string_repeat s (n + m) = string_repeat s n +:+ string_repeat s m.
Proof.
  induction n as [|n IH]; [done|]. simpl. by rewrite IH, append_assoc.
Qed.

Lemma spaces_nested indent :
  ∃ more, spaces (indent + 2) = spaces indent +:+ more.
Proof.
  unfold spaces. destruct (decide (0 ≤ indent)%Z) as [Hpos|Hneg].
  - exists "  ". by rewrite Z2Nat.inj_add, string_repeat_add by lia.
  - assert (Z.to_nat indent = 0) as -> by lia. by eexists.
Qed.

(** X14.  Every text that [pretty_print_config] hands to [print], at any
    depth of nesting, begins with the indentation that
    [pretty_print_config] was called with. *)
Theorem pretty_print_config_indented (config : @value float) indent :
  Forall (fun text => ∃ rest, text = spaces indent +:+ rest)
         (pretty_print_config str config indent).1.
Proof.
  revert indent.
  induction config as [| | | | | |d IH] using value_ind; intros indent;
    try by constructor.
  cbn [pretty_print_config fst]. apply Forall_concat, Forall_map.
  induction IH as [|[k v] d Hv _ IHd]; constructor; [|done].
  cbn [fst snd] in *.
  assert (Hline : ∀ rest, ∃ rest', spaces indent +:+ k +:+ rest =
                                   spaces indent +:+ rest') by (by eexists).
  destruct v; try (constructor; [apply Hline|constructor]).
  constructor; [apply Hline|].
  destruct (spaces_nested indent) as [more Hmore].
  eapply Forall_impl; [apply (Hv (indent + 2)%Z)|].
  intros line [rest ->]. rewrite Hmore, append_assoc. by eexists.
Qed.


End PrintingFacts.

(** ** The overrides of train_network *)

Section OverridesFacts.
Context {float : Type}.
Import Config Heap HeapSpec Overrides.

Local Abbreviation heap := (list (@obj float)).
Local Abbreviation hval := (@hval float).

Lemma hdict_get_set (items : list (string * hval)) k v k' :
  hdict_get (hdict_set items k v) k' =
    if String.eqb k k' then Some v else hdict_get items k'.
Proof.
  induction items as [|[k0 v0] items IH]; simpl.
  - done.
  - destruct (String.eqb_spec k0 k) as [->|Hne]; simpl.
    + by destruct (String.eqb k k').
    + rewrite IH. destruct (String.eqb_spec k0 k') as [->|?]; [|done].
      destruct (String.eqb_spec k k'); [congruence|done].
Qed.

(** [getitem] reads: it returns what [subscript] finds and leaves the heap
    as it is. *)
Lemma getitem_inv (h h' : heap) x k out :
  getitem x k h = (out, h') →
  h' = h ∧ (∀ v, out = Ok v → subscript h x k = Some v) ∧
  (∀ v, subscript h x k = Some v → out = Ok v).
Proof.
  unfold getitem, subscript, bind, read, ret, raise. intros H.
  destruct x as [| | | | |a]; simplify_eq; try done.
  destruct (h !! a) as [[items|items]|]; simplify_eq; try done.
  destruct (hdict_get items k); simplify_eq; try done.
  split; [done|]. split; intros; by simplify_eq.
Qed.

(** [setitem] writes one key of one dictionary. *)
Lemma setitem_inv (h h' : heap) x k v :
  setitem x k v h = (Ok tt, h') →
  ∃ a items, x = HRef a ∧ h !! a = Some (ODict items) ∧
             h' = <[a := ODict (hdict_set items k v)]> h.
Proof.
  unfold setitem, dict_setitem, dict_items, bind, read, write, ret, raise.
  intros H. destruct x as [| | | | |a]; simplify_eq.
  destruct (h !! a) as [[items|items]|] eqn:Ha; simplify_eq.
  by exists a, items.
Qed.

Lemma subscript_write (h : heap) a items k v x k' :
  h !! a = Some (ODict items) →
  subscript (<[a := ODict (hdict_set items k v)]> h) x k' =
    match x with
    | HRef b => if (b =? a) && String.eqb k k' then Some v else subscript h x k'
    | _ => None
    end.
Proof.
  intros Ha. destruct x as [| | | | |b]; try done. simpl.
  destruct (Nat.eqb_spec b a) as [->|Hne]; simpl.
  - rewrite list_lookup_insert_eq by (by eapply lookup_lt_Some).
    rewrite hdict_get_set, Ha. done.
  - by rewrite list_lookup_insert_ne.
Qed.

Lemma override_inv (find : M heap hval) (look : heap → option hval) k v
    (m : M heap unit) (h h' : heap) :
  (∀ h out h1, find h = (out, h1) →
     h1 = h ∧ ∀ x, out = Ok x → look h = Some x) →
  (∀ h, m h = (let* d := find in setitem d k v) h) →
  unless_none v m h = (Ok tt, h') →
  ∃ target,
    override_effect h h' target k v ∧
    (∀ x, target = Some x → v ≠ HNone ∧ look h = Some x) ∧
    (v ≠ HNone → ∃ t, target = Some (HRef t)).
Proof.
  intros Hfind Hm H.
  assert (Hset : v ≠ HNone → m h = (Ok tt, h') →
                 ∃ target,
                   override_effect h h' target k v ∧
                   (∀ x, target = Some x → v ≠ HNone ∧ look h = Some x) ∧
                   (v ≠ HNone → ∃ t, target = Some (HRef t))).
  { clear H. rewrite Hm. intros Hv H.
    apply bind_inv in H as [(e & _ & ?)|(d & h1 & Hd & H)]; [done|].
    apply Hfind in Hd as [-> Hd]. specialize (Hd d eq_refl).
    apply setitem_inv in H as (t & items & -> & Ht & ->).
    exists (Some (HRef t)).
    split; [|split; [by intros x [= <-]|by exists t]].
    split; [by rewrite length_insert|]. split; [|split].
    - intros a Ha. apply list_lookup_insert_ne. congruence.
    - intros x k' Hk. rewrite (subscript_write h t items k v x k' Ht).
      destruct x as [| | | | |b]; try done.
      destruct (Nat.eqb_spec b t) as [->|]; [|done].
      destruct (String.eqb_spec k k') as [->|]; [|done].
      by specialize (Hk eq_refl).
    - intros x [= <-]. rewrite (subscript_write h t items k v _ k Ht).
      by rewrite Nat.eqb_refl, String.eqb_refl. }
  destruct v; cbn [unless_none] in H; try (by apply Hset).
  unfold ret in H. simplify_eq. exists None. by repeat split.
Qed.

Lemma override_effect_other (h h' : heap) target k v x k' :
  override_effect h h' target k v → k' ≠ k → subscript h' x k' = subscript h x k'.
Proof. intros (_ & _ & H & _) Hk. by apply H. Qed.

Lemma find1 (model_cfg : hval) k (h : heap) out h1 :
  getitem model_cfg k h = (out, h1) →
  h1 = h ∧ ∀ x, out = Ok x → subscript h model_cfg k = Some x.
Proof. intros (-> & H & _)%getitem_inv. by split. Qed.

Lemma find2 (model_cfg : hval) k1 k2 (h : heap) out h1 :
  (let* r := getitem model_cfg k1 in getitem r k2) h = (out, h1) →
  h1 = h ∧ ∀ x, out = Ok x →
    subscript h model_cfg k1 ≫= (fun r => subscript h r k2) = Some x.
Proof.
  intros H. apply bind_inv in H as [(e & H & ->)|(r & h2 & Hr & H)].
  - apply getitem_inv in H as [-> _]. by split.
  - apply getitem_inv in Hr as (-> & Hr & _).
    apply getitem_inv in H as (-> & H & _). split; [done|].
    intros x ->. rewrite (Hr r eq_refl). simpl. by apply H.
Qed.

(** X16.  When the overrides of [train_network] succeed, no object is
    created, and the only objects that are written are the dictionary
    [train_settings] of the configuration, when [batch_size], [epochs] or
    [display_iters] is given, and the dictionary [snapshots] of its
    [runner], when [save_epochs] is given.  An override that is given is
    found at its place.  Every other entry of every dictionary is as it was,
    whether or not the dictionaries of the configuration are shared. *)
Theorem train_network_overrides_frame (h h' : heap)
    (model_cfg batch_size epochs save_epochs display_iters : hval) :
  train_network_overrides model_cfg batch_size epochs save_epochs display_iters
    h = (Ok tt, h') →
  let train_settings := subscript h model_cfg "train_settings" in
  let snapshots :=
    subscript h model_cfg "runner" ≫= (fun r => subscript h r "snapshots") in
  length h' = length h ∧
  (∀ a,
     (batch_size ≠ HNone ∨ epochs ≠ HNone ∨ display_iters ≠ HNone →
      train_settings ≠ Some (HRef a)) →
     (save_epochs ≠ HNone → snapshots ≠ Some (HRef a)) →
     h' !! a = h !! a) ∧
  (batch_size ≠ HNone →
     ∃ t, train_settings = Some (HRef t) ∧
          subscript h' model_cfg "train_settings" = Some (HRef t) ∧
          subscript h' (HRef t) "batch_size" = Some batch_size) ∧
  (epochs ≠ HNone →
     ∃ t, train_settings = Some (HRef t) ∧
          subscript h' model_cfg "train_settings" = Some (HRef t) ∧
          subscript h' (HRef t) "epochs" = Some epochs) ∧
  (display_iters ≠ HNone →
     ∃ t, train_settings = Some (HRef t) ∧
          subscript h' model_cfg "train_settings" = Some (HRef t) ∧
          subscript h' (HRef t) "display_iters" = Some display_iters) ∧
  (save_epochs ≠ HNone →
     ∃ r s, subscript h model_cfg "runner" = Some r ∧
            subscript h r "snapshots" = Some (HRef s) ∧
            subscript h' model_cfg "runner" = Some r ∧
            subscript h' r "snapshots" = Some (HRef s) ∧
            subscript h' (HRef s) "save_epochs" = Some save_epochs) ∧
  (∀ x k,
     (train_settings = Some x →
        (k = "batch_size" → batch_size = HNone) ∧
        (k = "epochs" → epochs = HNone) ∧
        (k = "display_iters" → display_iters = HNone)) →
     (snapshots = Some x → k = "save_epochs" → save_epochs = HNone) →
     subscript h' x k = subscript h x k).
Proof.
  unfold train_network_overrides. intros H.
  apply bind_inv in H as [(e & _ & ?)|([] & h1 & H1 & H)]; [done|].
  apply bind_inv in H as [(e & _ & ?)|([] & h2 & H2 & H)]; [done|].
  apply bind_inv in H as [(e & _ & ?)|([] & h3 & H3 & H4)]; [done|].
  set (ts := fun h : heap => subscript h model_cfg "train_settings").
  set (sn := fun h : heap =>
               subscript h model_cfg "runner" ≫=
                 (fun r => subscript h r "snapshots")).
  apply (override_inv (getitem model_cfg "train_settings") ts
           "batch_size" batch_size) in H1 as (T1 & E1 & L1 & G1);
    [|apply find1|done].
  apply (override_inv (getitem model_cfg "train_settings") ts
           "epochs" epochs) in H2 as (T2 & E2 & L2 & G2);
    [|apply find1|done].
  apply (override_inv (let* r := getitem model_cfg "runner" in
                       getitem r "snapshots") sn
           "save_epochs" save_epochs) in H3 as (T3 & E3 & L3 & G3);
    [|apply find2|].
  2: { intros h0. unfold bind.
       by destruct (getitem model_cfg "runner" h0) as [[?|?] ?]. }
  apply (override_inv (getitem model_cfg "train_settings") ts
           "display_iters" display_iters) in H4 as (T4 & E4 & L4 & G4);
    [|apply find1|done].
  assert (Hts1 : ts h1 = ts h) by (by eapply override_effect_other).
  assert (Hts2 : ts h2 = ts h)
    by (unfold ts; by erewrite (override_effect_other h1 h2), (override_effect_other h h1)).
  assert (Hts3 : ts h3 = ts h)
    by (unfold ts in *; erewrite (override_effect_other h2 h3); done).
  assert (Hts4 : ts h' = ts h)
    by (unfold ts in *; erewrite (override_effect_other h3 h'); done).
  assert (Hsub2 : ∀ x k, k ≠ "batch_size" → k ≠ "epochs" →
                         subscript h2 x k = subscript h x k).
  { intros x k ??.
    by erewrite (override_effect_other h1 h2), (override_effect_other h h1). }
  assert (Hsn : sn h2 = sn h).
  { unfold sn. rewrite (Hsub2 model_cfg "runner") by done.
    destruct (subscript h model_cfg "runner") as [r|]; [|done]. simpl.
    by apply Hsub2. }
  assert (Hsub' : ∀ x k, k ≠ "save_epochs" → k ≠ "display_iters" →
                         subscript h' x k = subscript h2 x k).
  { intros x k ??.
    by erewrite (override_effect_other h3 h'), (override_effect_other h2 h3). }
  rewrite Hts1 in L2. rewrite Hts3 in L4. rewrite Hsn in L3.
  destruct E1 as (N1 & F1 & S1 & V1), E2 as (N2 & F2 & S2 & V2),
           E3 as (N3 & F3 & S3 & V3), E4 as (N4 & F4 & S4 & V4).
  fold (ts h) (sn h). cbv zeta.
  split; [congruence|]. split; [|split; [|split; [|split; [|split]]]].
  - intros a Hts Hsn'.
    rewrite F4, F3, F2, F1; [done|..].
    + intros HT. destruct (L1 _ HT) as [? ?]. apply Hts; [by left|done].
    + intros HT. destruct (L2 _ HT) as [? ?]. apply Hts; [by right; left|done].
    + intros HT. destruct (L3 _ HT) as [? ?]. by apply Hsn'.
    + intros HT. destruct (L4 _ HT) as [? ?]. apply Hts; [by right; right|done].
  - intros Hv. destruct (G1 Hv) as [t HT]. destruct (L1 _ HT) as [_ Ht].
    exists t. split; [done|]. split; [by rewrite <-Ht, <-Hts4|].
    rewrite Hsub' by done.
    rewrite (S2 (HRef t) "batch_size") by done. by apply V1.
  - intros Hv. destruct (G2 Hv) as [t HT]. destruct (L2 _ HT) as [_ Ht].
    exists t. split; [done|]. split; [by rewrite <-Ht, <-Hts4|].
    rewrite Hsub' by done. by apply V2.
  - intros Hv. destruct (G4 Hv) as [t HT]. destruct (L4 _ HT) as [_ Ht].
    exists t. split; [done|]. split; [by rewrite <-Ht, <-Hts4|].
    by apply V4.
  - intros Hv. destruct (G3 Hv) as [s HT]. destruct (L3 _ HT) as [_ Hs].
    unfold sn in Hs.
    destruct (subscript h model_cfg "runner") as [r|] eqn:Hr; [|done].
    simpl in Hs. exists r, s. split; [done|]. split; [done|].
    split; [by rewrite Hsub', Hsub2|]. split; [by rewrite Hsub', Hsub2|].
    rewrite (S4 (HRef s) "save_epochs") by done. by apply V3.
  - intros x k Hts Hsn'.
    rewrite S4, S3, S2, S1; [done|..].
    + intros HT ->. destruct (L1 _ HT) as [Hv Hx].
      destruct (Hts Hx) as (Hb & _ & _). by apply Hv, Hb.
    + intros HT ->. destruct (L2 _ HT) as [Hv Hx].
      destruct (Hts Hx) as (_ & He & _). by apply Hv, He.
    + intros HT ->. destruct (L3 _ HT) as [Hv Hx]. by apply Hv, Hsn'.
    + intros HT ->. destruct (L4 _ HT) as [Hv Hx].
      destruct (Hts Hx) as (_ & _ & Hd). by apply Hv, Hd.
Qed.

Lemma getitem_run (h : heap) x k v :
  subscript h x k = Some v → getitem x k h = (Ok v, h).
Proof.
  unfold subscript, getitem, bind, read. intros H.
  destruct x as [| | | | |a]; try done.
  destruct (h !! a) as [[items|items]|]; try done. by rewrite H.
Qed.

Lemma getitem_missing (h : heap) a items k :
  h !! a = Some (ODict items) → hdict_get items k = None →
  getitem (HRef a) k h = (Raise KeyError, h).
Proof. intros Ha Hk. unfold getitem, bind, read. by rewrite Ha, Hk. Qed.

(** An override of a setting of [train_settings], on a configuration that
    has this dictionary. *)
Lemma override_setting (h : heap) (model_cfg : hval) t ts k v :
  subscript h model_cfg "train_settings" = Some (HRef t) →
  h !! t = Some (ODict ts) →
  ∃ h',
    unless_none v
      (let* train_settings := getitem model_cfg "train_settings" in
       setitem train_settings k v) h = (Ok tt, h') ∧
    length h' = length h ∧
    (∀ a, a ≠ t → h' !! a = h !! a) ∧
    (∀ a items, h !! a = Some (ODict items) →
                ∃ items', h' !! a = Some (ODict items')) ∧
    (∀ x k', k' ≠ k → subscript h' x k' = subscript h x k').
Proof.
  intros Hts Ht.
  assert (Hset : ∃ h',
    (let* train_settings := getitem model_cfg "train_settings" in
     setitem train_settings k v) h = (Ok tt, h') ∧
    length h' = length h ∧
    (∀ a, a ≠ t → h' !! a = h !! a) ∧
    (∀ a items, h !! a = Some (ODict items) →
                ∃ items', h' !! a = Some (ODict items')) ∧
    (∀ x k', k' ≠ k → subscript h' x k' = subscript h x k')).
  { exists (<[t := ODict (hdict_set ts k v)]> h). split; [|split; [|split; [|split]]].
    - erewrite bind_ok; [|by apply getitem_run].
      unfold setitem, dict_setitem, dict_items.
      erewrite bind_ok; [done|]. unfold bind, read. by rewrite Ht.
    - by rewrite length_insert.
    - intros a Ha. by apply list_lookup_insert_ne.
    - intros a items Ha. destruct (decide (a = t)) as [->|Hne].
      + eexists. apply list_lookup_insert_eq. by eapply lookup_lt_Some.
      + exists items. by rewrite list_lookup_insert_ne.
    - intros x k' Hk. rewrite (subscript_write h t ts k v x k' Ht).
      destruct x as [| | | | |b]; try done.
      destruct (String.eqb_spec k k') as [->|]; [done|].
      by rewrite andb_false_r. }
  destruct v; try exact Hset.
  exists h. split; [done|]. split; [done|]. split; [done|].
  split; [|done]. intros a items Ha. by exists items.
Qed.

(** X17.  On a configuration with a [train_settings] dictionary, an
    override of [save_epochs] raises [KeyError] when the configuration has
    no [runner], or a [runner] dictionary without [snapshots], whatever the
    other overrides; the overrides of [batch_size] and [epochs] have been
    made by then, and no object other than [train_settings] is written. *)
Theorem train_network_overrides_missing_snapshots (h : heap)
    (model_cfg : hval) t ts batch_size epochs save_epochs display_iters :
  subscript h model_cfg "train_settings" = Some (HRef t) →
  h !! t = Some (ODict ts) →
  save_epochs ≠ HNone →
  subscript h model_cfg "runner" = None ∨
    (∃ r runner, subscript h model_cfg "runner" = Some (HRef r) ∧
                 h !! r = Some (ODict runner) ∧
                 hdict_get runner "snapshots" = None) →
  ∃ h',
    train_network_overrides model_cfg batch_size epochs save_epochs
      display_iters h = (Raise KeyError, h') ∧
    length h' = length h ∧
    (∀ a, a ≠ t → h' !! a = h !! a) ∧
    (batch_size ≠ HNone →
       subscript h' (HRef t) "batch_size" = Some batch_size) ∧
    (epochs ≠ HNone → subscript h' (HRef t) "epochs" = Some epochs).
Proof.
  intros Hts Ht Hgiven Hr. unfold train_network_overrides.
  destruct (override_setting h model_cfg t ts "batch_size" batch_size Hts Ht)
    as (h1 & Hrun1 & N1 & F1 & D1 & S1).
  destruct (D1 t ts Ht) as [ts1 Ht1].
  destruct (override_setting h1 model_cfg t ts1 "epochs" epochs)
    as (h2 & Hrun2 & N2 & F2 & D2 & S2); [by rewrite S1|done|].
  exists h2.
  erewrite bind_ok; [|exact Hrun1]. erewrite bind_ok; [|exact Hrun2].
  assert (Hsub : ∀ x k, k ≠ "batch_size" → k ≠ "epochs" →
                        subscript h2 x k = subscript h x k).
  { intros x k ??. by rewrite S2, S1. }
  assert (Hraise :
    (let* runner := getitem model_cfg "runner" in
     let* snapshots := getitem runner "snapshots" in
     setitem snapshots "save_epochs" save_epochs) h2 = (Raise KeyError, h2)).
  { destruct Hr as [Hnone|(r & runner & Hrunner & Hhr & Hsn)].
    - apply bind_raise.
      assert (H2 : subscript h2 model_cfg "train_settings" = Some (HRef t))
        by (by rewrite Hsub).
      assert (Hn2 : subscript h2 model_cfg "runner" = None)
        by (by rewrite Hsub).
      unfold subscript in H2, Hn2.
      destruct model_cfg as [| | | | |c]; try done.
      destruct (h2 !! c) as [[items|items]|] eqn:Hc; try done.
      by eapply getitem_missing.
    - erewrite bind_ok; [|apply getitem_run; by rewrite Hsub].
      apply bind_raise.
      destruct (D1 r runner Hhr) as [runner1 Hr1].
      destruct (D2 r runner1 Hr1) as [runner2 Hr2].
      eapply getitem_missing; [done|].
      assert (Hs : subscript h2 (HRef r) "snapshots" = None).
      { rewrite Hsub by done. unfold subscript. by rewrite Hhr. }
      unfold subscript in Hs. by rewrite Hr2 in Hs. }
  split; [|split; [congruence|split; [|split]]].
  - apply bind_raise. by destruct save_epochs.
  - intros a Ha. by rewrite F2, F1.
  - intros Hv. rewrite S2 by done. clear -Hrun1 Hts Hv.
    destruct batch_size; try done;
      cbn [unless_none] in Hrun1;
      (apply bind_inv in Hrun1 as [(e & _ & ?)|(d & h0 & Hd & H)]; [done|];
       apply getitem_inv in Hd as (-> & Hd & _);
       specialize (Hd d eq_refl); rewrite Hts in Hd; simplify_eq;
       apply setitem_inv in H as (t' & items & ? & Ht' & ->); simplify_eq;
       rewrite (subscript_write h t' items _ _ _ _ Ht');
       by rewrite Nat.eqb_refl).
  - intros Hv. clear -Hrun2 Hts S1 Hv.
    assert (Hts1 : subscript h1 model_cfg "train_settings" = Some (HRef t))
      by (by rewrite S1).
    destruct epochs; try done;
      cbn [unless_none] in Hrun2;
      (apply bind_inv in Hrun2 as [(e & _ & ?)|(d & h0 & Hd & H)]; [done|];
       apply getitem_inv in Hd as (-> & Hd & _);
       specialize (Hd d eq_refl); rewrite Hts1 in Hd; simplify_eq;
       apply setitem_inv in H as (t' & items & ? & Ht' & ->); simplify_eq;
       rewrite (subscript_write h1 t' items _ _ _ _ Ht');
       by rewrite Nat.eqb_refl).
Qed.

End OverridesFacts.

(** ** The parameters of train_network *)

Section TrainBinding.
Import Train.

Lemma bind_parameters_inv signature kwargs ps :
  bind_parameters signature kwargs = Ok ps →
  Forall2 (fun p b => b.1 = p.1 ∧
             Some b.2 = match keyword kwargs p.1 with
                        | Some v => Some v
                        | None => p.2
                        end) signature ps.
Proof.
  revert ps. induction signature as [|[name default] signature IH];
    intros ps H; simpl in H.
  - simplify_eq. constructor.
  - destruct (match keyword kwargs name with Some v => Some v | None => default end)
      as [v|] eqn:Hv; [|done].
    destruct (bind_parameters signature kwargs) as [bound|]; [|done].
    simplify_eq. constructor; [|by apply IH].
    split; [done|]. cbn [fst snd]. by rewrite Hv.
Qed.

Lemma bind_parameters_cons name default signature kwargs :
  bind_parameters ((name, default) :: signature) kwargs =
  match match keyword kwargs name with
        | Some v => Some v
        | None => default
        end with
  | None => Raise TypeError
  | Some v =>
      match bind_parameters signature kwargs with
      | Ok bound => Ok ((name, v) :: bound)
      | Raise e => Raise e
      end
  end.
Proof. reflexivity. Qed.

Lemma bind_parameters_defaults signature kwargs :
  Forall (fun p => is_Some p.2) signature →
  ∃ ps, bind_parameters signature kwargs = Ok ps.
Proof.
  induction 1 as [|[name default] signature [d Hd] _ [ps IH]]; simpl.
  - by eexists.
  - simpl in Hd. subst default. rewrite IH.
    destruct (keyword kwargs name); by eexists.
Qed.

Lemma getattr_raises ns name e :
  getattr ns name = Raise e → e = AttributeError.
Proof.
  induction ns as [|[k v] ns IH]; simpl; [congruence|].
  by destruct (String.eqb k name).
Qed.

(** X18.  [config] is the one parameter of [train_network] that a call has
    to give.  Without it the call is a [TypeError]; with it the call binds
    every parameter of the signature, in its order, to the keyword argument
    of its name when there is one and to its default otherwise. *)
Theorem train_network_requires_config kwargs :
  match keyword kwargs "config" with
  | None => bind_parameters train_network_signature kwargs = Raise TypeError
  | Some config =>
      ∃ ps, bind_parameters train_network_signature kwargs = Ok ps ∧
            Forall2 (fun p b => b.1 = p.1 ∧
                       Some b.2 = match keyword kwargs p.1 with
                                  | Some v => Some v
                                  | None => p.2
                                  end) train_network_signature ps
  end.
Proof.
  destruct (keyword kwargs "config") as [config|] eqn:Hc.
  - assert (∃ ps, bind_parameters train_network_signature kwargs = Ok ps)
      as [ps Hps].
    { unfold train_network_signature. rewrite bind_parameters_cons, Hc.
      edestruct (bind_parameters_defaults) as [ps ->]; [|by eexists].
      repeat constructor; by eexists. }
    exists ps. split; [done|]. by apply bind_parameters_inv.
  - unfold train_network_signature. cbn [bind_parameters]. by rewrite Hc.
Qed.

(** X19.  The entry point calls [train_network] only after the parser has
    returned a namespace, and then with the four attributes of the namespace
    and nothing else; when the parser raises, the entry point raises the
    same exception, and the one other exception it can raise is the
    [AttributeError] of a namespace that lacks an attribute. *)
Theorem entry_point_outcome
    (parse_args : list argument → list string → outcome (list (string * py)))
    argv out :
  main parse_args argv = out →
  match out with
  | Ok (train_network ps) =>
      ∃ args config shuffle train_ind modelprefix,
        parse_args parser_arguments argv = Ok args ∧
        getattr args "config_path" = Ok config ∧
        getattr args "shuffle" = Ok shuffle ∧
        getattr args "train_ind" = Ok train_ind ∧
        getattr args "modelprefix" = Ok modelprefix ∧
        ps = [("config", config); ("shuffle", shuffle);
              ("trainingsetindex", train_ind); ("modelprefix", modelprefix);
              ("device", PNone); ("snapshot_path", PNone);
              ("detector_path", PNone); ("batch_size", PNone);
              ("epochs", PNone); ("save_epochs", PNone);
              ("display_iters", PNone); ("max_snapshots_to_keep", PNone);
              ("pose_threshold", PFloat (1 # 10))]
  | Raise e =>
      parse_args parser_arguments argv = Raise e ∨
      (e = AttributeError ∧ ∃ args, parse_args parser_arguments argv = Ok args)
  end.
Proof.
  intros <-. unfold main.
  destruct (parse_args parser_arguments argv) as [args|e]; [|by left].
  destruct (getattr args "config_path") as [config|e1] eqn:H1;
    destruct (getattr args "shuffle") as [shuffle|e2] eqn:H2;
    destruct (getattr args "train_ind") as [train_ind|e3] eqn:H3;
    destruct (getattr args "modelprefix") as [modelprefix|e4] eqn:H4;
    cbn;
    try (by exists args, config, shuffle, train_ind, modelprefix);
    right; (split; [|by eexists]);
    eauto using getattr_raises.
Qed.

End TrainBinding.

(** ** Further results on objects *)

Section HeapExtra.
Context {float : Type}.
Variables (float_add float_mul : float → float → float)
          (float_of_int : Z → option float) (memory : N).
Import Config Heap HeapSpec.

Local Abbreviation heap := (list (@obj float)).
Local Abbreviation hval := (@hval float).

(** X20.  Without a copy, [update_config] returns the dictionary it was
    given: the updates are made in place. *)
Theorem update_config_in_place_returns_config (h h' : heap) fuel
    (config updates r : hval) :
  update_config fuel config updates false h = (Ok r, h') → r = config.
Proof.
  intros H. destruct fuel as [|fuel]; simpl in H;
    [unfold raise in H; by simplify_eq|].
  erewrite bind_ok in H; [|reflexivity].
  destruct config as [| | | | |c]; try (unfold raise in H; by simplify_eq).
  destruct updates as [| | | | |u]; try (unfold raise in H; by simplify_eq).
  apply bind_inv in H as [(e & _ & ?)|([] & h1 & _ & H)]; [done|].
  unfold ret in H. by simplify_eq.
Qed.

(** X21.  For a placeholder whose value is a list, a bare reference puts
    the list itself into the configuration, without a copy and without a
    change of the heap, whereas a reference with a factor [F] that [int]
    converts creates a new list that holds the items of the list [int(F)]
    times, unless the factor is beyond [sys.maxsize] ([OverflowError]) or
    the new list too long ([MemoryError]), in which cases the heap is left
    as it is. *)
Theorem get_updated_value_of_list (h : heap)
    (updated_values : list (string * hval)) s a items :
  hdict_get updated_values (var_name s) = Some (HRef a) →
  h !! a = Some (OList items) →
  (var_parts s = [var_name s] →
     get_updated_value float_add float_mul float_of_int memory updated_values s h
       = (Ok (HRef a), h)) ∧
  (∀ F, var_parts s = [var_name s; "x"; F] →
        ConfigSpec.is_factor F = true →
     get_updated_value float_add float_mul float_of_int memory updated_values s h
       = if (maxsize <? decimal_value 0 F)%Z then (Raise OverflowError, h)
         else if (maxsize <? Z.of_nat (length items) * decimal_value 0 F)%Z
                 || (Z.of_N memory <? Z.of_nat (length items) * decimal_value 0 F)%Z
         then (Raise MemoryError, h)
         else (Ok (HRef (length h)),
               h ++ [OList (hlist_repeat items
                              (Z.to_nat (decimal_value 0 F)))])).
Proof.
  intros Hv Ha. unfold get_updated_value. fold (var_name s). rewrite Hv.
  split.
  - by intros ->.
  - intros F -> HF.
    destruct (is_factor_int _ HF) as [-> ->]. simpl.
    unfold bind, read. rewrite Ha.
    destruct (maxsize <? decimal_value 0 F)%Z; [done|].
    destruct (maxsize <? Z.of_nat (length items) * decimal_value 0 F)%Z;
      [done|].
    by destruct (Z.of_N memory <? Z.of_nat (length items) * decimal_value 0 F)%Z.
Qed.

End HeapExtra.

(** ** Instances of the further results *)

Section TopDownInstances.
Import TopDown TopDownSpec TopDownExamples.

Local Abbreviation forwardQ := (forward Qplus Qminus Qmult Qdiv inject_Z).

Lemma forward_xyxy_poses_witness :
  ∃ r s' tp,
    forwardQ xyxy 0 1 store0 = (Ok [("poses", r)], s') ∧
    s' !! r = Some (T4 tp) ∧
    ∀ i j l, i < kdim0 crops → j < kdim1 crops → l < kdim2 crops →
      at4 tp i j l 0 =
        Qplus (Qmult (Qdiv (Qminus (at3 boxes i j 2) (at3 boxes i j 0))
                           (inject_Z 256))
                     (at4 crops i j l 0))
              (at3 boxes i j 0) ∧
      at4 tp i j l 1 =
        Qplus (Qmult (Qdiv (Qminus (at3 boxes i j 3) (at3 boxes i j 1))
                           (inject_Z 256))
                     (at4 crops i j l 1))
              (at3 boxes i j 1).
Proof.
  apply (forward_xyxy_poses Qplus Qminus Qmult Qdiv inject_Z store0 xyxy 0 1
           boxes crops).
  - vm_compute. discriminate.
  - reflexivity.
  - reflexivity.
  - repeat split.
Defined.

Lemma convert_too_few_columns_witness :
  ∃ s', _convert_bbox_to_coco Qminus 0 [T3 narrow_boxes]
          = (Raise IndexError, s') ∧
        preserved [T3 narrow_boxes] s' ∧
        s' !! 0 = Some (T3 narrow_boxes).
Proof.
  apply (convert_too_few_columns Qminus [T3 narrow_boxes] 0 narrow_boxes).
  - reflexivity.
  - simpl. lia.
Defined.

Lemma forward_too_few_box_columns_witness :
  ∃ s', forwardQ coco 0 1 [T3 narrow_boxes; T4 crops] = (Raise IndexError, s').
Proof.
  apply (forward_too_few_box_columns Qplus Qminus Qmult Qdiv inject_Z
           [T3 narrow_boxes; T4 crops] coco 0 1 narrow_boxes crops).
  - reflexivity.
  - reflexivity.
  - simpl. lia.
Defined.

Lemma forward_too_few_components_witness :
  ∃ s', forwardQ xyxy 0 1 [T3 boxes; T4 flat_crops] = (Raise IndexError, s').
Proof.
  apply (forward_too_few_components Qplus Qminus Qmult Qdiv inject_Z
           [T3 boxes; T4 flat_crops] xyxy 0 1 boxes flat_crops).
  - reflexivity.
  - reflexivity.
  - reflexivity.
  - reflexivity.
  - simpl. lia.
  - simpl. lia.
Defined.

Lemma forward_batch_mismatch_witness :
  ∃ s', forwardQ xyxy 0 1 [T3 two_boxes; T4 crops] = (Raise RuntimeError, s').
Proof.
  apply (forward_batch_mismatch Qplus Qminus Qmult Qdiv inject_Z
           [T3 two_boxes; T4 crops] xyxy 0 1 two_boxes crops).
  - reflexivity.
  - reflexivity.
  - simpl. lia.
  - simpl. lia.
  - reflexivity.
  - simpl. lia.
  - simpl. lia.
Defined.

Lemma forward_broadcasts_boxes_witness :
  ∃ tp,
    forwardQ coco 0 1 [T3 boxes; T4 two_crops]
      = (Ok [("poses", 2)], [T3 boxes; T4 two_crops] ++ [T4 tp]) ∧
    same_shape two_crops tp ∧
    ∀ i j l, i < kdim0 two_crops → j < kdim1 two_crops → l < kdim2 two_crops →
      at4 tp i j l 0 =
        Qplus (Qmult (Qdiv (at3 boxes (bidx (dim0 boxes) i)
                                      (bidx (dim1 boxes) j) 2)
                           (inject_Z 256))
                     (at4 two_crops i j l 0))
              (at3 boxes (bidx (dim0 boxes) i) (bidx (dim1 boxes) j) 0) ∧
      at4 tp i j l 1 =
        Qplus (Qmult (Qdiv (at3 boxes (bidx (dim0 boxes) i)
                                      (bidx (dim1 boxes) j) 3)
                           (inject_Z 256))
                     (at4 two_crops i j l 1))
              (at3 boxes (bidx (dim0 boxes) i) (bidx (dim1 boxes) j) 1).
Proof.
  apply (forward_broadcasts_boxes Qplus Qminus Qmult Qdiv inject_Z
           [T3 boxes; T4 two_crops] coco 0 1 boxes two_crops).
  - reflexivity.
  - reflexivity.
  - reflexivity.
  - right. reflexivity.
  - left. reflexivity.
  - simpl. lia.
  - simpl. lia.
Defined.

End TopDownInstances.

Section ConfigInstances.
Import Config ConfigSpec ConfigExamples.

Local Abbreviation value := (@value Q).


Lemma replace_default_values_keeps_keys_witness :
  ∃ d d', model_cfg = VDict d ∧ model_cfg_replaced = VDict d' ∧ d'.*1 = d.*1.
Proof.
  eexists _, _. split; [reflexivity|]. split; [reflexivity|].
  refine (replace_default_values_keeps_keys Qplus Qmult float_of_int memory
            (VInt 17) (VInt 3) (VInt 2048) [] model_cfg model_cfg_replaced _).
  vm_compute. reflexivity.
Defined.

Lemma replace_default_values_keeps_other_entries_witness :
  ∃ d', model_cfg_replaced = VDict d' ∧ d' !! 0 = Some ("method", VStr "bu").
Proof.
  eexists. split; [reflexivity|].
  refine (replace_default_values_keeps_other_entries Qplus Qmult float_of_int memory
            (VInt 17) (VInt 3) (VInt 2048) [] model_cfg model_cfg_replaced
            (VStr "bu") _ _ _ 0 "method" _).
  - vm_compute. reflexivity.
  - reflexivity.
  - intros s [= <-]. reflexivity.
  - reflexivity.
Defined.

Lemma get_updated_value_not_none_witness :
  guv (make_updated_values (VInt 17) VNone VNone []) "num_bodyparts x 2"
    = Ok (VInt 34) ∧
  (VInt 34 : value) ≠ VNone.
Proof.
  split; [reflexivity|].
  apply (get_updated_value_not_none Qplus Qmult float_of_int memory
           (make_updated_values (VInt 17) VNone VNone [])
           "num_bodyparts x 2" (VInt 34)).
  reflexivity.
Defined.

Lemma get_updated_value_ignores_padding_witness :
  let uv : list (string * value) :=
    make_updated_values (VInt 17) VNone VNone [] in
  var_parts (" " +:+ "num_bodyparts + 1" +:+ "  ")
    = var_parts "num_bodyparts + 1" ∧
  ∀ v, guv uv "num_bodyparts + 1" = Ok v →
       guv uv (" " +:+ "num_bodyparts + 1" +:+ "  ") = Ok v.
Proof.
  apply (get_updated_value_ignores_padding Qplus Qmult float_of_int memory
           (make_updated_values (VInt 17) VNone VNone [])
           " " "num_bodyparts + 1" "  "); reflexivity.
Defined.

End ConfigInstances.

Section OverridesInstances.
Import Heap Overrides HeapExamples.

Lemma train_network_overrides_frame_witness :
  ∃ h',
    train_network_overrides (HRef 0) (HInt 4) HNone (HInt 10) HNone run_heap
      = (Ok tt, h') ∧
    length h' = length run_heap ∧
    h' !! 0 = run_heap !! 0 ∧ h' !! 2 = run_heap !! 2 ∧
    subscript h' (HRef 1) "batch_size" = Some (HInt 4) ∧
    subscript h' (HRef 1) "epochs" = subscript run_heap (HRef 1) "epochs" ∧
    subscript h' (HRef 3) "save_epochs" = Some (HInt 10) ∧
    subscript h' (HRef 3) "max_snapshots"
      = subscript run_heap (HRef 3) "max_snapshots".
Proof.
  eexists. split; [vm_compute; reflexivity|].
  destruct (train_network_overrides_frame run_heap _ (HRef 0) (HInt 4) HNone
              (HInt 10) HNone eq_refl) as (N & F & B & _ & _ & S & R).
  split; [exact N|].
  split; [apply F; discriminate|]. split; [apply F; discriminate|].
  destruct (B ltac:(discriminate)) as (t & Ht & _ & Hb).
  injection Ht as <-. split; [exact Hb|].
  split; [apply R; [intros _; repeat split; discriminate|discriminate]|].
  destruct (S ltac:(discriminate)) as (r & s & Hr & Hs & _ & _ & Hv).
  injection Hr as <-. injection Hs as <-. split; [exact Hv|].
  apply R; discriminate.
Defined.

Lemma train_network_overrides_missing_snapshots_witness :
  ∃ h',
    train_network_overrides (HRef 4) (HInt 4) HNone (HInt 10) HNone run_heap
      = (Raise KeyError, h') ∧
    subscript h' (HRef 5) "batch_size" = Some (HInt 4).
Proof.
  destruct (train_network_overrides_missing_snapshots run_heap (HRef 4) 5
              [("batch_size", HInt 8); ("epochs", HInt 200)]
              (HInt 4) HNone (HInt 10) HNone)
    as (h' & Hrun & _ & _ & Hb & _).
  - reflexivity.
  - reflexivity.
  - discriminate.
  - right. eexists 6, _. repeat split; reflexivity.
  - exists h'. split; [exact Hrun|]. apply Hb. discriminate.
Defined.

(** When [train_settings] is also the [snapshots] of the runner, the
    overrides are made in one and the same dictionary. *)
Example train_network_overrides_shared :
  (train_network_overrides (HRef 7) (HInt 4) HNone (HInt 10) HNone run_heap).2
    !! 8
  = Some (ODict [("epochs", HInt 200); ("batch_size", HInt 4);
                 ("save_epochs", HInt 10)]).
Proof. vm_compute. reflexivity. Qed.

End OverridesInstances.

Section TrainInstances.
Import Train.

Lemma entry_point_outcome_witness :
  TrainExamples.parse_args parser_arguments ["--shuffle"; "two"]
    = Raise SystemExit ∨
  (SystemExit = AttributeError ∧
   ∃ args, TrainExamples.parse_args parser_arguments ["--shuffle"; "two"]
           = Ok args).
Proof.
  apply (entry_point_outcome TrainExamples.parse_args ["--shuffle"; "two"]
           (Raise SystemExit)).
  reflexivity.
Defined.

End TrainInstances.

Section HeapInstances.
Import Heap HeapExamples.

Lemma update_config_in_place_returns_config_witness :
  ∃ r h', update_config 5 (HRef 0) (HRef 2) false base_heap = (Ok r, h') ∧
          r = HRef 0.
Proof.
  eexists _, _. split; [vm_compute; reflexivity|].
  eapply (update_config_in_place_returns_config base_heap _ 5
            (HRef 0) (HRef 2) (HRef 0)).
  vm_compute. reflexivity.
Defined.

Lemma get_updated_value_of_list_witness :
  get_updated_value Qplus Qmult ConfigExamples.float_of_int ConfigExamples.memory
    (make_updated_values HNone HNone HNone [("paf_graph", HRef 0)])
    "paf_graph x 2" graph_heap
  = (Ok (HRef 2), graph_heap ++ [OList [HInt 0; HInt 1; HInt 0; HInt 1]]).
Proof.
  destruct (get_updated_value_of_list Qplus Qmult ConfigExamples.float_of_int ConfigExamples.memory
              graph_heap
              (make_updated_values HNone HNone HNone [("paf_graph", HRef 0)])
              "paf_graph x 2" 0 [HInt 0; HInt 1] eq_refl eq_refl) as [_ H].
  apply (H "2"); reflexivity.
Defined.

End HeapInstances.
